(** * Verification of the call-coalescing registry (singleflight), of the
      bloom filter with the cache it guards, and of the token bucket.

    The registry code ([Group.Do], [Group.DoChan], [Group.Forget]) is
    concurrent Go.  It is embedded as an interleaving semantics: every
    invocation is a thread whose program counter is a label named after the
    source line it is about to execute, the registry ([mu], [m]) and the heap
    of [call] records are shared, and [step t s] executes the next statement
    of thread [t].  Schedules are lists of thread identifiers.

    The bloom filter, the cache in front of the mock database and the token
    bucket are sequential: their methods are functions on the state of the
    receiver, with [None] for a panic. *)

From stdpp Require Import gmap strings list pretty.
From Stdlib Require Import ZArith Lia.

Module Singleflight.

(** ** Data model *)

(** A Go [interface{}] or [error] value: [nil] or some boxed dynamic value. *)
Inductive iface : Type :=
| inil
| ibox (n : nat).

#[global] Instance iface_eq_dec : EqDecision iface.
Proof. solve_decision. Defined.

(** [type Result struct { Val interface{}; Err error; Shared bool }] *)
Record Result : Type := mkResult { Val : iface; Err : iface; Shared : bool }.

#[global] Instance Result_eq_dec : EqDecision Result.
Proof. solve_decision. Defined.

(** [type call struct { wg sync.WaitGroup; val interface{}; err error }];
    the wait group is its counter. *)
Record call : Type := mkCall { wg : Z; val : iface; err : iface }.

(** Outcome of a primitive that may block or panic. *)
Inductive eff (A : Type) : Type :=
| Ok (a : A)
| Block
| Panic.
Arguments Ok {A} a.
Arguments Block {A}.
Arguments Panic {A}.

(** [sync.WaitGroup]: [Add] panics when the counter becomes negative,
    [Done] is [Add(-1)], [Wait] returns when the counter is zero. *)
Definition wg_Add (delta : Z) (n : Z) : eff Z :=
  if (n + delta <? 0)%Z then Panic else Ok (n + delta)%Z.

Definition wg_Done (n : Z) : eff Z := wg_Add (-1) n.

Definition wg_Wait (n : Z) : eff unit :=
  if (n =? 0)%Z then Ok tt else Block.

(** A buffered channel of [Result]: values sent and not modelled as
    received stay in [buf]. *)
Record chan : Type := mkChan { cap : nat; buf : list Result; closed : bool }.

Definition make_chan (n : nat) : chan := mkChan n [] false.

Definition chan_send (r : Result) (ch : chan) : eff chan :=
  if closed ch then Panic
  else if decide (length (buf ch) < cap ch) then Ok (mkChan (cap ch) (buf ch ++ [r]) false)
  else Block.

Definition chan_close (ch : chan) : eff chan :=
  if closed ch then Panic else Ok (mkChan (cap ch) (buf ch) true).

(** Go maps: the nil map reads as empty, ignores [delete], and panics on
    assignment. *)
Definition map_get (m : option (gmap string nat)) (k : string) : option nat :=
  match m with
  | None => None
  | Some g => g !! k
  end.

Definition map_set (m : option (gmap string nat)) (k : string) (p : nat)
  : eff (option (gmap string nat)) :=
  match m with
  | None => Panic
  | Some g => Ok (Some (<[k:=p]> g))
  end.

Definition map_delete (m : option (gmap string nat)) (k : string)
  : option (gmap string nat) :=
  match m with
  | None => None
  | Some g => Some (delete k g)
  end.

(** Program points, named after the source line about to be executed.
    [D..] belong to [Do], [C..] to [DoChan], [F..] to [Forget].  [R38] and
    [R54] are "returned by the statement of line 38 / 54", [E71] and [E90]
    "goroutine ended after line 70 / 89", [R104] "Forget returned".  [D46w]
    and [C81w] are the assignment half of [c.val, c.err = fn()]. *)
Inductive label : Type :=
| D30 | D31 | D35 | D36 | D37 | D38 | R38
| D41 | D42 | D43 | D44 | D46 | D46w | D48 | D50 | D51 | D52 | D54 | R54
| C59 | C60 | C61 | C65 | C66 | C68 | C69 | C70 | E71
| C75 | C76 | C77 | C78 | C81 | C81w | C82 | C84 | C85 | C86 | C88 | C89 | E90
| F98 | F99 | F100 | F101 | F103 | R104.

#[global] Instance label_eq_dec : EqDecision label.
Proof. solve_decision. Defined.

(** One invocation: its arguments, program point and locals.  The callable
    [fn] is represented by the pair it returns; its invocation is recorded
    in the trace. *)
Record thread : Type := mkThread {
  key : string;
  fn : iface * iface;
  pc : label;
  c : option nat;                 (* local [c], a pointer into the heap *)
  tmp : iface * iface;            (* the pair returned by [fn()] *)
  ret : option (iface * iface);   (* what [Do] returned *)
  ch : option chan;               (* local [ch] of [DoChan] *)
  panicked : bool
}.

Inductive event : Type :=
| EvCall (t : nat)              (* thread [t] invoked its callable *)
| EvDone (t : nat) (p : nat).   (* thread [t] called [wg.Done()] on record [p] *)

#[global] Instance event_eq_dec : EqDecision event.
Proof. solve_decision. Defined.

(** The [Group] ([mu], [m]), the heap of call records, the invocations and
    the history of callable invocations and completion signals. *)
Record state : Type := mkState {
  mu : option nat;                     (* holder of [g.mu] *)
  m : option (gmap string nat);        (* [g.m]; [None] is the nil map *)
  heap : list call;
  threads : list thread;
  trace : list event
}.

Definition goto (l : label) (th : thread) : thread :=
  mkThread (key th) (fn th) l (c th) (tmp th) (ret th) (ch th) (panicked th).
Definition with_c (p : nat) (th : thread) : thread :=
  mkThread (key th) (fn th) (pc th) (Some p) (tmp th) (ret th) (ch th) (panicked th).
Definition with_tmp (r : iface * iface) (th : thread) : thread :=
  mkThread (key th) (fn th) (pc th) (c th) r (ret th) (ch th) (panicked th).
Definition with_ret (r : iface * iface) (th : thread) : thread :=
  mkThread (key th) (fn th) (pc th) (c th) (tmp th) (Some r) (ch th) (panicked th).
Definition with_ch (x : chan) (th : thread) : thread :=
  mkThread (key th) (fn th) (pc th) (c th) (tmp th) (ret th) (Some x) (panicked th).
Definition with_panic (th : thread) : thread :=
  mkThread (key th) (fn th) (pc th) (c th) (tmp th) (ret th) (ch th) true.

Definition with_mu (x : option nat) (s : state) : state :=
  mkState x (m s) (heap s) (threads s) (trace s).
Definition with_m (x : option (gmap string nat)) (s : state) : state :=
  mkState (mu s) x (heap s) (threads s) (trace s).
Definition with_heap (x : list call) (s : state) : state :=
  mkState (mu s) (m s) x (threads s) (trace s).
Definition with_event (e : event) (s : state) : state :=
  mkState (mu s) (m s) (heap s) (threads s) (e :: trace s).
Definition upd (t : nat) (th : thread) (s : state) : state :=
  mkState (mu s) (m s) (heap s) (<[t:=th]> (threads s)) (trace s).

(** The record a thread's local [c] points to; a thread that dereferences
    a nil or dangling [c] panics. *)
Definition deref (th : thread) (s : state) : option (nat * call) :=
  match c th with
  | None => None
  | Some p => match heap s !! p with
              | None => None
              | Some r => Some (p, r)
              end
  end.

Definition set_wg (n : Z) (r : call) : call := mkCall n (val r) (err r).
Definition set_result (x : iface * iface) (r : call) : call := mkCall (wg r) x.1 x.2.

(** [g.mu.Lock()] then continue at [l]. *)
Definition lock (t : nat) (l : label) (th : thread) (s : state) : option state :=
  match mu s with
  | None => Some (upd t (goto l th) (with_mu (Some t) s))
  | Some _ => None
  end.

(** [g.mu.Unlock()] then continue at [l]. *)
Definition unlock (t : nat) (l : label) (th : thread) (s : state) : option state :=
  Some (upd t (goto l th) (with_mu None s)).

(** [if g.m == nil { g.m = make(map[string]*call) }] *)
Definition lazy_init (t : nat) (l : label) (th : thread) (s : state) : option state :=
  match m s with
  | None => Some (upd t (goto l th) (with_m (Some ∅) s))
  | Some _ => Some (upd t (goto l th) s)
  end.

(** [if c, ok := g.m[key]; ok { ... }]: continue at [hit] with [c] bound, or at [miss]. *)
Definition lookup_key (t : nat) (hit miss : label) (th : thread) (s : state) : option state :=
  match map_get (m s) (key th) with
  | Some p => Some (upd t (goto hit (with_c p th)) s)
  | None => Some (upd t (goto miss th) s)
  end.

(** [c.wg.Wait()] *)
Definition wait (t : nat) (l : label) (th : thread) (s : state) : option state :=
  match deref th s with
  | None => Some (upd t (with_panic th) s)
  | Some (_, r) =>
      match wg_Wait (wg r) with
      | Ok _ => Some (upd t (goto l th) s)
      | _ => None
      end
  end.

(** [c := new(call)] *)
Definition new_call (t : nat) (l : label) (th : thread) (s : state) : option state :=
  Some (upd t (goto l (with_c (length (heap s)) th))
          (with_heap (heap s ++ [mkCall 0 inil inil]) s)).

(** [c.wg.Add(1)] *)
Definition add_one (t : nat) (l : label) (th : thread) (s : state) : option state :=
  match deref th s with
  | None => Some (upd t (with_panic th) s)
  | Some (p, r) =>
      match wg_Add 1 (wg r) with
      | Ok n => Some (upd t (goto l th) (with_heap (<[p:=set_wg n r]> (heap s)) s))
      | _ => Some (upd t (with_panic th) s)
      end
  end.

(** [g.m[key] = c] *)
Definition store_key (t : nat) (l : label) (th : thread) (s : state) : option state :=
  match c th with
  | None => Some (upd t (with_panic th) s)
  | Some p =>
      match map_set (m s) (key th) p with
      | Ok g => Some (upd t (goto l th) (with_m g s))
      | _ => Some (upd t (with_panic th) s)
      end
  end.

(** the call half of [c.val, c.err = fn()] *)
Definition call_fn (t : nat) (l : label) (th : thread) (s : state) : option state :=
  Some (upd t (goto l (with_tmp (fn th) th)) (with_event (EvCall t) s)).

(** the assignment half of [c.val, c.err = fn()] *)
Definition assign (t : nat) (l : label) (th : thread) (s : state) : option state :=
  match deref th s with
  | None => Some (upd t (with_panic th) s)
  | Some (p, r) =>
      Some (upd t (goto l th) (with_heap (<[p:=set_result (tmp th) r]> (heap s)) s))
  end.

(** [c.wg.Done()] *)
Definition done_wg (t : nat) (l : label) (th : thread) (s : state) : option state :=
  match deref th s with
  | None => Some (upd t (with_panic th) s)
  | Some (p, r) =>
      match wg_Done (wg r) with
      | Ok n => Some (upd t (goto l th)
                        (with_event (EvDone t p) (with_heap (<[p:=set_wg n r]> (heap s)) s)))
      | _ => Some (upd t (with_panic th)
                     (with_event (EvDone t p)
                        (with_heap (<[p:=set_wg (wg r - 1) r]> (heap s)) s)))
      end
  end.

(** [delete(g.m, key)] *)
Definition delete_key (t : nat) (l : label) (th : thread) (s : state) : option state :=
  Some (upd t (goto l th) (with_m (map_delete (m s) (key th)) s)).

(** [return c.val, c.err] *)
Definition return_result (t : nat) (l : label) (th : thread) (s : state) : option state :=
  match deref th s with
  | None => Some (upd t (with_panic th) s)
  | Some (_, r) => Some (upd t (goto l (with_ret (val r, err r) th)) s)
  end.

(** [ch <- Result{c.val, c.err, shared}] *)
Definition send_result (shared : bool) (t : nat) (l : label) (th : thread) (s : state)
  : option state :=
  match deref th s, ch th with
  | Some (_, r), Some x =>
      match chan_send (mkResult (val r) (err r) shared) x with
      | Ok x' => Some (upd t (goto l (with_ch x' th)) s)
      | Block => None
      | Panic => Some (upd t (with_panic th) s)
      end
  | _, _ => Some (upd t (with_panic th) s)
  end.

(** [close(ch)] *)
Definition close_chan (t : nat) (l : label) (th : thread) (s : state) : option state :=
  match ch th with
  | Some x =>
      match chan_close x with
      | Ok x' => Some (upd t (goto l (with_ch x' th)) s)
      | _ => Some (upd t (with_panic th) s)
      end
  | None => Some (upd t (with_panic th) s)
  end.

(** ** The three operations, one statement per step *)

(** [func (g *Group) Do(key string, fn func() (interface{}, error)) (interface{}, error)] *)
Definition Do (t : nat) (th : thread) (s : state) : option state :=
  match pc th with
  | D30 => lock t D31 th s                   (* g.mu.Lock() *)
  | D31 => lazy_init t D35 th s              (* if g.m == nil { g.m = make(...) } *)
  | D35 => lookup_key t D36 D41 th s         (* if c, ok := g.m[key]; ok { *)
  | D36 => unlock t D37 th s                 (*   g.mu.Unlock() *)
  | D37 => wait t D38 th s                   (*   c.wg.Wait() *)
  | D38 => return_result t R38 th s          (*   return c.val, c.err } *)
  | D41 => new_call t D42 th s               (* c := new(call) *)
  | D42 => add_one t D43 th s                (* c.wg.Add(1) *)
  | D43 => store_key t D44 th s              (* g.m[key] = c *)
  | D44 => unlock t D46 th s                 (* g.mu.Unlock() *)
  | D46 => call_fn t D46w th s               (* ... = fn() *)
  | D46w => assign t D48 th s                (* c.val, c.err = ... *)
  | D48 => done_wg t D50 th s                (* c.wg.Done() *)
  | D50 => lock t D51 th s                   (* g.mu.Lock() *)
  | D51 => delete_key t D52 th s             (* delete(g.m, key) *)
  | D52 => unlock t D54 th s                 (* g.mu.Unlock() *)
  | D54 => return_result t R54 th s          (* return c.val, c.err *)
  | _ => None
  end.

(** [func (g *Group) DoChan(key string, fn func() (interface{}, error)) <-chan Result].
    The goroutine started at line 67 (resp. 80) is the continuation of the
    invocation; starting it and returning [ch] to the caller change no
    shared state. *)
Definition DoChan (t : nat) (th : thread) (s : state) : option state :=
  match pc th with
  | C59 => Some (upd t (goto C60 (with_ch (make_chan 1) th)) s)  (* ch := make(chan Result, 1) *)
  | C60 => lock t C61 th s                   (* g.mu.Lock() *)
  | C61 => lazy_init t C65 th s              (* if g.m == nil { ... } *)
  | C65 => lookup_key t C66 C75 th s         (* if c, ok := g.m[key]; ok { *)
  | C66 => unlock t C68 th s                 (*   g.mu.Unlock(); go func() { *)
  | C68 => wait t C69 th s                   (*     c.wg.Wait() *)
  | C69 => send_result true t C70 th s       (*     ch <- Result{c.val, c.err, true} *)
  | C70 => close_chan t E71 th s             (*     close(ch) }() *)
  | C75 => new_call t C76 th s               (* c := new(call) *)
  | C76 => add_one t C77 th s                (* c.wg.Add(1) *)
  | C77 => store_key t C78 th s              (* g.m[key] = c *)
  | C78 => unlock t C81 th s                 (* g.mu.Unlock(); go func() { *)
  | C81 => call_fn t C81w th s               (*   ... = fn() *)
  | C81w => assign t C82 th s                (*   c.val, c.err = ... *)
  | C82 => done_wg t C84 th s                (*   c.wg.Done() *)
  | C84 => lock t C85 th s                   (*   g.mu.Lock() *)
  | C85 => delete_key t C86 th s             (*   delete(g.m, key) *)
  | C86 => unlock t C88 th s                 (*   g.mu.Unlock() *)
  | C88 => send_result false t C89 th s      (*   ch <- Result{c.val, c.err, false} *)
  | C89 => close_chan t E90 th s             (*   close(ch) }() *)
  | _ => None
  end.

(** [func (g *Group) Forget(key string)] *)
Definition Forget (t : nat) (th : thread) (s : state) : option state :=
  match pc th with
  | F98 => lock t F99 th s                   (* g.mu.Lock() *)
  | F99 => lookup_key t F100 F103 th s       (* if c, ok := g.m[key]; ok { *)
  | F100 => delete_key t F101 th s           (*   delete(g.m, key) *)
  | F101 => done_wg t F103 th s              (*   c.wg.Done() } *)
  | F103 => unlock t R104 th s               (* g.mu.Unlock() *)
  | _ => None
  end.

Inductive op : Type := OpDo | OpDoChan | OpForget.

Definition op_of (l : label) : op :=
  match l with
  | D30 | D31 | D35 | D36 | D37 | D38 | R38
  | D41 | D42 | D43 | D44 | D46 | D46w | D48 | D50 | D51 | D52 | D54 | R54 => OpDo
  | F98 | F99 | F100 | F101 | F103 | R104 => OpForget
  | _ => OpDoChan
  end.

(** One step of thread [t]: [None] when [t] is blocked, has finished, has
    panicked or does not exist. *)
Definition step (t : nat) (s : state) : option state :=
  match threads s !! t with
  | None => None
  | Some th =>
      if panicked th then None
      else match op_of (pc th) with
           | OpDo => Do t th s
           | OpDoChan => DoChan t th s
           | OpForget => Forget t th s
           end
  end.

(** A schedule names the thread to run at each instant; a thread that
    cannot move lets the instant pass. *)
Definition sched_step (s : state) (t : nat) : state :=
  match step t s with
  | Some s' => s'
  | None => s
  end.

Definition run (sched : list nat) (s : state) : state := foldl sched_step s sched.

Definition reachable (s0 s : state) : Prop := ∃ sched, run sched s0 = s.

(** Invocations and the zero-valued [Group]. *)
Definition invoke (l : label) (k : string) (f : iface * iface) : thread :=
  mkThread k f l None (inil, inil) None None false.
Definition call_Do := invoke D30.
Definition call_DoChan := invoke C59.
Definition call_Forget (k : string) := invoke F98 k (inil, inil).

Definition init (ths : list thread) : state := mkState None None [] ths [].

(** Number of invocations of the callables so far. *)
Fixpoint execs (tr : list event) : nat :=
  match tr with
  | [] => 0
  | EvCall _ :: tr => S (execs tr)
  | _ :: tr => execs tr
  end.

(** Number of [wg.Done()] calls on record [p] so far. *)
Fixpoint signals (p : nat) (tr : list event) : nat :=
  match tr with
  | [] => 0
  | EvDone _ q :: tr => (if decide (q = p) then 1 else 0) + signals p tr
  | _ :: tr => signals p tr
  end.


(** ** Running one invocation alone *)

Lemma step_at t s th :
  threads s !! t = Some th → panicked th = false →
  step t s = match op_of (pc th) with
             | OpDo => Do t th s
             | OpDoChan => DoChan t th s
             | OpForget => Forget t th s
             end.
Proof. intros H1 H2. unfold step. by rewrite H1, H2. Qed.

Lemma run_cons t sched s : run (t :: sched) s = run sched (sched_step s t).
Proof. reflexivity. Qed.


Lemma snoc_lookup {A} (l : list A) (x : A) : (l ++ [x]) !! length l = Some x.
Proof. by rewrite list_lookup_middle. Qed.

Lemma snoc_insert {A} (l : list A) (x y : A) : <[length l:=y]> (l ++ [x]) = l ++ [y].
Proof.
  rewrite insert_app_r_alt by lia. by rewrite Nat.sub_diag.
Qed.

Lemma wg_Add_fresh : wg_Add 1 0 = Ok 1%Z.
Proof. reflexivity. Qed.
Lemma wg_Done_last : wg_Done 1 = Ok 0%Z.
Proof. reflexivity. Qed.
Lemma wg_Wait_zero : wg_Wait 0 = Ok tt.
Proof. reflexivity. Qed.

Ltac solo_simpl :=
  unfold Do, DoChan, Forget, lock, unlock, lazy_init, lookup_key, wait, new_call,
    add_one, store_key, call_fn, assign, done_wg, delete_key, return_result,
    send_result, close_chan, deref, upd, goto, with_c, with_tmp, with_ret, with_ch,
    with_panic, with_mu, with_m, with_heap, with_event, set_wg, set_result;
  repeat first
    [ progress cbn [op_of pc mu m heap threads trace key fn c tmp ret ch panicked
                    wg val err fst snd map_get map_set map_delete]
    | rewrite list_insert_insert_eq
    | rewrite snoc_lookup
    | rewrite snoc_insert
    | rewrite wg_Add_fresh
    | rewrite wg_Done_last
    | rewrite wg_Wait_zero ].

Ltac solo1 :=
  rewrite run_cons; unfold sched_step;
  erewrite step_at;
  [ | cbn [threads]; first [ eassumption | apply list_lookup_insert_eq; assumption ]
    | reflexivity ];
  solo_simpl.

(** ** Invariants of the interleaved executions *)

(** Where an invocation stands with respect to the registry lock and to
    its call record. *)
Inductive phase : Type :=
| PIdle      (* outside the lock, no record involved *)
| PLocked    (* inside the lock, nothing known about the key *)
| PMiss      (* inside the lock, the lookup found nothing *)
| PPre0      (* record allocated, counter not yet raised *)
| PPre1      (* counter raised, record not yet stored *)
| PPub       (* record stored, own [Done] not yet executed *)
| PPost      (* own [Done] executed, waiting for the lock *)
| PDel       (* about to delete the key *)
| PFin       (* key deleted *)
| PJoin      (* joined a record found in the map *)
| PFdel      (* [Forget] about to delete the record it found *)
| PFdone.    (* [Forget] about to signal the record it removed *)

Definition phase_of (l : label) : phase :=
  match l with
  | D30 | C59 | C60 | F98 | R104 => PIdle
  | D31 | D35 | C61 | C65 | F99 | F103 => PLocked
  | D41 | C75 => PMiss
  | D42 | C76 => PPre0
  | D43 | C77 => PPre1
  | D44 | D46 | D46w | D48 | C78 | C81 | C81w | C82 => PPub
  | D50 | C84 => PPost
  | D51 | C85 => PDel
  | D52 | D54 | R54 | C86 | C88 | C89 | E90 => PFin
  | D36 | D37 | D38 | R38 | C66 | C68 | C69 | C70 | E71 => PJoin
  | F100 => PFdel
  | F101 => PFdone
  end.

(** The labels inside a critical section of [g.mu]. *)
Definition crit (l : label) : bool :=
  match l with
  | D31 | D35 | D36 | D41 | D42 | D43 | D44 | D51 | D52
  | C61 | C65 | C66 | C75 | C76 | C77 | C78 | C85 | C86
  | F99 | F100 | F101 | F103 => true
  | _ => false
  end.

(** The invocation created a record of its own. *)
Definition is_exec (l : label) : bool :=
  match phase_of l with
  | PPre0 | PPre1 | PPub | PPost | PDel | PFin => true
  | _ => false
  end.

Definition is_join (l : label) : bool :=
  match phase_of l with
  | PJoin => true
  | _ => false
  end.

(** The counter of record [p] is at most [n]. *)
Definition wg_le (s : state) (p : nat) (n : Z) : Prop :=
  ∀ r, heap s !! p = Some r → (wg r ≤ n)%Z.

(** The lock is held by a [Forget] that removed record [p] and has not
    yet returned from [c.wg.Done()]. *)
Definition forgetting (s : state) (p : nat) : Prop :=
  ∃ F thF, mu s = Some F ∧ threads s !! F = Some thF ∧
           phase_of (pc thF) = PFdone ∧ c thF = Some p.

(** What holds of thread [t] in state [s]. *)
Definition tinv (s : state) (t : nat) (th : thread) : Prop :=
  (crit (pc th) = true ↔ mu s = Some t) ∧
  (∀ p, c th = Some p → p < length (heap s)) ∧
  match phase_of (pc th) with
  | PIdle | PLocked => True
  | PMiss => map_get (m s) (key th) = None
  | PPre0 => ∃ p, c th = Some p ∧ map_get (m s) (key th) = None ∧ wg_le s p 0
  | PPre1 => ∃ p, c th = Some p ∧ map_get (m s) (key th) = None
  | PPub => ∃ p, c th = Some p ∧
              (map_get (m s) (key th) = Some p ∨ forgetting s p ∨ wg_le s p 0)
  | PPost => ∃ p, c th = Some p ∧ wg_le s p 0 ∧
               (map_get (m s) (key th) = Some p ∨ forgetting s p)
  | PDel => ∃ p, c th = Some p ∧ wg_le s p 0 ∧ map_get (m s) (key th) = Some p
  | PFin | PJoin | PFdone => ∃ p, c th = Some p
  | PFdel => ∃ p, c th = Some p ∧ map_get (m s) (key th) = Some p
  end.

Record Inv (s : state) : Prop := mkInv {
  inv_thread : ∀ t th, threads s !! t = Some th → tinv s t th;
  (* two invocations never own the same record *)
  inv_uniq : ∀ t1 t2 th1 th2 p,
    threads s !! t1 = Some th1 → threads s !! t2 = Some th2 →
    is_exec (pc th1) = true → is_exec (pc th2) = true →
    c th1 = Some p → c th2 = Some p → t1 = t2;
  (* a counter never exceeds one *)
  inv_wg : ∀ p, wg_le s p 1;
  (* every record in the map has an owner between its store and its delete *)
  inv_map : ∀ k p, map_get (m s) k = Some p →
    ∃ t th, threads s !! t = Some th ∧ key th = k ∧ c th = Some p ∧
            (phase_of (pc th) = PPub ∨ phase_of (pc th) = PPost ∨ phase_of (pc th) = PDel)
}.

Lemma step_inv t s s' :
  step t s = Some s' →
  ∃ th, threads s !! t = Some th ∧ panicked th = false ∧
        match op_of (pc th) with
        | OpDo => Do t th s
        | OpDoChan => DoChan t th s
        | OpForget => Forget t th s
        end = Some s'.
Proof.
  unfold step. destruct (threads s !! t) as [th|]; [|done].
  destruct (panicked th) eqn:E; [done|]. eauto.
Qed.

(** *** Frame lemmas: what a step of another thread preserves *)

Section Frame.
Context (s s' : state) (t : nat) (th th' : thread).
Hypothesis Ht : threads s !! t = Some th.
Hypothesis Hths : threads s' = <[t:=th']> (threads s).

Lemma lookup_same : threads s' !! t = Some th'.
Proof. rewrite Hths. apply list_lookup_insert_eq. by eapply lookup_lt_Some. Qed.

Lemma lookup_other t' : t' ≠ t → threads s' !! t' = threads s !! t'.
Proof. intros Hne. rewrite Hths. by apply list_lookup_insert_ne. Qed.

Lemma forgetting_frame p :
  forgetting s p → mu s' = mu s →
  (phase_of (pc th) = PFdone → phase_of (pc th') = PFdone ∧ c th' = c th) →
  forgetting s' p.
Proof.
  intros (F & thF & Hmu & HF & Hph & Hc) Hmu' Hkeep.
  destruct (decide (F = t)) as [->|Hne].
  - assert (thF = th) as -> by congruence.
    destruct (Hkeep Hph) as [Hph' Hc'].
    exists t, th'. rewrite Hmu', lookup_same. split_and!; congruence.
  - exists F, thF. rewrite Hmu', lookup_other by done. done.
Qed.

(** A thread other than [t] keeps its invariant when the contents of
    the map and the counters are left as they were (counters may
    decrease, the heap may grow). *)
Lemma tinv_frame t' x :
  tinv s t' x →
  (mu s = Some t' ↔ mu s' = Some t') →
  (∀ p, c x = Some p → forgetting s p → forgetting s' p) →
  map_get (m s') (key x) = map_get (m s) (key x) →
  length (heap s) ≤ length (heap s') →
  (∀ p n, c x = Some p → is_exec (pc x) = true → p < length (heap s) →
          wg_le s p n → wg_le s' p n) →
  tinv s' t' x.
Proof.
  intros (Hl & Hb & Hph) Hmu Hfg Hm Hlen Hwg.
  split_and!.
  - by rewrite Hl.
  - intros p Hp. specialize (Hb p Hp). lia.
  - unfold is_exec in Hwg.
    destruct (phase_of (pc x)); rewrite ?Hm; try done.
    + destruct Hph as (p & Hc & Hn & Hw). exists p. split_and!; eauto.
    + destruct Hph as (p & Hc & [H|[H|H]]); exists p; split; eauto.
    + destruct Hph as (p & Hc & Hw & [H|H]); exists p; split_and!; eauto.
    + destruct Hph as (p & Hc & Hw & H); exists p; split_and!; eauto.
Qed.

Definition owner_phase (l : label) : Prop :=
  phase_of l = PPub ∨ phase_of l = PPost ∨ phase_of l = PDel.

(** The invariant is re-established after a step of [t] once the
    thread-local obligations are met. *)
Lemma Inv_update :
  Inv s →
  (∀ t' x, t' ≠ t → threads s !! t' = Some x → tinv s t' x → tinv s' t' x) →
  tinv s' t th' →
  (is_exec (pc th') = true →
     (is_exec (pc th) = true ∧ c th' = c th) ∨ c th' = Some (length (heap s))) →
  (∀ p, wg_le s' p 1) →
  (∀ k p, map_get (m s') k = Some p →
     map_get (m s) k = Some p ∨ (key th' = k ∧ c th' = Some p ∧ owner_phase (pc th'))) →
  (owner_phase (pc th) →
     (owner_phase (pc th') ∧ c th' = c th ∧ key th' = key th) ∨
     (∀ p, c th = Some p → map_get (m s') (key th) ≠ Some p)) →
  Inv s'.
Proof.
  intros [HT HU HW HM] Hothers Hown Hexec Hwg Hmap Hwit.
  assert (Hbound : ∀ t' x p, threads s !! t' = Some x → c x = Some p →
                             p < length (heap s)).
  { intros t' x p Hx Hc. by apply (HT t' x Hx). }
  split.
  - intros t' x Hx. destruct (decide (t' = t)) as [->|Hne].
    + rewrite lookup_same in Hx. by simplify_eq.
    + rewrite lookup_other in Hx by done. eauto.
  - intros t1 t2 th1 th2 p H1 H2 E1 E2 C1 C2.
    destruct (decide (t1 = t)) as [->|N1], (decide (t2 = t)) as [->|N2]; [done|..].
    + rewrite lookup_same in H1. rewrite lookup_other in H2 by done. simplify_eq.
      destruct (Hexec E1) as [[E C]|C].
      * symmetry. eapply (HU t2 t); eauto. congruence.
      * assert (p = length (heap s)) by congruence. subst.
        specialize (Hbound _ _ _ H2 C2). lia.
    + rewrite lookup_same in H2. rewrite lookup_other in H1 by done. simplify_eq.
      destruct (Hexec E2) as [[E C]|C].
      * eapply (HU t1 t); eauto. congruence.
      * assert (p = length (heap s)) by congruence. subst.
        specialize (Hbound _ _ _ H1 C1). lia.
    + rewrite lookup_other in H1, H2 by done. eauto.
  - done.
  - intros k p Hk. destruct (Hmap k p Hk) as [Hold|(Hkey & Hc & Ho)].
    + destruct (HM k p Hold) as (t0 & x0 & Hx0 & Hk0 & Hc0 & Hp0).
      destruct (decide (t0 = t)) as [->|Hne].
      * assert (x0 = th) as -> by congruence.
        destruct (Hwit Hp0) as [(Ho & Hc' & Hk')|Hgone].
        -- exists t, th'. rewrite lookup_same. split_and!; try done; congruence.
        -- exfalso. apply (Hgone p Hc0). by rewrite Hk0.
      * exists t0, x0. rewrite lookup_other by done. done.
    + exists t, th'. rewrite lookup_same. done.
Qed.
End Frame.

Ltac unf :=
  unfold upd, goto, with_c, with_tmp, with_ret, with_ch, with_panic, with_mu, with_m,
    with_heap, with_event in *;
  cbn [pc mu m heap threads trace key fn c tmp ret ch panicked] in *.

Lemma not_forgetting_unlocked s p : mu s = None → ¬ forgetting s p.
Proof. intros Hmu (F & thF & HF & _). congruence. Qed.

Lemma not_forgetting_holder s t th p :
  Inv s → threads s !! t = Some th → crit (pc th) = true →
  phase_of (pc th) ≠ PFdone → ¬ forgetting s p.
Proof.
  intros HI Ht Hc Hph (F & thF & HF & HthF & HphF & _).
  destruct (inv_thread s HI t th Ht) as (Hl & _).
  apply Hl in Hc. assert (F = t) by congruence. subst. congruence.
Qed.

Lemma crit_holder s t th : Inv s → threads s !! t = Some th → crit (pc th) = true → mu s = Some t.
Proof. intros HI Ht Hc. by apply (inv_thread s HI t th Ht). Qed.

(** [g.mu.Lock()] *)
Lemma Inv_lock t th s s' l' :
  Inv s → threads s !! t = Some th →
  (phase_of (pc th) = PIdle ∧ phase_of l' = PLocked ∨
   phase_of (pc th) = PPost ∧ phase_of l' = PDel) →
  crit l' = true →
  lock t l' th s = Some s' → Inv s'.
Proof.
  intros HI Ht Hph Hcr Hs. unfold lock in Hs.
  destruct (mu s) eqn:Hmu; [done|]. simplify_eq.
  pose proof (inv_thread s HI t th Ht) as (Hl & Hb & Hown).
  apply (Inv_update s _ t th (goto l' th)); try done; unf.
  - intros t' x Hne Hx Hinv. eapply (tinv_frame s); try done; unf.
    + rewrite Hmu. split; [done|]. intros; simplify_eq.
    + intros p _ Hf. by apply not_forgetting_unlocked in Hf.
  - unfold tinv; unf. split_and!; [done|done|].
    destruct Hph as [[H1 H2]|[H1 H2]]; rewrite H2; [done|].
    rewrite H1 in Hown. destruct Hown as (p & Hc & Hw & [H|H]).
    + by exists p.
    + by apply not_forgetting_unlocked in H.
  - unfold is_exec. destruct Hph as [[H1 H2]|[H1 H2]]; rewrite H1, H2; [done|]. by left.
  - apply HI.
  - auto.
  - unfold owner_phase. destruct Hph as [[H1 H2]|[H1 H2]]; rewrite H1, H2.
    + intros [?|[?|?]]; discriminate.
    + intros _. left. auto.
Qed.


(** [g.mu.Unlock()] *)
Lemma Inv_unlock t th s s' l' :
  Inv s → threads s !! t = Some th →
  crit (pc th) = true → crit l' = false →
  (phase_of l' = phase_of (pc th) ∧
     (phase_of l' = PJoin ∨ phase_of l' = PPub ∨ phase_of l' = PFin) ∨
   phase_of (pc th) = PLocked ∧ phase_of l' = PIdle) →
  unlock t l' th s = Some s' → Inv s'.
Proof.
  intros HI Ht Hcr Hcr' Hph Hs. unfold unlock in Hs. simplify_eq.
  pose proof (inv_thread s HI t th Ht) as (Hl & Hb & Hown).
  pose proof (crit_holder s t th HI Ht Hcr) as Hmu.
  assert (Hnf : ∀ p, ¬ forgetting s p).
  { intros p. eapply not_forgetting_holder; eauto.
    destruct Hph as [[H1 H2]|[H1 H2]]; [|congruence].
    rewrite <-H1. destruct H2 as [?|[?|?]]; congruence. }
  apply (Inv_update s _ t th (goto l' th)); try done; unf.
  - intros t' x Hne Hx Hinv. eapply (tinv_frame s); try done; unf.
    + rewrite Hmu. split; intros; simplify_eq.
    + intros p _ Hf. by apply Hnf in Hf.
  - unfold tinv; unf. split_and!; [by rewrite Hcr'|done|].
    destruct Hph as [[H1 H2]|[H1 H2]]; [|by rewrite H2].
    rewrite H1 in *. destruct (phase_of (pc th)) eqn:E; try (destruct H2 as [?|[?|?]]; congruence); try done.
    destruct Hown as (p & Hc & [H|[H|H]]); exists p; split; auto.
    by apply Hnf in H.
  - unfold is_exec. destruct Hph as [[H1 H2]|[H1 H2]]; [rewrite H1; by left|by rewrite H2].
  - apply HI.
  - auto.
  - unfold owner_phase. destruct Hph as [[H1 H2]|[H1 H2]].
    + rewrite H1. intros Ho. left. auto.
    + rewrite H1. intros [?|[?|?]]; discriminate.
Qed.

(** Steps that leave the lock, the map and the counters alone and keep
    the phase of the thread. *)
Lemma Inv_local s s' t th th' :
  Inv s → threads s !! t = Some th →
  threads s' = <[t:=th']> (threads s) →
  mu s' = mu s →
  (∀ k, map_get (m s') k = map_get (m s) k) →
  length (heap s') = length (heap s) →
  (∀ p n, wg_le s p n → wg_le s' p n) →
  key th' = key th → c th' = c th →
  phase_of (pc th') = phase_of (pc th) → crit (pc th') = crit (pc th) →
  Inv s'.
Proof.
  intros HI Ht Hths Hmu Hm Hlen Hwg Hk Hc Hph Hcr.
  assert (Hfg : ∀ p, forgetting s p → forgetting s' p).
  { intros p Hf. eapply forgetting_frame; eauto. intros. split; congruence. }
  assert (Hfr : ∀ t' x, tinv s t' x → tinv s' t' x).
  { intros t' x Hinv. eapply (tinv_frame s); eauto; [by rewrite Hmu|lia]. }
  apply (Inv_update s _ t th th'); try done.
  - eauto.
  - pose proof (Hfr t th (inv_thread s HI t th Ht)) as Hown.
    unfold tinv in *. by rewrite Hcr, Hc, Hph, Hk.
  - unfold is_exec. rewrite Hph. by left.
  - intros p. apply Hwg, HI.
  - intros k p. rewrite Hm. auto.
  - unfold owner_phase. rewrite Hph. left. auto.
Qed.

(** [if c, ok := g.m[key]; ok] *)
Lemma Inv_lookup t th s s' hit miss :
  Inv s → threads s !! t = Some th →
  phase_of (pc th) = PLocked → crit (pc th) = true → crit hit = true → crit miss = true →
  (phase_of hit = PJoin ∨ phase_of hit = PFdel) →
  (phase_of miss = PMiss ∨ phase_of miss = PLocked) →
  lookup_key t hit miss th s = Some s' → Inv s'.
Proof.
  intros HI Ht Hph Hcr Hch Hcm Hhit Hmiss Hs. unfold lookup_key in Hs.
  pose proof (inv_thread s HI t th Ht) as (Hl & Hb & Hown).
  assert (Hfr : ∀ x s', mu s' = mu s → m s' = m s → heap s' = heap s →
            threads s' = <[t:=x]> (threads s) →
            ∀ t' y, t' ≠ t → threads s !! t' = Some y → tinv s t' y → tinv s' t' y).
  { intros x s0 E1 E2 E3 E4 t' y Hne Hy Hinv. eapply (tinv_frame s); eauto.
    - by rewrite E1.
    - intros p _ Hf. eapply (forgetting_frame s s0 t th x); eauto. intros ?; congruence.
    - by rewrite E2.
    - by rewrite E3.
    - intros p n _ _ _. unfold wg_le. by rewrite E3. }
  destruct (map_get (m s) (key th)) as [q|] eqn:Hq; simplify_eq.
  - assert (Hqb : q < length (heap s)).
    { destruct (inv_map s HI _ _ Hq) as (t0 & x0 & Hx0 & _ & Hc0 & _).
      by apply (inv_thread s HI t0 x0 Hx0). }
    apply (Inv_update s _ t th (goto hit (with_c q th))); try done; unf.
    + by apply (Hfr (goto hit (with_c q th))).
    + unfold tinv; unf. split_and!.
      * rewrite Hch. by rewrite <-Hl, Hcr.
      * intros p ?. by simplify_eq.
      * destruct Hhit as [-> | ->]; exists q; auto.
    + unfold is_exec. by destruct Hhit as [-> | ->].
    + apply HI.
    + auto.
    + unfold owner_phase. rewrite Hph. intros [?|[?|?]]; discriminate.
  - apply (Inv_update s _ t th (goto miss th)); try done; unf.
    + by apply (Hfr (goto miss th)).
    + unfold tinv; unf. split_and!.
      * rewrite Hcm. by rewrite <-Hl, Hcr.
      * done.
      * by destruct Hmiss as [-> | ->].
    + unfold is_exec. by destruct Hmiss as [-> | ->].
    + apply HI.
    + auto.
    + unfold owner_phase. rewrite Hph. intros [?|[?|?]]; discriminate.
Qed.

(** [c := new(call)] *)
Lemma Inv_new t th s s' l' :
  Inv s → threads s !! t = Some th →
  phase_of (pc th) = PMiss → crit (pc th) = true → crit l' = true → phase_of l' = PPre0 →
  new_call t l' th s = Some s' → Inv s'.
Proof.
  intros HI Ht Hph Hcr Hcr' Hph' Hs. unfold new_call in Hs. simplify_eq.
  pose proof (inv_thread s HI t th Ht) as (Hl & Hb & Hown).
  rewrite Hph in Hown.
  apply (Inv_update s _ t th (goto l' (with_c (length (heap s)) th))); try done; unf.
  - intros t' y Hne Hy Hinv. eapply (tinv_frame s); eauto; unf; try done.
    + intros p _ Hf. eapply (forgetting_frame s _ t th); eauto; unf. intros ?; congruence.
    + rewrite length_app. lia.
    + intros p n _ _ Hp Hw r. unfold wg_le in Hw. unf. rewrite lookup_app_l by done. auto.
  - unfold tinv; unf. split_and!.
    + rewrite Hcr'. by rewrite <-Hl, Hcr.
    + intros p ?. simplify_eq. rewrite length_app. simpl. lia.
    + rewrite Hph'. exists (length (heap s)). split_and!; [done|done|].
      intros r. unf. rewrite snoc_lookup. intros; by simplify_eq.
  - auto.
  - intros p r. unf. rewrite lookup_snoc_Some. intros [[_ H]|[_ <-]]; [by eapply (inv_wg s HI)|done].
  - auto.
  - unfold owner_phase. rewrite Hph. intros [?|[?|?]]; discriminate.
Qed.

Lemma deref_Some th s p r :
  deref th s = Some (p, r) ↔ c th = Some p ∧ heap s !! p = Some r.
Proof.
  unfold deref. destruct (c th) as [q|]; [|naive_solver].
  destruct (heap s !! q) eqn:E; naive_solver.
Qed.

(** A panic stops the thread where it is. *)
Lemma Inv_panic t th s : Inv s → threads s !! t = Some th → Inv (upd t (with_panic th) s).
Proof. intros HI Ht. by eapply (Inv_local s _ t th (with_panic th)). Qed.

Lemma wg_le_insert s s' p r r' q n :
  heap s !! p = Some r → heap s' = <[p:=r']> (heap s) →
  (q = p → (wg r' ≤ wg r)%Z) →
  wg_le s q n → wg_le s' q n.
Proof.
  intros Hp Hh Hle Hw x. rewrite Hh, list_lookup_insert_Some.
  intros [(<- & <- & _)|[_ Hx]]; [|by apply Hw].
  specialize (Hw r Hp). specialize (Hle eq_refl). lia.
Qed.

(** [c.wg.Add(1)] *)
Lemma Inv_add t th s s' l' :
  Inv s → threads s !! t = Some th →
  phase_of (pc th) = PPre0 → crit (pc th) = true → crit l' = true → phase_of l' = PPre1 →
  add_one t l' th s = Some s' → Inv s'.
Proof.
  intros HI Ht Hph Hcr Hcr' Hph' Hs. unfold add_one in Hs.
  destruct (deref th s) as [[p r]|] eqn:Hd; [|simplify_eq; by apply Inv_panic].
  apply deref_Some in Hd as [Hc Hr].
  unfold wg_Add in Hs. destruct (wg r + 1 <? 0)%Z eqn:Hlt;
    [simplify_eq; by apply Inv_panic|]. simplify_eq.
  pose proof (inv_thread s HI t th Ht) as (Hl & Hb & Hown).
  rewrite Hph in Hown. destruct Hown as (p' & Hc' & Hnone & Hw0).
  assert (p' = p) as -> by congruence.
  apply (Inv_update s _ t th (goto l' th)); try done; unf.
  - intros t' y Hne Hy Hinv. eapply (tinv_frame s); eauto; unf; try done.
    + intros q _ Hf. eapply (forgetting_frame s _ t th); eauto; unf. intros ?; congruence.
    + by rewrite length_insert.
    + intros q n Hq He _ Hw.
      destruct (decide (q = p)) as [->|Hqp].
      * (* only the owner of [p] mentions its counter *)
        exfalso. apply Hne. eapply (inv_uniq s HI t' t y th p); eauto.
        unfold is_exec. by rewrite Hph.
      * intros x. unf. rewrite list_lookup_insert_ne by done. apply Hw.
  - unfold tinv; unf. split_and!.
    + rewrite Hcr'. by rewrite <-Hl, Hcr.
    + intros q ?. rewrite length_insert. auto.
    + rewrite Hph'. exists p. auto.
  - unfold is_exec. rewrite Hph, Hph'. by left.
  - intros q x. unf. rewrite list_lookup_insert_Some.
    intros [(_ & <- & _)|[_ Hx]]; [|by eapply (inv_wg s HI)].
    cbn. specialize (Hw0 r Hr). lia.
  - auto.
  - unfold owner_phase. rewrite Hph. intros [?|[?|?]]; discriminate.
Qed.

(** [g.m[key] = c] *)
Lemma Inv_store t th s s' l' :
  Inv s → threads s !! t = Some th →
  phase_of (pc th) = PPre1 → crit (pc th) = true → crit l' = true → phase_of l' = PPub →
  store_key t l' th s = Some s' → Inv s'.
Proof.
  intros HI Ht Hph Hcr Hcr' Hph' Hs. unfold store_key in Hs.
  destruct (c th) as [p|] eqn:Hc; [|simplify_eq; by apply Inv_panic].
  destruct (m s) as [g|] eqn:Hm; cbn in Hs; [|simplify_eq; by apply Inv_panic].
  simplify_eq.
  pose proof (inv_thread s HI t th Ht) as (Hl & Hb & Hown).
  pose proof (crit_holder s t th HI Ht Hcr) as Hmu.
  rewrite Hph in Hown. destruct Hown as (p' & Hc' & Hnone).
  assert (p' = p) as -> by congruence.
  assert (Hnf : ∀ q, ¬ forgetting s q).
  { intros q. eapply not_forgetting_holder; eauto. congruence. }
  apply (Inv_update s _ t th (goto l' th)); try done; unf.
  - intros t' y Hne Hy Hinv.
    assert (Hncrit : crit (pc y) = true → False).
    { intros Hy'. apply Hne. pose proof (crit_holder s t' y HI Hy Hy'). congruence. }
    destruct (decide (key y = key th)) as [Hk|Hk].
    + destruct Hinv as (Hl' & Hb' & Hy'). unfold tinv; unf. split_and!; [done|done|].
      rewrite Hk, Hm in *. cbn [map_get] in *. rewrite Hnone in Hy'.
      destruct (pc y); cbn in Hncrit; try (by destruct Hncrit); cbn in *; try done.
      all: destruct Hy' as (q & Hq & Hy'); exists q; split; [done|].
      all: repeat match goal with
             | H : _ ∨ _ |- _ => destruct H
             | H : _ ∧ _ |- _ => destruct H
             | H : forgetting _ _ |- _ => by apply Hnf in H
             end; try done.
      all: right; right; by unfold wg_le in *.
    + eapply (tinv_frame s); eauto; unf; try done.
      * intros q _ Hf. by apply Hnf in Hf.
      * rewrite Hm. cbn. by rewrite lookup_insert_ne.
  - unfold tinv; unf. split_and!.
    + rewrite Hcr'. by rewrite <-Hl, Hcr.
    + done.
    + rewrite Hph'. exists p. split; [done|]. left. cbn. by rewrite lookup_insert_eq.
  - unfold is_exec. rewrite Hph, Hph'. by left.
  - apply HI.
  - intros k q. cbn. rewrite lookup_insert_Some. intros [[<- <-]|[_ H]].
    + right. unfold owner_phase. rewrite Hph'. auto.
    + left. by rewrite Hm.
  - unfold owner_phase. rewrite Hph. intros [?|[?|?]]; discriminate.
Qed.

(** [delete(g.m, key)] *)
Lemma Inv_delete t th s s' l' :
  Inv s → threads s !! t = Some th →
  crit (pc th) = true → crit l' = true →
  (phase_of (pc th) = PDel ∧ phase_of l' = PFin ∨
   phase_of (pc th) = PFdel ∧ phase_of l' = PFdone) →
  delete_key t l' th s = Some s' → Inv s'.
Proof.
  intros HI Ht Hcr Hcr' Hph Hs. unfold delete_key in Hs. simplify_eq.
  pose proof (inv_thread s HI t th Ht) as (Hl & Hb & Hown).
  pose proof (crit_holder s t th HI Ht Hcr) as Hmu.
  assert (Hnf : ∀ q, ¬ forgetting s q).
  { intros q. eapply not_forgetting_holder; eauto. destruct Hph as [[? _]|[? _]]; congruence. }
  assert (∃ p, c th = Some p ∧ map_get (m s) (key th) = Some p) as (p & Hc & Hp).
  { destruct Hph as [[H1 _]|[H1 _]]; rewrite H1 in Hown;
      destruct Hown as (p & ? & ?); exists p; naive_solver. }
  assert (Hget : ∀ k, map_get (map_delete (m s) (key th)) k =
                      if decide (key th = k) then None else map_get (m s) k).
  { intros k. destruct (m s) as [g|]; cbn; [apply lookup_delete|by case_decide]. }
  apply (Inv_update s _ t th (goto l' th)); try done; unf.
  - intros t' y Hne Hy Hinv.
    assert (Hncrit : crit (pc y) = true → False).
    { intros Hy'. apply Hne. pose proof (crit_holder s t' y HI Hy Hy'). congruence. }
    destruct (decide (key y = key th)) as [Hk|Hk].
    + destruct Hinv as (Hl' & Hb' & Hy'). unfold tinv; unf. split_and!; [done|done|].
      rewrite Hget, Hk in *. rewrite decide_True by done. rewrite Hp in Hy'.
      assert (Hme : ∀ q, c y = Some q → Some p = Some q → is_exec (pc y) = true →
                forgetting (mkState (mu s) (map_delete (m s) (key th)) (heap s)
                   (<[t:=goto l' th]> (threads s)) (trace s)) q).
      { intros q Hq ? He. simplify_eq.
        destruct Hph as [[H1 H2]|[H1 H2]].
        - exfalso. apply Hne. eapply (inv_uniq s HI t' t y th q); eauto.
          unfold is_exec. by rewrite H1.
        - exists t, (goto l' th). unf. split_and!; try done.
          apply list_lookup_insert_eq. by eapply lookup_lt_Some. }
      unfold is_exec in Hme. unf.
      destruct (phase_of (pc y)) eqn:Ey; try done.
      all: try (destruct (pc y); cbn in Hncrit, Ey; try discriminate; by destruct Hncrit).
      * destruct Hy' as (q & Hq & [H|[H|H]]); exists q; split; auto.
        by apply Hnf in H.
      * destruct Hy' as (q & Hq & Hw & [H|H]); exists q; split_and!; auto.
        by apply Hnf in H.
    + eapply (tinv_frame s); eauto; unf; try done.
      * intros q _ Hf. by apply Hnf in Hf.
      * rewrite Hget. by rewrite decide_False.
  - unfold tinv; unf. split_and!.
    + rewrite Hcr'. by rewrite <-Hl, Hcr.
    + done.
    + destruct Hph as [[H1 H2]|[H1 H2]]; rewrite H2; by exists p.
  - unfold is_exec. destruct Hph as [[H1 H2]|[H1 H2]]; rewrite H1, H2; [by left|done].
  - apply HI.
  - intros k q. rewrite Hget. case_decide; [done|auto].
  - unfold owner_phase. destruct Hph as [[H1 H2]|[H1 H2]]; rewrite H1.
    + intros _. right. intros q _. rewrite Hget. by rewrite decide_True.
    + intros [?|[?|?]]; discriminate.
Qed.

(** [c.wg.Done()] *)
Lemma Inv_done t th s s' l' :
  Inv s → threads s !! t = Some th →
  crit l' = crit (pc th) →
  (phase_of (pc th) = PPub ∧ phase_of l' = PPost ∨
   phase_of (pc th) = PFdone ∧ phase_of l' = PLocked) →
  done_wg t l' th s = Some s' → Inv s'.
Proof.
  intros HI Ht Hcr Hph Hs. unfold done_wg in Hs.
  destruct (deref th s) as [[p r]|] eqn:Hd; [|simplify_eq; by apply Inv_panic].
  apply deref_Some in Hd as [Hc Hr].
  pose proof (inv_thread s HI t th Ht) as (Hl & Hb & Hown).
  pose proof (inv_wg s HI p r Hr) as Hr1.
  unfold wg_Done, wg_Add in Hs. destruct (wg r + -1 <? 0)%Z eqn:Hlt; simplify_eq.
  - (* the counter would become negative: panic *)
    apply Z.ltb_lt in Hlt.
    eapply (Inv_local s _ t th (with_panic th)); eauto; unf; try done.
    + by rewrite length_insert.
    + intros q n. eapply (wg_le_insert s); eauto. cbn. lia.
  - apply Z.ltb_ge in Hlt.
    set (s' := upd t (goto l' th)
                 (with_event (EvDone t p) (with_heap (<[p:=set_wg (wg r + -1) r]> (heap s)) s))).
    assert (Hwg : ∀ q n, wg_le s q n → wg_le s' q n).
    { intros q n. eapply (wg_le_insert s); eauto. cbn. lia. }
    assert (Hp0 : wg_le s' p 0).
    { intros x. subst s'. unf. rewrite list_lookup_insert_Some.
      intros [(_ & <- & _)|[? _]]; [cbn; lia|done]. }
    assert (Hnle : ¬ wg_le s p 0).
    { intros Hw. specialize (Hw r Hr). lia. }
    assert (Hfg : ∀ q, forgetting s q → forgetting s' q ∨ (q = p ∧ phase_of (pc th) = PFdone)).
    { intros q (F & thF & HF & HthF & HphF & HcF).
      destruct (decide (F = t)) as [->|Hne].
      - right. split; congruence.
      - left. exists F, thF. subst s'. unf. rewrite list_lookup_insert_ne by done. done. }
    apply (Inv_update s s' t th (goto l' th)); try done.
    + intros t' y Hne Hy (Hl' & Hb' & Hy'). unfold tinv. split_and!.
      * done.
      * subst s'; unf. by rewrite length_insert.
      * change (map_get (m s') (key y)) with (map_get (m s) (key y)).
        destruct (phase_of (pc y)) eqn:Ey; try done.
        -- destruct Hy' as (q & Hq & ? & ?). exists q. auto.
        -- destruct Hy' as (q & Hq & [H|[H|H]]); exists q; split; auto.
           destruct (Hfg q H) as [?|[-> _]]; auto.
        -- destruct Hy' as (q & Hq & Hw & [H|H]); exists q; split_and!; auto.
           destruct (Hfg q H) as [?|[-> _]]; auto. done.
        -- destruct Hy' as (q & Hq & ? & ?). exists q. auto.
    + unfold tinv. subst s'; unf. split_and!.
      * by rewrite Hcr.
      * intros q ?. rewrite length_insert. auto.
      * destruct Hph as [[H1 H2]|[H1 H2]].
        -- rewrite H2. rewrite H1 in Hown. destruct Hown as (q & Hq & Hor).
           assert (q = p) as -> by congruence. exists p. split_and!; [done|apply Hp0|].
           destruct Hor as [H|[H|H]]; [by left| |done].
           destruct (Hfg p H) as [?|[_ ?]]; [by right|congruence].
        -- by rewrite H2.
    + unfold is_exec. unf. destruct Hph as [[H1 H2]|[H1 H2]]; rewrite H1, H2; [by left|done].
    + intros q. apply Hwg, HI.
    + auto.
    + unfold owner_phase. unf. destruct Hph as [[H1 H2]|[H1 H2]]; rewrite H1, H2.
      * intros _. left. auto.
      * intros [?|[?|?]]; discriminate.
Qed.

(** The remaining statements touch neither the lock, nor the contents of
    the map, nor a counter. *)
Lemma Inv_quiet t th s s' l' (prim : nat → label → thread → state → option state) :
  Inv s → threads s !! t = Some th →
  phase_of l' = phase_of (pc th) → crit l' = crit (pc th) →
  (prim = wait ∨ prim = return_result ∨ prim = send_result true ∨
   prim = send_result false ∨ prim = close_chan ∨ prim = call_fn ∨ prim = assign ∨
   prim = lazy_init ∨
   prim = λ t l th s, Some (upd t (goto l (with_ch (make_chan 1) th)) s)) →
  prim t l' th s = Some s' → Inv s'.
Proof.
  intros HI Ht Hph Hcr Hprim Hs.
  assert (Hgo : ∀ x s0, threads s0 = <[t:=x]> (threads s) →
            key x = key th → c x = c th → pc x = l' →
            mu s0 = mu s → (∀ k, map_get (m s0) k = map_get (m s) k) →
            length (heap s0) = length (heap s) →
            (∀ p n, wg_le s p n → wg_le s0 p n) → Inv s0).
  { intros x s0 E8 E1 E2 E3 E4 E5 E6 E7.
    eapply (Inv_local s s0 t th x); eauto; by rewrite E3. }
  destruct Hprim as [->|[->|[->|[->|[->|[->|[->|[->| ->]]]]]]]].
  - unfold wait in Hs. destruct (deref th s) as [[p r]|]; [|simplify_eq; by apply Inv_panic].
    destruct (wg_Wait (wg r)); simplify_eq. by eapply Hgo.
  - unfold return_result in Hs.
    destruct (deref th s) as [[p r]|]; simplify_eq; [by eapply Hgo|by apply Inv_panic].
  - unfold send_result in Hs.
    destruct (deref th s) as [[p r]|], (ch th); simplify_eq; try by apply Inv_panic.
    destruct (chan_send _ _); simplify_eq; [by eapply Hgo|by apply Inv_panic].
  - unfold send_result in Hs.
    destruct (deref th s) as [[p r]|], (ch th); simplify_eq; try by apply Inv_panic.
    destruct (chan_send _ _); simplify_eq; [by eapply Hgo|by apply Inv_panic].
  - unfold close_chan in Hs. destruct (ch th); simplify_eq; [|by apply Inv_panic].
    destruct (chan_close _); simplify_eq; [by eapply Hgo|by apply Inv_panic..].
  - unfold call_fn in Hs. simplify_eq. by eapply Hgo.
  - unfold assign in Hs.
    destruct (deref th s) as [[p r]|] eqn:Hd; simplify_eq; [|by apply Inv_panic].
    apply deref_Some in Hd as [Hc Hr].
    eapply Hgo; [reflexivity|..]; unf; try done.
    + by rewrite length_insert.
    + intros q n. by eapply (wg_le_insert s).
  - unfold lazy_init in Hs. destruct (m s) eqn:Hm; simplify_eq; (eapply Hgo; [reflexivity|..]); unf; try done.
    intros k. by rewrite Hm.
  - simplify_eq. by eapply Hgo.
Qed.

(** Every step preserves the invariant. *)
Lemma Inv_step t s s' : Inv s → step t s = Some s' → Inv s'.
Proof.
  intros HI Hs. apply step_inv in Hs as (th & Ht & _ & Hs).
  destruct (pc th) eqn:E; cbn in Hs; unfold Do, DoChan, Forget in Hs; rewrite E in Hs;
    try discriminate.
  all: first
    [ eapply Inv_lock; [exact HI|exact Ht|..|exact Hs]
    | eapply Inv_unlock; [exact HI|exact Ht|..|exact Hs]
    | eapply Inv_lookup; [exact HI|exact Ht|..|exact Hs]
    | eapply Inv_new; [exact HI|exact Ht|..|exact Hs]
    | eapply Inv_add; [exact HI|exact Ht|..|exact Hs]
    | eapply Inv_store; [exact HI|exact Ht|..|exact Hs]
    | eapply Inv_done; [exact HI|exact Ht|..|exact Hs]
    | eapply Inv_delete; [exact HI|exact Ht|..|exact Hs]
    | eapply Inv_quiet; [exact HI|exact Ht|..|exact Hs]
    | eapply (Inv_quiet t th s s' _
                (λ t l th s, Some (upd t (goto l (with_ch (make_chan 1) th)) s)));
        [exact HI|exact Ht|..|exact Hs] ].
  all: rewrite ?E; cbn; auto 12.
Qed.

Lemma Inv_run sched s : Inv s → Inv (run sched s).
Proof.
  revert s. induction sched as [|t sched IH]; intros s HI; [done|].
  rewrite run_cons. apply IH. unfold sched_step.
  destruct (step t s) eqn:E; [by eapply Inv_step|done].
Qed.

(** An invocation that has not started. *)
Definition fresh (th : thread) : Prop :=
  (pc th = D30 ∨ pc th = C59 ∨ pc th = F98) ∧ c th = None ∧ ch th = None ∧
  ret th = None ∧ panicked th = false.

Lemma Inv_init ths : Forall fresh ths → Inv (init ths).
Proof.
  intros Hf. split; cbn.
  - intros t th Ht. eapply Forall_lookup_1 in Hf as (Hpc & Hc & _); [|done].
    unfold tinv. cbn. rewrite Hc.
    destruct Hpc as [-> | [-> | ->]]; cbn; split_and!; try done; split; done.
  - intros t1 t2 th1 th2 p H1 _ _ _ C1.
    eapply Forall_lookup_1 in Hf as (_ & Hc & _); [|exact H1]. congruence.
  - intros p r. unfold init; cbn. by rewrite lookup_nil.
  - done.
Qed.

(** ** Executions without [Forget]: every caller attached to a record
       gets the pair its owner's callable returned *)

Definition no_forget (s : state) : Prop :=
  ∀ t th, threads s !! t = Some th → op_of (pc th) ≠ OpForget.

(** The channel after [ch <- Result{v.1, v.2, shared}], closed or not. *)
Definition sent (v : iface * iface) (shared cl : bool) : option chan :=
  Some (mkChan 1 [mkResult v.1 v.2 shared] cl).

(** The invocation's callable has been invoked. *)
Definition called (l : label) : bool :=
  match l with
  | D46w | D48 | D50 | D51 | D52 | D54 | R54
  | C81w | C82 | C84 | C85 | C86 | C88 | C89 | E90 => true
  | _ => false
  end.

Fixpoint count_called (ths : list thread) : nat :=
  match ths with
  | [] => 0
  | th :: ths => (if called (pc th) then 1 else 0) + count_called ths
  end.

(** State of the record of [th], and of its channel, at each label. *)
Definition cinv (s : state) (th : thread) : Prop :=
  ∀ p r, c th = Some p → heap s !! p = Some r →
  match pc th with
  | D42 | C76 => wg r = 0%Z
  | D43 | D44 | D46 | C77 | C78 | C81 => wg r = 1%Z
  | D46w | C81w => wg r = 1%Z ∧ tmp th = fn th
  | D48 | C82 => wg r = 1%Z ∧ (val r, err r) = fn th
  | D50 | D51 | D52 | D54 | C84 | C85 | C86 | C88 => wg r = 0%Z ∧ (val r, err r) = fn th
  | R54 => wg r = 0%Z ∧ (val r, err r) = fn th ∧ ret th = Some (fn th)
  | C89 => wg r = 0%Z ∧ (val r, err r) = fn th ∧ ch th = sent (fn th) false false
  | E90 => wg r = 0%Z ∧ (val r, err r) = fn th ∧ ch th = sent (fn th) false true
  | D38 | C69 => wg r = 0%Z
  | R38 => wg r = 0%Z ∧ ret th = Some (val r, err r)
  | C70 => wg r = 0%Z ∧ ch th = sent (val r, err r) true false
  | E71 => wg r = 0%Z ∧ ch th = sent (val r, err r) true true
  | _ => True
  end.

Definition open_chan (th : thread) : Prop :=
  match pc th with
  | C60 | C61 | C65 | C66 | C68 | C69 | C75 | C76 | C77 | C78
  | C81 | C81w | C82 | C84 | C85 | C86 | C88 => ch th = Some (make_chan 1)
  | _ => True
  end.

Definition is_pre (l : label) : bool :=
  match phase_of l with
  | PPre0 | PPre1 => true
  | _ => false
  end.

(** Between the lazy allocation and the store the map is allocated. *)
Definition needs_map (l : label) : bool :=
  match l with
  | D35 | D41 | D42 | D43 | C65 | C75 | C76 | C77 => true
  | _ => false
  end.

Record Coh (s : state) : Prop := mkCoh {
  coh_no_forget : no_forget s;
  coh_thread : ∀ t th, threads s !! t = Some th → cinv s th ∧ open_chan th;
  (* nobody has panicked *)
  coh_alive : ∀ t th, threads s !! t = Some th → panicked th = false;
  coh_map : ∀ t th, threads s !! t = Some th → needs_map (pc th) = true → m s ≠ None;
  (* the lock is held by an invocation *)
  coh_holder : ∀ h, mu s = Some h → is_Some (threads s !! h);
  (* a record that is not yet stored is known to its owner only *)
  coh_private : ∀ t1 t2 th1 th2 p,
    threads s !! t1 = Some th1 → threads s !! t2 = Some th2 →
    is_pre (pc th1) = true → c th1 = Some p → c th2 = Some p → t1 = t2;
  (* every record has an owner *)
  coh_owner : ∀ p, p < length (heap s) →
    ∃ t th, threads s !! t = Some th ∧ is_exec (pc th) = true ∧ c th = Some p;
  (* the callables were invoked once per invocation that went past line 46 / 81 *)
  coh_execs : execs (trace s) = count_called (threads s)
}.

Lemma count_called_insert ths t th th' :
  ths !! t = Some th →
  count_called (<[t:=th']> ths) + (if called (pc th) then 1 else 0)
  = count_called ths + (if called (pc th') then 1 else 0).
Proof.
  revert t. induction ths as [|x ths IH]; intros [|t] H; try done; simpl in *.
  - simplify_eq. destruct (called (pc th)), (called (pc th')); lia.
  - specialize (IH t H). destruct (called (pc th)), (called (pc th')), (called (pc x)); lia.
Qed.

Section CohUpdate.
Context (s s' : state) (t : nat) (th th' : thread).
Hypothesis HI : Inv s.
Hypothesis HC : Coh s.
Hypothesis Ht : threads s !! t = Some th.
Hypothesis Hths : threads s' = <[t:=th']> (threads s).

Lemma Coh_update :
  op_of (pc th') = op_of (pc th) →
  (∀ t' y, t' ≠ t → threads s !! t' = Some y → cinv s y → cinv s' y) →
  cinv s' th' → open_chan th' →
  panicked th' = false →
  (m s ≠ None → m s' ≠ None) →
  (needs_map (pc th') = true → m s' ≠ None) →
  (∀ h, mu s' = Some h → mu s = Some h ∨ h = t) →
  (* the record of [t] *)
  ((c th' = c th ∧ (is_pre (pc th') = true → is_pre (pc th) = true)) ∨
   c th' = Some (length (heap s)) ∨
   (is_pre (pc th') = false ∧ ∃ k q, c th' = Some q ∧ map_get (m s) k = Some q)) →
  (is_exec (pc th) = true → is_exec (pc th') = true ∧ c th' = c th) →
  (* the heap *)
  (length (heap s') = length (heap s) ∨
   (length (heap s') = S (length (heap s)) ∧ c th' = Some (length (heap s)) ∧
    is_exec (pc th') = true)) →
  execs (trace s') + (if called (pc th) then 1 else 0)
    = execs (trace s) + (if called (pc th') then 1 else 0) →
  Coh s'.
Proof.
  intros Hop Hothers Hown Hch Hpan Hmap Hneed Hmu Hrec Hexec Hheap Hcount.
  destruct HC as [CF CT CA CM CH CP CO CE].
  assert (Hbound : ∀ t' x p, threads s !! t' = Some x → c x = Some p →
                             p < length (heap s)).
  { intros t' x p Hx Hc. by apply (inv_thread s HI t' x Hx). }
  split.
  - intros t' x Hx. destruct (decide (t' = t)) as [->|Hne].
    + rewrite (lookup_same s s' t th th') in Hx by done. simplify_eq.
      rewrite Hop. by apply (CF t).
    + rewrite (lookup_other s s' t th') in Hx by done. by apply (CF t').
  - intros t' x Hx. destruct (decide (t' = t)) as [->|Hne].
    + rewrite (lookup_same s s' t th th') in Hx by done. by simplify_eq.
    + rewrite (lookup_other s s' t th') in Hx by done.
      destruct (CT t' x Hx). split; eauto.
  - intros t' x Hx. destruct (decide (t' = t)) as [->|Hne].
    + rewrite (lookup_same s s' t th th') in Hx by done. by simplify_eq.
    + rewrite (lookup_other s s' t th') in Hx by done. eauto.
  - intros t' x Hx Hn. destruct (decide (t' = t)) as [->|Hne].
    + rewrite (lookup_same s s' t th th') in Hx by done. simplify_eq. auto.
    + rewrite (lookup_other s s' t th') in Hx by done. eauto.
  - intros h Hh. apply lookup_lt_is_Some. rewrite Hths, length_insert.
    destruct (Hmu h Hh) as [Hold| ->]; [|by eapply lookup_lt_Some].
    by apply lookup_lt_is_Some, CH.
  - assert (Hpre : ∀ t' x p, t' ≠ t → threads s !! t' = Some x → c x = Some p →
              c th' = Some p → is_pre (pc x) = true ∨ is_pre (pc th') = true → False).
    { intros t' x p Hne Hx Hcx Hc' Hor.
      destruct Hrec as [[Hc Hp]|[Hc|(Hp & k & q & Hc & Hq)]].
      - destruct Hor as [Hor|Hor].
        + apply Hne. eapply (CP t' t x th p); eauto. congruence.
        + apply Hne. symmetry. eapply (CP t t' th x p); eauto. congruence.
      - specialize (Hbound t' x p Hx Hcx). assert (p = length (heap s)) by congruence. lia.
      - destruct Hor as [Hor|Hor]; [|congruence].
        assert (q = p) as -> by congruence.
        destruct (inv_map s HI k p Hq) as (t0 & x0 & Hx0 & _ & Hc0 & Hph0).
        assert (t' = t0).
        { eapply (inv_uniq s HI t' t0 x x0 p); eauto.
          - unfold is_pre, is_exec in *. by destruct (phase_of (pc x)).
          - unfold is_exec. by destruct Hph0 as [-> | [-> | ->]]. }
        subst t0. assert (x0 = x) as -> by congruence.
        unfold is_pre in Hor. by destruct Hph0 as [H|[H|H]]; rewrite H in Hor. }
    intros t1 t2 th1 th2 p H1 H2 P1 C1 C2.
    destruct (decide (t1 = t)) as [->|N1], (decide (t2 = t)) as [->|N2]; [done|..].
    + rewrite (lookup_same s s' t th th') in H1 by done.
      rewrite (lookup_other s s' t th') in H2 by done. simplify_eq.
      exfalso. eapply (Hpre t2 th2 p); eauto.
    + rewrite (lookup_same s s' t th th') in H2 by done.
      rewrite (lookup_other s s' t th') in H1 by done. simplify_eq.
      exfalso. eapply (Hpre t1 th1 p); eauto.
    + rewrite (lookup_other s s' t th') in H1, H2 by done. eauto.
  - intros p Hp.
    assert (Hold : p < length (heap s) →
              ∃ t0 x, threads s' !! t0 = Some x ∧ is_exec (pc x) = true ∧ c x = Some p).
    { intros Hlt. destruct (CO p Hlt) as (t0 & x & Hx & He & Hc).
      destruct (decide (t0 = t)) as [->|Hne].
      - assert (x = th) as -> by congruence. destruct (Hexec He) as [He' Hc'].
        exists t, th'. rewrite (lookup_same s s' t th th') by done.
        split_and!; congruence.
      - exists t0, x. by rewrite (lookup_other s s' t th') by done. }
    destruct Hheap as [Hlen|(Hlen & Hc & He)]; [apply Hold; lia|].
    destruct (decide (p = length (heap s))) as [->|Hne]; [|apply Hold; lia].
    exists t, th'. by rewrite (lookup_same s s' t th th') by done.
  - rewrite Hths. pose proof (count_called_insert (threads s) t th th' Ht).
    destruct (called (pc th)), (called (pc th')); lia.
Qed.
End CohUpdate.

Lemma cinv_heap s s' y : heap s' = heap s → cinv s y → cinv s' y.
Proof. intros Hh Hy p r. rewrite Hh. apply Hy. Qed.

Lemma cinv_grow s s' y x t' :
  Inv s → threads s !! t' = Some y → heap s' = heap s ++ [x] → cinv s y → cinv s' y.
Proof.
  intros HI Hy Hh Hc p r Hp. rewrite Hh.
  rewrite lookup_app_l by (by eapply (inv_thread s HI t' y Hy)). by apply Hc.
Qed.

(** A write by the owner of record [p] is invisible to the other threads:
    before its [Done] nobody else is past [Wait]. *)
Lemma cinv_owner_write s s' t th t' y p r r' :
  Inv s → Coh s → threads s !! t = Some th → threads s !! t' = Some y → t' ≠ t →
  is_exec (pc th) = true → c th = Some p → heap s !! p = Some r →
  (wg r = 1%Z ∨ is_pre (pc th) = true) →
  heap s' = <[p:=r']> (heap s) →
  cinv s y → cinv s' y.
Proof.
  intros HI HC Ht Hy Hne He Hc Hr Hor Hh Hcy q x Hq. rewrite Hh.
  destruct (decide (q = p)) as [->|Hqp]; [|rewrite list_lookup_insert_ne by done; by apply Hcy].
  intros _. specialize (Hcy p r Hq Hr).
  assert (Hnex : is_exec (pc y) = true → False).
  { intros Hey. apply Hne. by eapply (inv_uniq s HI t' t y th p). }
  assert (Hnf := coh_no_forget s HC t' y Hy).
  destruct Hor as [Hw|Hpre].
  - destruct (pc y); cbn in Hnex, Hnf; try done; try (by destruct Hnex);
      destruct_and?; lia.
  - exfalso. apply Hne. symmetry. by eapply (coh_private s HC t t' th y p).
Qed.

Lemma execs_done t p tr : execs (EvDone t p :: tr) = execs tr.
Proof. done. Qed.

Lemma chan_send_open r : chan_send r (make_chan 1) = Ok (mkChan 1 [r] false).
Proof. done. Qed.

Lemma wg_Wait_Ok n u : wg_Wait n = Ok u → n = 0%Z.
Proof. unfold wg_Wait. destruct (n =? 0)%Z eqn:E; [|done]. intros _. by apply Z.eqb_eq. Qed.

Lemma Coh_step t s s' : Inv s → Coh s → step t s = Some s' → Coh s'.
Proof.
  intros HI HC Hs. apply step_inv in Hs as (th & Ht & Hpn & Hs).
  pose proof (coh_thread s HC t th Ht) as [Hci Hch].
  pose proof (coh_no_forget s HC t th Ht) as Hnf.
  pose proof (coh_map s HC t th Ht) as Hmp.
  pose proof (inv_thread s HI t th Ht) as (Hl & Hb & Hown).
  assert (Hlen : t < length (threads s)) by (by eapply lookup_lt_Some).
  unfold cinv in Hci. unfold open_chan in Hch.
  destruct (pc th) eqn:E; cbn in Hs, Hnf, Hown, Hmp; try done;
    unfold Do, DoChan in Hs; rewrite E in Hs;
    unfold lock, unlock, lazy_init, lookup_key, wait, new_call, add_one, store_key,
      call_fn, assign, done_wg, delete_key, return_result, send_result, close_chan,
      map_set in Hs.
  all: try (specialize (Hmp eq_refl); destruct (m s) eqn:Hm; [clear Hmp|done]).
  (* the record of [t], when it has one, and what the invariant says about it *)
  all: try match goal with
         | H : ∃ p, c ?x = Some p ∧ _, Hb : ∀ p, c ?x = Some p → p < length (heap ?y),
           Hci : ∀ p r, c ?x = Some p → heap ?y !! p = Some r → _ |- _ =>
             let p := fresh "p" in let Hc := fresh "Hc" in
             let r := fresh "r" in let Hr := fresh "Hr" in
             destruct H as (p & Hc & H);
             destruct (lookup_lt_is_Some_2 (heap y) p (Hb p Hc)) as [r Hr];
             specialize (Hci p r Hc Hr); cbn in Hci; destruct_and?;
             assert (deref x y = Some (p, r)) as Hd by (by apply deref_Some);
             rewrite ?Hd in Hs
         | H : ∃ p, c ?x = Some p, Hb : ∀ p, c ?x = Some p → p < length (heap ?y),
           Hci : ∀ p r, c ?x = Some p → heap ?y !! p = Some r → _ |- _ =>
             let p := fresh "p" in let Hc := fresh "Hc" in
             let r := fresh "r" in let Hr := fresh "Hr" in
             destruct H as (p & Hc);
             destruct (lookup_lt_is_Some_2 (heap y) p (Hb p Hc)) as [r Hr];
             specialize (Hci p r Hc Hr); cbn in Hci; destruct_and?;
             assert (deref x y = Some (p, r)) as Hd by (by apply deref_Some);
             rewrite ?Hd in Hs
         end.
  (* the primitives evaluate *)
  all: repeat match goal with
         | H : wg ?r = _, H' : context [wg ?r] |- _ => rewrite H in H'
         | H : ch ?y = _, H' : context [ch ?y] |- _ => rewrite H in H'
         | H : wg_Wait _ = Ok _ |- _ => apply wg_Wait_Ok in H
         end.
  all: unfold sent in Hs; rewrite ?chan_send_open in Hs;
    change (wg_Done 1) with (Ok 0%Z) in Hs; change (wg_Add 1 0) with (Ok 1%Z) in Hs;
    cbn [chan_close closed cap buf] in Hs.
  all: repeat match type of Hs with
         | context [match ?x with _ => _ end] => destruct x eqn:?
         end; simplify_eq.
  all: try congruence.
  all: match goal with
       | HI : Inv ?s, HC : Coh ?s, Ht : threads ?s !! ?t = Some ?th |- Coh (upd ?t ?x _) =>
           eapply (Coh_update s _ t th x HI HC Ht)
       end.
  (* the thread list *)
  all: try reflexivity.
  (* the operation; nobody panics *)
  all: try (unf; rewrite ?E; reflexivity).
  all: try assumption.
  (* the map stays allocated *)
  all: try match goal with
         | |- _ → m _ ≠ None => unf; rewrite ?E; cbn; by intros
         | |- _ → m _ ≠ None => unf; intros; congruence
         end.
  all: try (unf; match goal with |- _ → map_delete ?x _ ≠ None => by destruct x end).
  (* the holder of the lock *)
  all: try match goal with
         | |- ∀ h, mu _ = Some h → _ => unf; intros h Hh; first [by left|right; congruence]
         end.
  (* the other threads *)
  all: try match goal with
         | |- ∀ t' y, _ → _ → cinv _ _ → cinv _ _ =>
             intros t' y Hne Hy Hcy;
             first [ by eapply cinv_heap
                   | by eapply cinv_grow
                   | eapply cinv_owner_write; [exact HI|exact HC|exact Ht|exact Hy|exact Hne|
                       rewrite E; reflexivity|eassumption|eassumption|
                       rewrite ?E; cbn; auto|reflexivity|exact Hcy] ]
         end.
  (* the record of [t], its owner role, the heap *)
  all: unf; rewrite ?E; cbn [is_pre is_exec phase_of called op_of].
  all: try match goal with
         | |- _ ∧ _ ∨ _ ∨ _ =>
             first [ left; split; [reflexivity|by intros ?]
                   | right; left; reflexivity
                   | right; right; split; [reflexivity|]; do 2 eexists; split; [reflexivity|];
                     first [eassumption | by match goal with H : m _ = Some _ |- _ => rewrite H end] ]
         | |- _ = true → _ => by intros ?
         | |- length _ = length _ ∨ _ =>
             first [ by left
                   | left; by rewrite length_insert
                   | right; rewrite length_app; split_and!; [cbn; lia|done..] ]
         end.
  (* the record and the channel of [t] after the step *)
  all: try (unfold open_chan; cbn [pc ch]; rewrite ?E; done).
  all: try (cbn [execs]; lia).
  all: unfold cinv; cbn [pc c heap fn tmp ret ch]; rewrite ?E; intros p' r' Hc' Hr'; try done.
  all: simplify_eq.
  all: try (rewrite snoc_lookup in Hr');
    try (rewrite list_lookup_insert_eq in Hr' by (by eapply lookup_lt_Some));
    simplify_eq; cbn [wg val err set_wg set_result fst snd].
  all: unfold sent; cbn [fst snd]; destruct_and?; split_and?; try done; try congruence.
  all: try (by eapply wg_Wait_Ok).
  all: try match goal with H : tmp ?x = fn ?x |- _ => rewrite H; by destruct (fn x) end.
  all: match goal with H : (_, _) = fn ?x |- _ => by rewrite <-H end.
Qed.

Lemma Coh_run sched s : Inv s → Coh s → Inv (run sched s) ∧ Coh (run sched s).
Proof.
  revert s. induction sched as [|t sched IH]; intros s HI HC; [done|].
  rewrite run_cons. unfold sched_step.
  destruct (step t s) eqn:E; [|by apply IH].
  apply IH; [by eapply Inv_step|by eapply Coh_step].
Qed.

Lemma Coh_init ths :
  Forall fresh ths → Forall (λ th, op_of (pc th) ≠ OpForget) ths → Coh (init ths).
Proof.
  intros Hf Hnf. split; cbn.
  - intros t th Ht. by eapply Forall_lookup_1 in Hnf.
  - intros t th Ht. eapply Forall_lookup_1 in Hf as (Hpc & Hc & _); [|done].
    split.
    + intros p r. by rewrite Hc.
    + unfold open_chan. by destruct Hpc as [-> | [-> | ->]].
  - intros t th Ht. by eapply Forall_lookup_1 in Hf as (_ & _ & _ & _ & Hp).
  - intros t th Ht. eapply Forall_lookup_1 in Hf as (Hpc & _); [|done].
    by destruct Hpc as [-> | [-> | ->]].
  - done.
  - intros t1 t2 th1 th2 p H1 _ _ C1.
    eapply Forall_lookup_1 in Hf as (_ & Hc & _); [|exact H1]. congruence.
  - intros p Hp. lia.
  - induction Hf as [|th l (Hpc & _) _ IH]; [done|]. cbn.
    inversion Hnf; subst. rewrite <-IH by done.
    by destruct Hpc as [-> | [-> | ->]].
Qed.

(** ** Consequences for the callers *)

(** A step changes neither the number of invocations, nor their
    arguments, nor the operation they execute. *)
Lemma step_static t s s' :
  step t s = Some s' →
  length (threads s') = length (threads s) ∧
  ∀ u x, threads s !! u = Some x →
    ∃ x', threads s' !! u = Some x' ∧ key x' = key x ∧ fn x' = fn x ∧
          op_of (pc x') = op_of (pc x).
Proof.
  intros Hs. apply step_inv in Hs as (th & Ht & _ & Hs).
  assert (Hgo : ∀ x s0, s' = upd t x s0 → key x = key th → fn x = fn th →
            op_of (pc x) = op_of (pc th) → threads s0 = threads s →
            length (threads s') = length (threads s) ∧
            ∀ u y, threads s !! u = Some y →
              ∃ y', threads s' !! u = Some y' ∧ key y' = key y ∧ fn y' = fn y ∧
                    op_of (pc y') = op_of (pc y)).
  { intros x s0 -> Hk Hf Ho Hths. unf. rewrite Hths, length_insert. split; [done|].
    intros u y Hy. destruct (decide (u = t)) as [->|Hne].
    - exists x. rewrite list_lookup_insert_eq by (by eapply lookup_lt_Some).
      split; [done|]. assert (y = th) as -> by congruence. done.
    - exists y. by rewrite list_lookup_insert_ne. }
  destruct (pc th) eqn:E; cbn in Hs; unfold Do, DoChan, Forget in Hs; rewrite E in Hs;
    try discriminate;
    unfold lock, unlock, lazy_init, lookup_key, wait, new_call, add_one, store_key,
      call_fn, assign, done_wg, delete_key, return_result, send_result, close_chan in Hs.
  all: repeat match type of Hs with
         | context [match ?x with _ => _ end] => destruct x eqn:?
         end; simplify_eq.
  all: eapply Hgo; [reflexivity|reflexivity|reflexivity| |reflexivity].
  all: cbn [pc goto with_c with_tmp with_ret with_ch with_panic]; rewrite ?E; reflexivity.
Qed.

Lemma run_static sched s :
  length (threads (run sched s)) = length (threads s) ∧
  ∀ u x, threads s !! u = Some x →
    ∃ x', threads (run sched s) !! u = Some x' ∧ key x' = key x ∧ fn x' = fn x ∧
          op_of (pc x') = op_of (pc x).
Proof.
  revert s. induction sched as [|t sched IH]; intros s.
  - split; [done|]. intros u x Hx. by exists x.
  - rewrite run_cons. unfold sched_step. destruct (step t s) as [s'|] eqn:E; [|apply IH].
    destruct (step_static t s s' E) as [Hlen Hst], (IH s') as [Hlen' Hst'].
    split; [congruence|]. intros u x Hx.
    destruct (Hst u x Hx) as (x' & Hx' & <- & <- & <-). eauto.
Qed.

(** Whoever is attached to record [p] and has produced its result has
    produced the pair returned by the callable of the owner of [p]. *)
Lemma attached_result s t th e E p :
  Inv s → Coh s →
  threads s !! t = Some th → c th = Some p →
  threads s !! e = Some E → is_exec (pc E) = true → c E = Some p →
  match pc th with
  | R38 => t ≠ e ∧ ret th = Some (fn E)
  | R54 => t = e ∧ ret th = Some (fn E)
  | E71 => t ≠ e ∧ ch th = sent (fn E) true true
  | E90 => t = e ∧ ch th = sent (fn E) false true
  | _ => True
  end.
Proof.
  intros HI HC Ht Hc He Hex HcE.
  assert (Hp : p < length (heap s)) by (by eapply (inv_thread s HI t th Ht)).
  destruct (lookup_lt_is_Some_2 _ _ Hp) as [r Hr].
  destruct (coh_thread s HC t th Ht) as [Hci _], (coh_thread s HC e E He) as [HcE' _].
  specialize (Hci p r Hc Hr). specialize (HcE' p r HcE Hr).
  assert (Hsame : is_exec (pc th) = true → t = e).
  { intros Hx. by eapply (inv_uniq s HI t e th E p). }
  assert (Hpriv : is_pre (pc E) = true → e = t).
  { intros Hx. by eapply (coh_private s HC e t E th p). }
  destruct (pc th) eqn:Eth; try done.
  - (* R38 *) destruct Hci as [Hw Hret].
    assert (Hne : t ≠ e).
    { intros ->. assert (E = th) as -> by congruence. by rewrite Eth in Hex. }
    split; [done|]. rewrite Hret.
    destruct (pc E); cbn in Hex, Hpriv; try discriminate; destruct_and?;
      try lia; try (by destruct Hne; symmetry; apply Hpriv); congruence.
  - (* R54 *) assert (t = e) as -> by (by apply Hsame).
    assert (E = th) as -> by congruence. naive_solver.
  - (* E71 *) destruct Hci as [Hw Hch].
    assert (Hne : t ≠ e).
    { intros ->. assert (E = th) as -> by congruence. by rewrite Eth in Hex. }
    split; [done|]. rewrite Hch.
    destruct (pc E); cbn in Hex, Hpriv; try discriminate; destruct_and?;
      try lia; try (by destruct Hne; symmetry; apply Hpriv); congruence.
  - (* E90 *) assert (t = e) as -> by (by apply Hsame).
    assert (E = th) as -> by congruence. naive_solver.
Qed.



(** ** One invocation running alone *)

(** [Do] on a key without record: 14 statements, from line 30 to the
    return of line 54. *)
Lemma Do_alone_miss t s th :
  threads s !! t = Some th → pc th = D30 → panicked th = false →
  mu s = None → map_get (m s) (key th) = None →
  run (repeat t 14) s =
    mkState None (Some (default ∅ (m s)))
      (heap s ++ [mkCall 0 (fn th).1 (fn th).2])
      (<[t:=mkThread (key th) (fn th) R54 (Some (length (heap s))) (fn th) (Some (fn th))
              (ch th) false]> (threads s))
      (EvDone t (length (heap s)) :: EvCall t :: trace s).
Proof.
  intros Ht Hpc Hp Hmu Hm.
  assert (Hlt : t < length (threads s)) by (by eapply lookup_lt_Some).
  destruct s as [mu0 m0 h ths tr], th as [k [v e] l c0 tm rt ch0 pn].
  cbn [threads pc panicked mu m key fn heap trace ch] in *. subst.
  cbn [repeat].
  destruct m0 as [g|]; cbn [map_get] in Hm.
  - do 3 solo1. rewrite Hm. repeat solo1.
    cbn [run foldl default from_option id]. by rewrite delete_insert_eq, delete_id.
  - do 3 solo1. rewrite lookup_empty. repeat solo1.
    cbn [run foldl default from_option id]. by rewrite delete_insert_eq, delete_empty.
Qed.

(** [DoChan] on a key without record: 16 statements, from line 59 to the
    [close] of line 89. *)
Lemma DoChan_alone_miss t s th :
  threads s !! t = Some th → pc th = C59 → panicked th = false →
  mu s = None → map_get (m s) (key th) = None →
  run (repeat t 16) s =
    mkState None (Some (default ∅ (m s)))
      (heap s ++ [mkCall 0 (fn th).1 (fn th).2])
      (<[t:=mkThread (key th) (fn th) E90 (Some (length (heap s))) (fn th) (ret th)
              (sent (fn th) false true) false]> (threads s))
      (EvDone t (length (heap s)) :: EvCall t :: trace s).
Proof.
  intros Ht Hpc Hp Hmu Hm.
  assert (Hlt : t < length (threads s)) by (by eapply lookup_lt_Some).
  destruct s as [mu0 m0 h ths tr], th as [k [v e] l c0 tm rt ch0 pn].
  cbn [threads pc panicked mu m key fn heap trace ch ret] in *. subst.
  cbn [repeat].
  destruct m0 as [g|]; cbn [map_get] in Hm.
  - do 4 solo1. rewrite Hm. do 11 solo1. rewrite chan_send_open. solo_simpl.
    solo1. cbn [chan_close closed cap buf]. solo_simpl.
    cbn [run foldl default from_option id]. by rewrite delete_insert_eq, delete_id.
  - do 4 solo1. rewrite lookup_empty. do 11 solo1. rewrite chan_send_open. solo_simpl.
    solo1. cbn [chan_close closed cap buf]. solo_simpl.
    cbn [run foldl default from_option id]. by rewrite delete_insert_eq, delete_empty.
Qed.

(** [Forget] on a key without record: lock, lookup, unlock. *)
Lemma Forget_alone_miss t s th :
  threads s !! t = Some th → pc th = F98 → panicked th = false →
  mu s = None → map_get (m s) (key th) = None →
  run (repeat t 3) s = upd t (goto R104 th) s.
Proof.
  intros Ht Hpc Hp Hmu Hm.
  assert (Hlt : t < length (threads s)) by (by eapply lookup_lt_Some).
  destruct s as [mu0 m0 h ths tr], th as [k f l c0 tm rt ch0 pn].
  cbn [threads pc panicked mu m key fn heap trace ch ret] in *. subst.
  cbn [repeat]. do 2 solo1. rewrite Hm. solo_simpl.
  solo1. done.
Qed.


(** [Forget] on a key whose record has already been signalled: the second
    [Done] panics inside the critical section. *)
Lemma Forget_alone_panic t s th p r :
  threads s !! t = Some th → pc th = F98 → panicked th = false →
  mu s = None → map_get (m s) (key th) = Some p → heap s !! p = Some r →
  (wg r ≤ 0)%Z →
  run (repeat t 4) s =
    mkState (Some t) (map_delete (m s) (key th)) (<[p:=set_wg (wg r - 1) r]> (heap s))
      (<[t:=with_panic (goto F101 (with_c p th))]> (threads s)) (EvDone t p :: trace s).
Proof.
  intros Ht Hpc Hp Hmu Hm Hr Hw.
  assert (Hlt : t < length (threads s)) by (by eapply lookup_lt_Some).
  destruct s as [mu0 m0 h ths tr], th as [k f l c0 tm rt ch0 pn].
  cbn [threads pc panicked mu m key fn heap trace ch ret] in *. subst.
  cbn [repeat]. do 2 solo1. rewrite Hm. solo_simpl.
  do 2 solo1. rewrite Hr.
  assert (wg_Done (wg r) = Panic) as ->.
  { unfold wg_Done, wg_Add. by rewrite (proj2 (Z.ltb_lt _ _)) by lia. }
  solo_simpl. done.
Qed.

(** ** The claims *)

(** An invocation that has not started or has come to its end. *)
Definition idle (l : label) : bool :=
  match l with
  | D30 | C59 | F98 | R38 | R54 | E71 | E90 | R104 => true
  | _ => false
  end.

Lemma fresh_call_Do k f : fresh (call_Do k f).
Proof. unfold fresh. cbn. auto. Qed.
Lemma fresh_call_DoChan k f : fresh (call_DoChan k f).
Proof. unfold fresh. cbn. auto 6. Qed.
Lemma fresh_call_Forget k : fresh (call_Forget k).
Proof. unfold fresh. cbn. auto 6. Qed.

Lemma reach_Inv ths sched : Forall fresh ths → Inv (run sched (init ths)).
Proof. intros. by apply Inv_run, Inv_init. Qed.

Lemma reach_Coh ths sched :
  Forall fresh ths → Forall (λ th, op_of (pc th) ≠ OpForget) ths →
  Coh (run sched (init ths)).
Proof. intros. apply Coh_run; [by apply Inv_init|by apply Coh_init]. Qed.


(** ** Executions without [Forget] run to their end *)

Definition finished (l : label) : bool :=
  match l with
  | R38 | R54 | E71 | E90 | R104 => true
  | _ => false
  end.







(** Inside the critical section every statement can run. *)
Lemma crit_enabled t s th :
  threads s !! t = Some th → panicked th = false → crit (pc th) = true →
  is_Some (step t s).
Proof.
  intros Ht Hp Hc. unfold step. rewrite Ht, Hp.
  destruct (pc th) eqn:E; cbn in Hc; try discriminate; cbn [op_of];
    unfold Do, DoChan, Forget; rewrite E;
    unfold unlock, lazy_init, lookup_key, new_call, add_one, store_key, done_wg, delete_key.
  all: repeat match goal with
         | |- context [match ?x with _ => _ end] => destruct x eqn:?
         end; eauto.
Qed.

(** No deadlock: as long as an invocation has not come to its end, some
    invocation can take a step. *)
Lemma progress s :
  Inv s → Coh s →
  (∃ t th, threads s !! t = Some th ∧ finished (pc th) = false) →
  ∃ t s', step t s = Some s'.
Proof.
  intros HI HC (t & th & Ht & Hfin).
  destruct (mu s) as [h|] eqn:Hmu.
  - (* the holder of the lock can move *)
    destruct (coh_holder s HC h Hmu) as [x Hx].
    destruct (crit_enabled h s x) as [s' Hs']; eauto.
    + by eapply (coh_alive s HC).
    + by apply (inv_thread s HI h x Hx).
  - (* the lock is free *)
    assert (Hncrit : ∀ u x, threads s !! u = Some x → crit (pc x) = true → False).
    { intros u x Hx Hc. apply (inv_thread s HI u x Hx) in Hc. congruence. }
    pose proof (coh_alive s HC t th Ht) as Hp.
    pose proof (coh_no_forget s HC t th Ht) as Hnf.
    destruct (coh_thread s HC t th Ht) as [Hci Hch].
    pose proof (inv_thread s HI t th Ht) as (_ & Hb & Hown).
    assert (Hmove : is_Some (step t s) ∨
              ∃ p r, c th = Some p ∧ heap s !! p = Some r ∧ wg r ≠ 0%Z).
    { unfold step. rewrite Ht, Hp. unfold open_chan in Hch.
      destruct (pc th) eqn:E; cbn in Hfin, Hnf, Hown, Hch; try done;
        try (exfalso; by eapply (Hncrit t th Ht); rewrite E);
        cbn [op_of]; unfold Do, DoChan; rewrite E;
        unfold lock, wait, call_fn, assign, done_wg, return_result, send_result, close_chan,
          deref.
      all: rewrite ?Hmu, ?Hch, ?chan_send_open.
      all: try (left; repeat match goal with
                       | |- context [match ?x with _ => _ end] => destruct x eqn:?
                       end; by eauto).
      all: destruct Hown as (p & Hc); rewrite Hc;
        destruct (lookup_lt_is_Some_2 (heap s) p (Hb p Hc)) as [r Hr]; rewrite Hr;
        unfold wg_Wait; destruct (wg r =? 0)%Z eqn:Hw; [left; eauto|right];
        apply Z.eqb_neq in Hw; eauto 6. }
    destruct Hmove as [[s' Hs']|(p & r & Hc & Hr & Hw)]; [eauto|].
    (* [t] waits for a record whose owner has not signalled yet *)
    assert (Hp' : p < length (heap s)) by (by eapply lookup_lt_Some).
    destruct (coh_owner s HC p Hp') as (e & E & HE & Hex & HcE).
    destruct (coh_thread s HC e E HE) as [HciE _]. specialize (HciE p r HcE Hr).
    pose proof (coh_alive s HC e E HE) as HpE.
    assert (Hpriv : is_pre (pc E) = true → e = t).
    { intros Hx. by eapply (coh_private s HC e t E th p). }
    exists e. unfold step. rewrite HE, HpE.
    destruct (pc E) eqn:EE; cbn in Hex, HciE, Hpriv; try discriminate;
      try (exfalso; by eapply (Hncrit e E HE); rewrite EE);
      destruct_and?; try lia; cbn [op_of]; unfold Do, DoChan; rewrite EE;
      unfold call_fn, assign, done_wg, deref; rewrite ?HcE, ?Hr;
      repeat match goal with
        | |- context [match ?x with _ => _ end] => destruct x eqn:?
        end; eauto.
Qed.






(** C2: a step of [Do] leaves every record of the registry in place,
    except the [delete] of line 51, and when that statement runs the
    record stored under the key is the one this invocation created and
    has just signalled; a different record stored under the key is never
    removed. *)
Theorem Do_removes_only_its_record (ths : list thread) (sched : list nat)
    (t : nat) (th : thread) (s' : state) (k : string) (q : nat) :
  let s := run sched (init ths) in
  Forall fresh ths →
  threads s !! t = Some th → op_of (pc th) = OpDo →
  step t s = Some s' →
  map_get (m s) k = Some q →
  map_get (m s') k = Some q ∨
  (pc th = D51 ∧ k = key th ∧ c th = Some q ∧ wg_le s q 0).
Proof.
  intros s Hf Ht Hop Hs Hq.
  assert (HI : Inv s) by (by apply reach_Inv).
  pose proof (inv_thread s HI t th Ht) as (_ & _ & Hown).
  apply step_inv in Hs as (th0 & Ht0 & _ & Hs).
  assert (th0 = th) as -> by congruence. rewrite Hop in Hs. unfold Do in Hs.
  destruct (pc th) eqn:E; try discriminate; cbn in Hown;
    unfold lock, unlock, lazy_init, lookup_key, wait, new_call, add_one, store_key,
      call_fn, assign, done_wg, delete_key, return_result, map_set in Hs.
  all: repeat match type of Hs with
         | context [match ?x with _ => _ end] => destruct x eqn:?
         end; simplify_eq; unf; try (by left).
  - (* line 31, the map is already allocated *)
    left. by match goal with H : m _ = Some _ |- _ => rewrite H in * end.
  - (* line 43 stores under a key that had no record *)
    destruct Hown as (p & Hc & Hnone). left.
    destruct (m s) as [g|]; simplify_eq. cbn in *.
    rewrite lookup_insert_ne; [done|]. intros <-. congruence.
  - (* line 51 *)
    destruct Hown as (p & Hc & Hw & Hp).
    destruct (decide (k = key th)) as [->|Hne].
    + right. assert (p = q) as -> by (rewrite Hp in Hq; congruence). done.
    + left. destruct (m s); cbn in *; [|done].
      by rewrite lookup_delete_ne.
Qed.

Lemma Do_removes_only_its_record_witness :
  let ths := [call_Do "k" (ibox 1, inil)] in
  let s := run (repeat 0 11) (init ths) in
  map_get (m (run [0] s)) "k" = Some 0 ∨
  (D51 = D51 ∧ "k" = "k" ∧ Some 0 = Some 0 ∧ wg_le s 0 0).
Proof.
  apply (Do_removes_only_its_record [call_Do "k" (ibox 1, inil)] (repeat 0 11) 0
           (mkThread "k" (ibox 1, inil) D51 (Some 0) (ibox 1, inil) None None false)
           (run [0] (run (repeat 0 11) (init [call_Do "k" (ibox 1, inil)]))) "k" 0).
  - repeat constructor.
  - vm_compute. reflexivity.
  - reflexivity.
  - vm_compute. reflexivity.
  - vm_compute. reflexivity.
Defined.

(** C3 fails on the code: a [Do] in flight, then [Forget] on its key (the
    scenario of [ExampleForget]).  [Forget] signals the record, and the
    [Done] of the owner is a second signal, which panics on the negative
    counter: the first [Do] never returns. *)
Lemma Forget_signals_a_second_time :
  let s0 := init [call_Do "forget-key" (ibox 1, inil); call_Forget "forget-key"] in
  let s := run (repeat 0 7 ++ repeat 1 5 ++ repeat 0 3) s0 in
  trace s = [EvDone 0 0; EvCall 0; EvDone 1 0] ∧
  signals 0 (trace s) = 2 ∧
  map wg (heap s) = [(-1)%Z] ∧
  map pc (threads s) = [D48; R104] ∧
  map panicked (threads s) = [true; false] ∧
  map ret (threads s) = [None; None].
Proof. vm_compute. done. Qed.




Lemma map_get_default mp k : map_get (Some (default ∅ mp)) k = map_get mp k.
Proof. destruct mp as [g|]; [reflexivity|]. cbn [default from_option id map_get]. apply lookup_empty. Qed.

(** C4: when no invocation on a key is in flight the registry holds no
    record for it (whatever was run before, [Forget] included); two
    invocations of [Do] on that key run one after the other then both
    miss, both invoke their callable (two executions) and both leave the
    registry without a record for the key. *)
Theorem Do_back_to_back (ths : list thread) (sched : list nat) (k : string)
    (t u : nat) (f1 f2 : iface * iface) :
  let s := run sched (init ths) in
  let s1 := run (repeat t 14) s in
  let s2 := run (repeat u 14) s1 in
  Forall fresh ths →
  Forall (λ th, key th = k → idle (pc th) = true) (threads s) →
  mu s = None →
  threads s !! t = Some (call_Do k f1) → threads s !! u = Some (call_Do k f2) → t ≠ u →
  map_get (m s) k = None ∧
  (∃ th, threads s1 !! t = Some th ∧ pc th = R54 ∧ ret th = Some f1) ∧
  map_get (m s1) k = None ∧
  (∃ th, threads s2 !! u = Some th ∧ pc th = R54 ∧ ret th = Some f2) ∧
  map_get (m s2) k = None ∧
  execs (trace s2) = execs (trace s) + 2.
Proof.
  intros s s1 s2 Hf Hidle Hmu Ht Hu Hne.
  assert (HI : Inv s) by (by apply reach_Inv).
  assert (Hk : map_get (m s) k = None).
  { destruct (map_get (m s) k) as [p|] eqn:Hp; [exfalso|done].
    destruct (inv_map s HI k p Hp) as (o & x & Hx & Hkx & _ & Hph).
    pose proof (Forall_lookup_1 _ _ _ _ Hidle Hx Hkx) as Hid.
    destruct (pc x); cbn in Hid; try discriminate;
      destruct Hph as [?|[?|?]]; discriminate. }
  assert (Hs1 : s1 = _) by (by apply (Do_alone_miss t s (call_Do k f1))).
  assert (Hu1 : threads s1 !! u = Some (call_Do k f2)).
  { rewrite Hs1. cbn [threads]. by rewrite list_lookup_insert_ne. }
  assert (Hk1 : map_get (m s1) k = None).
  { rewrite Hs1. cbn [m]. by rewrite map_get_default. }
  assert (Hmu1 : mu s1 = None) by (rewrite Hs1; reflexivity).
  pose proof (Do_alone_miss u s1 (call_Do k f2) Hu1 eq_refl eq_refl Hmu1 Hk1) as Hs2.
  fold s2 in Hs2.
  split_and!; [exact Hk| |exact Hk1| | |].
  - eexists. rewrite Hs1. cbn [threads]. rewrite list_lookup_insert_eq by (by eapply lookup_lt_Some).
    split_and!; reflexivity.
  - eexists. rewrite Hs2. cbn [threads]. rewrite list_lookup_insert_eq by (by eapply lookup_lt_Some).
    split_and!; reflexivity.
  - rewrite Hs2. cbn [m]. by rewrite map_get_default.
  - rewrite Hs2, Hs1. cbn [trace execs]. lia.
Qed.

Lemma Do_back_to_back_witness :
  let s := run [] (init [call_Do "k" (ibox 1, inil); call_Do "k" (ibox 2, inil)]) in
  let s1 := run (repeat 0 14) s in
  let s2 := run (repeat 1 14) s1 in
  map_get (m s) "k" = None ∧
  (∃ th, threads s1 !! 0 = Some th ∧ pc th = R54 ∧ ret th = Some (ibox 1, inil)) ∧
  map_get (m s1) "k" = None ∧
  (∃ th, threads s2 !! 1 = Some th ∧ pc th = R54 ∧ ret th = Some (ibox 2, inil)) ∧
  map_get (m s2) "k" = None ∧
  execs (trace s2) = execs (trace s) + 2.
Proof.
  apply (Do_back_to_back [call_Do "k" (ibox 1, inil); call_Do "k" (ibox 2, inil)] []
           "k" 0 1 (ibox 1, inil) (ibox 2, inil)).
  - repeat constructor.
  - vm_compute. repeat (constructor; [reflexivity|]). constructor.
  - reflexivity.
  - reflexivity.
  - reflexivity.
  - discriminate.
Defined.











(** The first statements of [Do] and [DoChan] on the nil map: the lock is
    taken, then the map is allocated. *)
Lemma Do_alone_alloc t s th :
  threads s !! t = Some th → pc th = D30 → panicked th = false →
  mu s = None → m s = None →
  run [t; t] s = upd t (goto D35 th) (with_m (Some ∅) (with_mu (Some t) s)).
Proof.
  intros Ht Hpc Hp Hmu Hm.
  assert (Hlt : t < length (threads s)) by (by eapply lookup_lt_Some).
  destruct s as [mu0 m0 h ths tr], th as [k f l c0 tm rt ch0 pn].
  cbn [threads pc panicked mu m key fn heap trace ch ret c] in *. subst.
  do 2 solo1. done.
Qed.

Lemma DoChan_alone_alloc t s th :
  threads s !! t = Some th → pc th = C59 → panicked th = false →
  mu s = None → m s = None →
  run [t; t; t] s =
    upd t (goto C65 (with_ch (make_chan 1) th)) (with_m (Some ∅) (with_mu (Some t) s)).
Proof.
  intros Ht Hpc Hp Hmu Hm.
  assert (Hlt : t < length (threads s)) by (by eapply lookup_lt_Some).
  destruct s as [mu0 m0 h ths tr], th as [k f l c0 tm rt ch0 pn].
  cbn [threads pc panicked mu m key fn heap trace ch ret c] in *. subst.
  do 3 solo1. done.
Qed.

(** C9: on the zero-valued [Group] (nil map, free lock), whatever the
    other invocations are: the first [Do] and the first [DoChan] allocate
    the map inside their critical section and run to their end without
    panic; [Forget] finds nothing in the nil map, leaves it nil, and
    returns without panic. *)
Theorem zero_Group_first_use (pre post : list thread) (k : string) (f : iface * iface) :
  let t := length pre in
  let on th := init (pre ++ th :: post) in
  (let s := run (repeat t 2) (on (call_Do k f)) in
   mu s = Some t ∧ m s = Some ∅) ∧
  (∃ th, threads (run (repeat t 14) (on (call_Do k f))) !! t = Some th ∧
         pc th = R54 ∧ ret th = Some f ∧ panicked th = false) ∧
  (let s := run (repeat t 3) (on (call_DoChan k f)) in
   mu s = Some t ∧ m s = Some ∅) ∧
  (∃ th, threads (run (repeat t 16) (on (call_DoChan k f))) !! t = Some th ∧
         pc th = E90 ∧ ch th = sent f false true ∧ panicked th = false) ∧
  run (repeat t 3) (on (call_Forget k))
    = upd t (goto R104 (call_Forget k)) (on (call_Forget k)).
Proof.
  intros t on.
  assert (Hat : ∀ th, threads (on th) !! t = Some th).
  { intros th. subst on t. cbn [threads init]. by rewrite list_lookup_middle. }
  assert (Hlt : ∀ th, t < length (threads (on th))).
  { intros th. eapply lookup_lt_Some, Hat. }
  split_and!.
  - cbn [repeat]. rewrite (Do_alone_alloc t (on (call_Do k f)) (call_Do k f)) by done.
    split; reflexivity.
  - rewrite (Do_alone_miss t (on (call_Do k f)) (call_Do k f)) by done. cbn [threads].
    rewrite list_lookup_insert_eq by apply Hlt. eexists. split_and!; reflexivity.
  - cbn [repeat].
    rewrite (DoChan_alone_alloc t (on (call_DoChan k f)) (call_DoChan k f)) by done.
    split; reflexivity.
  - rewrite (DoChan_alone_miss t (on (call_DoChan k f)) (call_DoChan k f)) by done.
    cbn [threads]. rewrite list_lookup_insert_eq by apply Hlt.
    eexists. split_and!; reflexivity.
  - by apply (Forget_alone_miss t (on (call_Forget k)) (call_Forget k)).
Qed.

(** ** Further properties of the registry *)

(** The invocation has executed its own [c.wg.Done()]. *)
Definition past_done (l : label) : bool :=
  match phase_of l with
  | PPost | PDel | PFin => true
  | _ => false
  end.

(** How a step changes the invocation that takes it: it keeps its record,
    or joins the record stored under its key, or allocates a new one; and
    the history grows by at most one event. *)
Lemma step_shape t s s' :
  step t s = Some s' →
  ∃ th th', threads s !! t = Some th ∧ panicked th = false ∧
    threads s' = <[t:=th']> (threads s) ∧ key th' = key th ∧ fn th' = fn th ∧
    ((c th' = c th ∧ is_exec (pc th') = is_exec (pc th) ∧
      length (heap s') = length (heap s)) ∨
     (∃ p, map_get (m s) (key th) = Some p ∧ c th' = Some p ∧
           is_exec (pc th') = false ∧ heap s' = heap s) ∨
     (c th' = Some (length (heap s)) ∧ is_exec (pc th') = true ∧
      past_done (pc th') = false ∧ called (pc th') = false ∧
      length (heap s') = S (length (heap s)))) ∧
    ((trace s' = trace s ∧ called (pc th') = called (pc th) ∧
      past_done (pc th') = past_done (pc th)) ∨
     (trace s' = EvCall t :: trace s ∧ called (pc th') = true ∧
      past_done (pc th') = past_done (pc th)) ∨
     (∃ p, trace s' = EvDone t p :: trace s ∧ c th = Some p ∧
           called (pc th') = called (pc th) ∧
           (panicked th' = true ∨ op_of (pc th) = OpForget ∨
            (is_exec (pc th) = true ∧ past_done (pc th) = false ∧
             past_done (pc th') = true)))).
Proof.
  intros Hs. apply step_inv in Hs as (th & Ht & Hpn & Hs).
  exists th.
  destruct (pc th) eqn:E; cbn in Hs; unfold Do, DoChan, Forget in Hs; rewrite E in Hs;
    try discriminate;
    unfold lock, unlock, lazy_init, lookup_key, wait, new_call, add_one, store_key,
      call_fn, assign, done_wg, delete_key, return_result, send_result, close_chan in Hs.
  all: repeat match type of Hs with
         | context [match ?x with _ => _ end] => destruct x eqn:?
         end; simplify_eq.
  all: repeat match goal with
         | H : deref _ _ = Some _ |- _ => apply deref_Some in H as [? ?]
         end.
  all: eexists; split; [exact Ht|]; split; [exact Hpn|]; split; [reflexivity|];
    split; [reflexivity|]; split; [reflexivity|].
  all: unf; rewrite ?E; cbn [is_exec past_done called phase_of op_of];
    rewrite ?length_insert, ?length_app; cbn [length].
  all: split;
    [ first [ left; split_and!; solve [reflexivity|lia|eassumption]
            | right; left; eexists; split_and!; solve [reflexivity|eassumption]
            | right; right; split_and!; solve [reflexivity|lia] ]
    | first [ left; split_and!; reflexivity
            | right; left; split_and!; reflexivity
            | right; right; eexists; split_and!;
                [reflexivity|solve [reflexivity|eassumption]|reflexivity|auto 6] ] ].
Qed.

Lemma lookup_upd (ths : list thread) t th th' u x :
  ths !! t = Some th → <[t:=th']> ths !! u = Some x →
  (u = t ∧ x = th') ∨ (u ≠ t ∧ ths !! u = Some x).
Proof.
  intros Ht Hu. destruct (decide (u = t)) as [->|Hne].
  - rewrite list_lookup_insert_eq in Hu by (by eapply lookup_lt_Some). left. by simplify_eq.
  - rewrite list_lookup_insert_ne in Hu by done. by right.
Qed.

(** A property kept by every step is kept by every execution. *)
Lemma run_keeps (P : state → Prop) :
  (∀ t s s', Inv s → P s → step t s = Some s' → P s') →
  ∀ sched s, Inv s → P s → P (run sched s).
Proof.
  intros Hstep sched. induction sched as [|t sched IH]; intros s HI HP; [done|].
  rewrite run_cons. unfold sched_step. destruct (step t s) as [s'|] eqn:E; [|by apply IH].
  apply IH; [by eapply Inv_step|by eapply Hstep].
Qed.

Lemma run_keeps_Coh (P : state → Prop) :
  (∀ t s s', Inv s → Coh s → P s → step t s = Some s' → P s') →
  ∀ sched s, Inv s → Coh s → P s → P (run sched s).
Proof.
  intros Hstep sched. induction sched as [|t sched IH]; intros s HI HC HP; [done|].
  rewrite run_cons. unfold sched_step. destruct (step t s) as [s'|] eqn:E; [|by apply IH].
  apply IH; [by eapply Inv_step|by eapply Coh_step|by eapply Hstep].
Qed.

(** Whoever holds a pointer to a record has the key of the record's
    owner. *)
Definition same_key (s : state) : Prop :=
  ∀ t th e E p, threads s !! t = Some th → threads s !! e = Some E →
    c th = Some p → c E = Some p → is_exec (pc E) = true → key E = key th.

Lemma same_key_step t s s' : Inv s → same_key s → step t s = Some s' → same_key s'.
Proof.
  intros HI HK Hs.
  destruct (step_shape t s s' Hs) as (th & th' & Ht & _ & Hths & Hk & _ & Hrec & _).
  intros u x e E p Hu He Hcx HcE Hex. rewrite Hths in Hu, He.
  destruct (lookup_upd _ _ _ _ _ _ Ht Hu) as [[-> ->]|[Hnu Hu']],
           (lookup_upd _ _ _ _ _ _ Ht He) as [[-> ->]|[Hne He']]; clear Hu He.
  - done.
  - rewrite Hk. destruct Hrec as [(Hc & _) | [(q & Hm & Hc & _) | (Hc & _)]].
    + eapply (HK t th e E p); eauto; congruence.
    + assert (q = p) as -> by congruence.
      destruct (inv_map s HI _ _ Hm) as (o & O & HO & HkO & HcO & Hph).
      assert (e = o) as ->.
      { eapply (inv_uniq s HI e o E O p); eauto.
        unfold is_exec. by destruct Hph as [-> | [-> | ->]]. }
      congruence.
    + exfalso. assert (p = length (heap s)) as -> by congruence.
      pose proof (inv_thread s HI e E He') as (_ & Hb & _). specialize (Hb _ HcE). lia.
  - rewrite Hk. destruct Hrec as [(Hc & Hex' & _) | [(q & Hm & Hc & Hnex & _) | (Hc & _)]].
    + eapply (HK u x t th p); eauto; congruence.
    + congruence.
    + exfalso. assert (p = length (heap s)) as -> by congruence.
      pose proof (inv_thread s HI u x Hu') as (_ & Hb & _). specialize (Hb _ Hcx). lia.
  - by eapply (HK u x e E p).
Qed.

Lemma same_key_init ths : Forall fresh ths → same_key (init ths).
Proof.
  intros Hf t th e E p Ht _ Hc. eapply Forall_lookup_1 in Hf as (_ & Hc' & _); [|exact Ht].
  congruence.
Qed.

(** The callable of an invocation that is past its call is in the
    history. *)
Definition invoked (s : state) : Prop :=
  ∀ e E, threads s !! e = Some E → called (pc E) = true → EvCall e ∈ trace s.

Lemma invoked_step t s s' : Inv s → invoked s → step t s = Some s' → invoked s'.
Proof.
  intros _ HV Hs.
  destruct (step_shape t s s' Hs) as (th & th' & Ht & _ & Hths & _ & _ & _ & Htr).
  intros e E He Hc. rewrite Hths in He.
  assert (Hsub : ∀ ev, ev ∈ trace s → ev ∈ trace s').
  { intros ev Hev.
    destruct Htr as [(-> & _) | [(-> & _) | (q & -> & _)]]; [done|by apply elem_of_cons; right..]. }
  destruct (lookup_upd _ _ _ _ _ _ Ht He) as [[-> ->]|[Hne He']]; [|by eapply Hsub, HV].
  destruct Htr as [(Htr & Hcl & _) | [(-> & _) | (q & Htr & _ & Hcl & _)]].
  - apply Hsub, (HV t th Ht). congruence.
  - by apply elem_of_cons; left.
  - apply Hsub, (HV t th Ht). congruence.
Qed.

Lemma invoked_init ths : Forall fresh ths → invoked (init ths).
Proof.
  intros Hf e E He Hc. eapply Forall_lookup_1 in Hf as (Hpc & _); [|exact He].
  destruct Hpc as [Hpc|[Hpc|Hpc]]; rewrite Hpc in Hc; done.
Qed.

(** Without [Forget]: a record is signalled by its owner's [Done] and by
    nothing else. *)
Definition signalled_by_owner (s : state) : Prop :=
  (∀ p, length (heap s) ≤ p → signals p (trace s) = 0) ∧
  ∀ e E p, threads s !! e = Some E → is_exec (pc E) = true → c E = Some p →
    signals p (trace s) = if past_done (pc E) then 1 else 0.

Lemma past_done_exec l : past_done l = true → is_exec l = true.
Proof. unfold past_done, is_exec. by destruct (phase_of l). Qed.

Lemma signals_cons_call t p tr : signals p (EvCall t :: tr) = signals p tr.
Proof. reflexivity. Qed.

Lemma signals_cons_done t q p tr :
  signals p (EvDone t q :: tr) = (if decide (q = p) then 1 else 0) + signals p tr.
Proof. reflexivity. Qed.

Lemma signalled_by_owner_step t s s' :
  Inv s → Coh s → signalled_by_owner s → step t s = Some s' → signalled_by_owner s'.
Proof.
  intros HI HC [H0 H1] Hs.
  pose proof (Coh_step t s s' HI HC Hs) as HC'.
  destruct (step_shape t s s' Hs) as (th & th' & Ht & _ & Hths & _ & _ & Hrec & Htr).
  pose proof (coh_no_forget s HC t th Ht) as Hnf.
  assert (Hal : panicked th' = false).
  { apply (coh_alive s' HC' t). rewrite Hths. apply list_lookup_insert_eq.
    by eapply lookup_lt_Some. }
  pose proof (inv_thread s HI t th Ht) as (_ & Hbt & _).
  assert (Hlen : length (heap s) ≤ length (heap s')).
  { destruct Hrec as [(_ & _ & ->) | [(q & _ & _ & _ & ->) | (_ & _ & _ & _ & ->)]]; lia. }
  (* the event of the step, if it is a signal, is the owner's *)
  assert (Hsig : ∀ p,
            (signals p (trace s') = signals p (trace s) ∧
             (c th = Some p → past_done (pc th') = past_done (pc th))) ∨
            (signals p (trace s') = 1 + signals p (trace s) ∧ c th = Some p ∧
             is_exec (pc th) = true ∧ past_done (pc th) = false ∧
             past_done (pc th') = true)).
  { intros p. destruct Htr as [(-> & _ & Hpd) | [(-> & _ & Hpd) | (q & -> & Hcq & _ & Hor)]];
      [by left|by left|].
    rewrite signals_cons_done. destruct (decide (q = p)) as [->|Hqp].
    - right. destruct Hor as [?|[?|(? & ? & ?)]]; [congruence|done|]. done.
    - left. split; [done|]. intros Hcp. congruence. }
  split.
  - intros p Hp. destruct (Hsig p) as [[-> _]|(_ & Hc & _)]; [apply H0; lia|].
    specialize (Hbt p Hc). lia.
  - intros e E p He Hex HcE. rewrite Hths in He.
    destruct (lookup_upd _ _ _ _ _ _ Ht He) as [[-> ->]|[Hne He']]; clear He.
    + destruct Hrec as [(Hc & Hex' & _) | [(q & _ & _ & Hnex & _) | (Hc & _ & Hpd & _)]];
        [|congruence|].
      * rewrite Hc in HcE. rewrite Hex' in Hex.
        destruct (Hsig p) as [[-> Hpd]|(-> & _ & _ & Hpd & ->)].
        -- rewrite (H1 t th p Ht Hex HcE). by rewrite Hpd.
        -- rewrite (H1 t th p Ht Hex HcE), Hpd. done.
      * rewrite Hpd. assert (p = length (heap s)) as -> by congruence.
        destruct (Hsig (length (heap s))) as [[-> _]|(_ & Hc' & _)]; [by apply H0|].
        specialize (Hbt _ Hc'). lia.
    + destruct (Hsig p) as [[-> _]|(_ & Hc & Hext & _)]; [by apply (H1 e E p)|].
      exfalso. apply Hne. by eapply (inv_uniq s HI e t E th p).
Qed.

Lemma signalled_by_owner_init ths : Forall fresh ths → signalled_by_owner (init ths).
Proof.
  intros Hf. split; [done|]. intros e E p He _ Hc.
  eapply Forall_lookup_1 in Hf as (_ & Hc' & _); [|exact He]. congruence.
Qed.

Lemma reach_same_key ths sched : Forall fresh ths → same_key (run sched (init ths)).
Proof.
  intros Hf. apply (run_keeps same_key same_key_step); [by apply Inv_init|].
  by apply same_key_init.
Qed.

Lemma reach_invoked ths sched : Forall fresh ths → invoked (run sched (init ths)).
Proof.
  intros Hf. apply (run_keeps invoked invoked_step); [by apply Inv_init|].
  by apply invoked_init.
Qed.

Lemma reach_signalled ths sched :
  Forall fresh ths → Forall (λ th, op_of (pc th) ≠ OpForget) ths →
  signalled_by_owner (run sched (init ths)).
Proof.
  intros Hf Hnf. apply (run_keeps_Coh signalled_by_owner signalled_by_owner_step);
    [by apply Inv_init|by apply Coh_init|by apply signalled_by_owner_init].
Qed.

Ltac fresh_list :=
  repeat first [apply Forall_nil_2 | apply Forall_cons_2];
  first [apply fresh_call_Do | apply fresh_call_DoChan | apply fresh_call_Forget].

Ltac no_forget_list :=
  repeat first [apply Forall_nil_2 | apply Forall_cons_2]; discriminate.

(** X19: the registry lock gives mutual exclusion, whatever mix of [Do],
    [DoChan] and [Forget] runs: in every reachable state at most one
    invocation is between a [g.mu.Lock()] and its [g.mu.Unlock()], and it is
    the holder of the lock; so the map [g.m] is never accessed by two
    invocations at once. *)
Theorem lock_mutual_exclusion (ths : list thread) (sched : list nat)
    (t1 t2 : nat) (th1 th2 : thread) :
  let s := run sched (init ths) in
  Forall fresh ths →
  threads s !! t1 = Some th1 → threads s !! t2 = Some th2 →
  crit (pc th1) = true → crit (pc th2) = true →
  t1 = t2 ∧ mu s = Some t1.
Proof.
  intros s Hf H1 H2 Hc1 Hc2.
  assert (HI : Inv s) by (by apply reach_Inv).
  apply (inv_thread s HI t1 th1 H1) in Hc1.
  apply (inv_thread s HI t2 th2 H2) in Hc2.
  split; [congruence|done].
Qed.

Lemma lock_mutual_exclusion_witness :
  let s := run [0; 1; 0; 1; 1; 0] (init [call_Do "k" (ibox 1, inil); call_Forget "k"]) in
  ∃ th1, threads s !! 0 = Some th1 ∧ crit (pc th1) = true ∧ mu s = Some 0.
Proof.
  eexists. split; [vm_compute; reflexivity|]. split; [reflexivity|].
  eapply (lock_mutual_exclusion [call_Do "k" (ibox 1, inil); call_Forget "k"]
            [0; 1; 0; 1; 1; 0] 0 0).
  - fresh_list.
  - vm_compute. reflexivity.
  - vm_compute. reflexivity.
  - reflexivity.
  - reflexivity.
Defined.








(** X22: results never cross keys.  Without [Forget], what a finished
    invocation delivers is the pair of a callable that was passed with the
    same key and that has been invoked: its own when it ends at line 54 or
    89 ([Shared = false]), another invocation's when it joined (lines 38
    and 69, [Shared = true]). *)
Theorem results_stay_within_key (ths : list thread) (sched : list nat)
    (t : nat) (th : thread) :
  let s := run sched (init ths) in
  Forall fresh ths → Forall (λ th, op_of (pc th) ≠ OpForget) ths →
  threads s !! t = Some th → finished (pc th) = true →
  ∃ e f, ths !! e = Some f ∧ key f = key th ∧ EvCall e ∈ trace s ∧
    match pc th with
    | R38 => e ≠ t ∧ ret th = Some (fn f)
    | R54 => e = t ∧ ret th = Some (fn f)
    | E71 => e ≠ t ∧ ch th = Some (mkChan 1 [mkResult (fn f).1 (fn f).2 true] true)
    | E90 => e = t ∧ ch th = Some (mkChan 1 [mkResult (fn f).1 (fn f).2 false] true)
    | _ => False
    end.
Proof.
  intros s Hf Hnf Ht Hfin.
  assert (HI : Inv s) by (by apply reach_Inv).
  assert (HC : Coh s) by (by apply reach_Coh).
  pose proof (reach_same_key ths sched Hf) as HK. fold s in HK.
  pose proof (reach_invoked ths sched Hf) as HV. fold s in HV.
  pose proof (coh_no_forget s HC t th Ht) as Hnft.
  pose proof (inv_thread s HI t th Ht) as (_ & Hb & Hown).
  assert (∃ p, c th = Some p) as [p Hc].
  { destruct (pc th); cbn in Hfin, Hnft, Hown; try done; destruct Hown; eauto. }
  destruct (coh_owner s HC p (Hb p Hc)) as (e & E & HE & Hex & HcE).
  destruct (run_static sched (init ths)) as [Hlen Hst]. fold s in Hlen, Hst.
  assert (is_Some (ths !! e)) as [f Hfe].
  { apply lookup_lt_is_Some. change (threads (init ths)) with ths in Hlen.
    rewrite <-Hlen. by eapply lookup_lt_Some. }
  destruct (Hst e f Hfe) as (E' & HE' & HkE & HfE & _).
  assert (E' = E) as -> by congruence.
  pose proof (attached_result s t th e E p HI HC Ht Hc HE Hex HcE) as Hres.
  (* the owner of a record that a finished invocation holds is past its call *)
  assert (Hcalled : called (pc E) = true).
  { destruct (lookup_lt_is_Some_2 (heap s) p (Hb p Hc)) as [r Hr].
    destruct (coh_thread s HC t th Ht) as [Hci _], (coh_thread s HC e E HE) as [HcE' _].
    specialize (Hci p r Hc Hr). specialize (HcE' p r HcE Hr).
    assert (Hpriv : is_pre (pc E) = true → e = t).
    { intros Hx. by eapply (coh_private s HC e t E th p). }
    assert (Hw : wg r = 0%Z).
    { destruct (pc th); cbn in Hfin, Hnft; try done; by destruct_and?. }
    assert (Hnpre : is_pre (pc E) = false).
    { destruct (is_pre (pc E)) eqn:Hpre; [|done]. specialize (Hpriv eq_refl). subst e.
      assert (E = th) as -> by congruence.
      destruct (pc th); cbn in Hfin, Hpre; done. }
    destruct (pc E); cbn in Hex, Hnpre, HcE' |- *; try done; destruct_and?; lia. }
  exists e, f. split_and!; [done|..].
  - rewrite <-HkE. by eapply (HK t th e E p).
  - by eapply HV.
  - rewrite <-HfE. unfold sent in Hres.
    destruct (pc th); cbn in Hfin; try done; destruct Hres as [Hne Hres];
      (split; [done|exact Hres]).
Qed.

Lemma results_stay_within_key_witness :
  let ths := [call_Do "k" (ibox 1, inil); call_Do "j" (ibox 2, inil);
              call_DoChan "k" (ibox 3, inil)] in
  let s := run (repeat 0 7 ++ repeat 2 5 ++ repeat 1 14 ++ repeat 0 7 ++ repeat 2 3)
             (init ths) in
  ∃ th, threads s !! 2 = Some th ∧
  ∃ e f, ths !! e = Some f ∧ key f = key th ∧ EvCall e ∈ trace s ∧
    match pc th with
    | R38 => e ≠ 2 ∧ ret th = Some (fn f)
    | R54 => e = 2 ∧ ret th = Some (fn f)
    | E71 => e ≠ 2 ∧ ch th = Some (mkChan 1 [mkResult (fn f).1 (fn f).2 true] true)
    | E90 => e = 2 ∧ ch th = Some (mkChan 1 [mkResult (fn f).1 (fn f).2 false] true)
    | _ => False
    end.
Proof.
  eexists. split; [vm_compute; reflexivity|].
  eapply (results_stay_within_key
            [call_Do "k" (ibox 1, inil); call_Do "j" (ibox 2, inil);
             call_DoChan "k" (ibox 3, inil)]
            (repeat 0 7 ++ repeat 2 5 ++ repeat 1 14 ++ repeat 0 7 ++ repeat 2 3) 2).
  - fresh_list.
  - no_forget_list.
  - vm_compute. reflexivity.
  - reflexivity.
Defined.

(** X23: without [Forget] every call record is signalled at most once at
    any time, by its owner, and exactly once by the time all invocations
    have come to their end. *)
Theorem record_signalled_once_without_Forget (ths : list thread) (sched : list nat)
    (p : nat) :
  let s := run sched (init ths) in
  Forall fresh ths → Forall (λ th, op_of (pc th) ≠ OpForget) ths →
  signals p (trace s) ≤ 1 ∧
  (p < length (heap s) → Forall (λ th, finished (pc th) = true) (threads s) →
   signals p (trace s) = 1).
Proof.
  intros s Hf Hnf.
  assert (HC : Coh s) by (by apply reach_Coh).
  destruct (reach_signalled ths sched Hf Hnf) as [H0 H1]. fold s in H0, H1.
  destruct (decide (p < length (heap s))) as [Hp|Hp].
  - destruct (coh_owner s HC p Hp) as (e & E & HE & Hex & HcE).
    rewrite (H1 e E p HE Hex HcE). split; [destruct (past_done (pc E)); lia|].
    intros _ Hall. pose proof (Forall_lookup_1 _ _ _ _ Hall HE) as Hfin. cbn in Hfin.
    destruct (pc E); cbn in Hfin, Hex; done.
  - rewrite H0 by lia. split; [lia|]. intros; lia.
Qed.

Lemma record_signalled_once_without_Forget_witness :
  let ths := [call_Do "k" (ibox 1, inil); call_Do "k" (ibox 2, inil)] in
  let s := run (repeat 0 7 ++ repeat 1 4 ++ repeat 0 7 ++ repeat 1 2) (init ths) in
  signals 0 (trace s) ≤ 1 ∧
  (0 < length (heap s) → Forall (λ th, finished (pc th) = true) (threads s) →
   signals 0 (trace s) = 1).
Proof.
  apply (record_signalled_once_without_Forget
           [call_Do "k" (ibox 1, inil); call_Do "k" (ibox 2, inil)]
           (repeat 0 7 ++ repeat 1 4 ++ repeat 0 7 ++ repeat 1 2) 0).
  - fresh_list.
  - no_forget_list.
Defined.



(** The statements from which an invocation cannot come to its end
    without taking the lock. *)
Definition lock_ahead (l : label) : bool :=
  match l with
  | D30 | D46 | D46w | D48 | D50 | C59 | C60 | C81 | C81w | C82 | C84 | F98 => true
  | _ => false
  end.

(** Once an invocation has panicked with the lock, the lock stays taken
    and nobody gets past a [Lock]. *)
Lemma held_forever_step h v s s' :
  Inv s → mu s = Some h → (∃ H, threads s !! h = Some H ∧ panicked H = true) →
  step v s = Some s' →
  mu s' = Some h ∧ threads s' !! h = threads s !! h ∧
  ∀ u x, threads s !! u = Some x → lock_ahead (pc x) = true →
    ∃ x', threads s' !! u = Some x' ∧ lock_ahead (pc x') = true.
Proof.
  intros HI Hmu (H & HH & HpH) Hs. apply step_inv in Hs as (th & Ht & Hpn & Hs).
  assert (Hvh : v ≠ h) by (intros ->; congruence).
  assert (Hncr : crit (pc th) = false).
  { destruct (crit (pc th)) eqn:Hc; [|done].
    apply (inv_thread s HI v th Ht) in Hc. congruence. }
  assert (Hgo : ∀ x s0, s' = upd v x s0 → mu s0 = mu s → threads s0 = threads s →
            (lock_ahead (pc th) = true → lock_ahead (pc x) = true) →
            mu s' = Some h ∧ threads s' !! h = threads s !! h ∧
            ∀ u y, threads s !! u = Some y → lock_ahead (pc y) = true →
              ∃ y', threads s' !! u = Some y' ∧ lock_ahead (pc y') = true).
  { intros x s0 -> Hm Hths Hla. unf. rewrite Hm, Hths. split; [done|].
    split; [by rewrite list_lookup_insert_ne|].
    intros u y Hy Hl. destruct (decide (u = v)) as [->|Hne].
    - exists x. rewrite list_lookup_insert_eq by (by eapply lookup_lt_Some).
      split; [done|]. apply Hla. congruence.
    - exists y. by rewrite list_lookup_insert_ne. }
  destruct (pc th) eqn:E; cbn in Hs, Hncr; try discriminate;
    unfold Do, DoChan, Forget in Hs; rewrite E in Hs;
    unfold lock, wait, call_fn, assign, done_wg, return_result, send_result, close_chan in Hs;
    rewrite ?Hmu in Hs; try discriminate.
  all: repeat match type of Hs with
         | context [match ?x with _ => _ end] => destruct x eqn:?
         end; simplify_eq.
  all: eapply Hgo; [reflexivity|reflexivity|reflexivity|].
  all: cbn [pc goto with_c with_tmp with_ret with_ch with_panic]; rewrite ?E;
    cbn [lock_ahead]; done.
Qed.

Lemma held_forever h sched : ∀ s,
  Inv s → mu s = Some h → (∃ H, threads s !! h = Some H ∧ panicked H = true) →
  mu (run sched s) = Some h ∧ threads (run sched s) !! h = threads s !! h ∧
  ∀ u x, threads s !! u = Some x → lock_ahead (pc x) = true →
    ∃ x', threads (run sched s) !! u = Some x' ∧ lock_ahead (pc x') = true.
Proof.
  induction sched as [|v sched IH]; intros s HI Hmu HH.
  - split_and!; [done..|]. eauto.
  - rewrite run_cons. unfold sched_step. destruct (step v s) as [s'|] eqn:E; [|by apply IH].
    destruct (held_forever_step h v s s' HI Hmu HH E) as (Hmu' & Hh' & Hla).
    destruct (IH s') as (Hmu2 & Hh2 & Hla2); [by eapply Inv_step|done|by rewrite Hh'|].
    split_and!; [done|congruence|].
    intros u x Hx Hl. destruct (Hla u x Hx Hl) as (x' & Hx' & Hl'). eauto.
Qed.

(** X25: a [Forget] that finds a record already signalled by its owner
    (the owner is between its [Done] of line 48 or 82 and its [delete])
    panics at line 101 on the negative counter, inside the critical
    section: the lock is never released, so from then on no invocation that
    still has to take the lock comes to its end, whatever the schedule. *)
Theorem Forget_after_Done_blocks_the_Group (ths : list thread) (sched sched' : list nat)
    (t u : nat) (k : string) (p : nat) (r : call) (x : thread) :
  let s := run sched (init ths) in
  let s1 := run (repeat t 4) s in
  let s2 := run sched' s1 in
  Forall fresh ths →
  threads s !! t = Some (call_Forget k) → mu s = None →
  map_get (m s) k = Some p → heap s !! p = Some r → (wg r ≤ 0)%Z →
  threads s1 !! u = Some x → lock_ahead (pc x) = true →
  mu s2 = Some t ∧
  (∃ F, threads s2 !! t = Some F ∧ pc F = F101 ∧ panicked F = true) ∧
  ∃ x', threads s2 !! u = Some x' ∧ finished (pc x') = false.
Proof.
  intros s s1 s2 Hf Ht Hmu Hm Hr Hw Hu Hl.
  assert (HI1 : Inv s1) by (apply Inv_run; by apply reach_Inv).
  pose proof (Forget_alone_panic t s (call_Forget k) p r Ht eq_refl eq_refl Hmu Hm Hr Hw)
    as Hs1. fold s1 in Hs1.
  assert (Hmu1 : mu s1 = Some t) by (by rewrite Hs1).
  assert (Ht1 : threads s1 !! t = Some (with_panic (goto F101 (with_c p (call_Forget k))))).
  { rewrite Hs1. cbn [threads]. apply list_lookup_insert_eq. by eapply lookup_lt_Some. }
  destruct (held_forever t sched' s1 HI1 Hmu1) as (Hmu2 & Ht2 & Hla); [eauto|].
  fold s2 in Hmu2, Ht2, Hla. split; [done|]. split.
  - eexists. rewrite Ht2, Ht1. by split_and!.
  - destruct (Hla u x Hu Hl) as (x' & Hx' & Hl'). exists x'. split; [done|].
    destruct (pc x'); cbn in Hl' |- *; done.
Qed.

Lemma Forget_after_Done_blocks_the_Group_witness :
  let ths := [call_Do "k" (ibox 1, inil); call_Forget "k"; call_Do "j" (ibox 2, inil)] in
  let s := run (repeat 0 10) (init ths) in
  let s1 := run (repeat 1 4) s in
  let s2 := run (repeat 2 20 ++ repeat 0 5 ++ repeat 1 3) s1 in
  mu s2 = Some 1 ∧
  (∃ F, threads s2 !! 1 = Some F ∧ pc F = F101 ∧ panicked F = true) ∧
  ∃ x', threads s2 !! 2 = Some x' ∧ finished (pc x') = false.
Proof.
  eapply (Forget_after_Done_blocks_the_Group
           [call_Do "k" (ibox 1, inil); call_Forget "k"; call_Do "j" (ibox 2, inil)]
           (repeat 0 10) (repeat 2 20 ++ repeat 0 5 ++ repeat 1 3) 1 2 "k" 0).
  - fresh_list.
  - vm_compute. reflexivity.
  - vm_compute. reflexivity.
  - vm_compute. reflexivity.
  - vm_compute. reflexivity.
  - vm_compute. discriminate.
  - vm_compute. reflexivity.
  - reflexivity.
Defined.

End Singleflight.

Module BloomFilter.
Open Scope Z_scope.

(** ** hash/fnv, 64-bit FNV-1a *)

Definition offset64 : Z := 14695981039346656037.
Definition prime64 : Z := 1099511628211.
Definition uint64 (z : Z) : Z := z mod 2 ^ 64.
(** conversion of a [uint64] to [int] *)
Definition int_of (z : Z) : Z := (z + 2 ^ 63) mod 2 ^ 64 - 2 ^ 63.
(** [byte(i)] *)
Definition byte_of (i : Z) : Z := i mod 256.

(** [h.Reset()] *)
Definition Reset : Z := offset64.
(** [h.Write(data)]: [hash ^= c; hash *= prime64] for every byte *)
Definition Write (h : Z) (data : list Z) : Z :=
  fold_left (λ h c, uint64 (Z.lxor h c * prime64)) data h.
(** [h.Sum64()] *)
Definition Sum64 (h : Z) : Z := h.

(** ** The filter *)

(** [type BloomFilter struct { bitSet []bool; size int; hashFuncs []hash.Hash64 }];
    a hash function is its running state. *)
Record BloomFilter : Type := mkBloom {
  bitSet : list bool;
  size : Z;
  hashFuncs : list Z
}.

(** The body of the loops of [Add] and [Contains] up to the position:
    the new state of hash function [i] and [int(hashValue % uint64(bf.size))];
    [None] is the panic of the division by zero. *)
Definition position (sz : Z) (i : nat) (data : list Z) : option (Z * Z) :=
  let h := Reset in
  let h := Write h data in
  let h := Write h [byte_of (Z.of_nat i)] in
  let hashValue := Sum64 h in
  if uint64 sz =? 0 then None
  else Some (h, int_of (hashValue mod uint64 sz)).

(** [bf.bitSet[position] = true]; [None] is the index out of range. *)
Definition set_bit (bits : list bool) (pos : Z) : option (list bool) :=
  if (0 <=? pos) && (pos <? Z.of_nat (length bits))
  then Some (<[Z.to_nat pos:=true]> bits) else None.

(** [bf.bitSet[position]] *)
Definition get_bit (bits : list bool) (pos : Z) : option bool :=
  if (0 <=? pos) && (pos <? Z.of_nat (length bits))
  then bits !! Z.to_nat pos else None.

(** [for i, h := range bf.hashFuncs] of [Add], from index [i] on: [hs] are
    the functions still to visit, [done] the ones visited. *)
Fixpoint Add_loop (sz : Z) (data : list Z) (i : nat) (hs done : list Z)
    (bits : list bool) : option (list bool * list Z) :=
  match hs with
  | [] => Some (bits, done)
  | _ :: hs =>
      match position sz i data with
      | None => None
      | Some (h, pos) =>
          match set_bit bits pos with
          | None => None
          | Some bits => Add_loop sz data (S i) hs (done ++ [h]) bits
          end
      end
  end.

(** [func (bf *BloomFilter) Add(data []byte)] *)
Definition Add (data : list Z) (bf : BloomFilter) : option BloomFilter :=
  match Add_loop (size bf) data 0 (hashFuncs bf) [] (bitSet bf) with
  | None => None
  | Some (bits, hs) => Some (mkBloom bits (size bf) hs)
  end.

(** [for i, h := range bf.hashFuncs] of [Contains]; the early [return false]
    leaves the remaining functions as they were. *)
Fixpoint Contains_loop (sz : Z) (data : list Z) (i : nat) (hs done : list Z)
    (bits : list bool) : option (bool * list Z) :=
  match hs with
  | [] => Some (true, done)
  | _ :: hs' =>
      match position sz i data with
      | None => None
      | Some (h, pos) =>
          match get_bit bits pos with
          | None => None
          | Some false => Some (false, done ++ h :: hs')
          | Some true => Contains_loop sz data (S i) hs' (done ++ [h]) bits
          end
      end
  end.

(** [func (bf *BloomFilter) Contains(data []byte) bool]; the filter comes
    back with the states of its hash functions. *)
Definition Contains (data : list Z) (bf : BloomFilter) : option (bool * BloomFilter) :=
  match Contains_loop (size bf) data 0 (hashFuncs bf) [] (bitSet bf) with
  | None => None
  | Some (b, hs) => Some (b, mkBloom (bitSet bf) (size bf) hs)
  end.

(** [func (bf *BloomFilter) Clear()] *)
Definition Clear (bf : BloomFilter) : BloomFilter :=
  mkBloom (map (λ _, false) (bitSet bf)) (size bf) (hashFuncs bf).

Section Constructor.
(** [optimalSize] and [optimalHashCount] compute in [float64]
    ([math.Log], [math.Ceil]); they are taken as given, their results
    being Go [int]s. *)
Context {float64 : Type}.
Variable optimalSize : Z → float64 → Z.
Variable optimalHashCount : Z → Z → Z.

(** [make([]T, n)] panics on a negative length. *)
Definition make {A} (x : A) (n : Z) : option (list A) :=
  if n <? 0 then None else Some (repeat x (Z.to_nat n)).

(** [func NewBloomFilter(n int, p float64) *BloomFilter] *)
Definition NewBloomFilter (n : Z) (p : float64) : option BloomFilter :=
  let m := int_of (optimalSize n p) in
  let k := int_of (optimalHashCount n m) in
  match make false m with
  | None => None
  | Some bitSet =>
      match make offset64 k with
      | None => None
      | Some hashFuncs => Some (mkBloom bitSet m hashFuncs)
      end
  end.
End Constructor.

(** ** Sequences of operations *)

Inductive op : Type :=
| OAdd (data : list Z)
| OContains (data : list Z)
| OClear.

Definition apply_op (o : op) (bf : BloomFilter) : option BloomFilter :=
  match o with
  | OAdd d => Add d bf
  | OContains d => snd <$> Contains d bf
  | OClear => Some (Clear bf)
  end.

Fixpoint run_ops (ops : list op) (bf : BloomFilter) : option BloomFilter :=
  match ops with
  | [] => Some bf
  | o :: ops =>
      match apply_op o bf with
      | None => None
      | Some bf => run_ops ops bf
      end
  end.

(** The elements passed to [Add] since the most recent [Clear]. *)
Fixpoint added (acc : list (list Z)) (ops : list op) : list (list Z) :=
  match ops with
  | [] => acc
  | OAdd d :: ops => added (d :: acc) ops
  | OContains _ :: ops => added acc ops
  | OClear :: ops => added [] ops
  end.

Example fnv_a : Write Reset [97] = 12638187200555641996.
Proof. reflexivity. Qed.

(** ** No false negative *)

(** A filter as [NewBloomFilter] builds it: [size] is the length of the
    bit set and an [int]. *)
Definition wf (bf : BloomFilter) : Prop :=
  0 ≤ size bf < 2 ^ 63 ∧ Z.of_nat (length (bitSet bf)) = size bf.

Lemma position_range sz i d h pos :
  0 ≤ sz < 2 ^ 63 → position sz i d = Some (h, pos) → 0 ≤ pos < sz.
Proof.
  intros Hsz. unfold position, uint64, int_of.
  rewrite (Z.mod_small sz) by lia.
  destruct (sz =? 0) eqn:E; [done|]. apply Z.eqb_neq in E.
  intros [= _ <-].
  match goal with
  | |- context [?x mod sz] => pose proof (Z.mod_pos_bound x sz ltac:(lia)) as Hb
  end.
  rewrite (Z.mod_small (_ + 2 ^ 63)) by lia. lia.
Qed.

Lemma position_total sz i d : 0 < sz < 2 ^ 63 → is_Some (position sz i d).
Proof.
  intros Hsz. unfold position, uint64. rewrite (Z.mod_small sz) by lia.
  destruct (sz =? 0) eqn:E; [apply Z.eqb_eq in E; lia|]. eauto.
Qed.

Lemma set_bit_Some bits pos bits' :
  set_bit bits pos = Some bits' →
  0 ≤ pos < Z.of_nat (length bits) ∧ bits' = <[Z.to_nat pos:=true]> bits.
Proof.
  unfold set_bit. destruct (0 <=? pos) eqn:E1, (pos <? _) eqn:E2; try done.
  intros [= <-]. apply Z.leb_le in E1. apply Z.ltb_lt in E2. done.
Qed.

Lemma get_bit_in bits pos :
  0 ≤ pos < Z.of_nat (length bits) → get_bit bits pos = bits !! Z.to_nat pos.
Proof.
  intros H. unfold get_bit.
  by rewrite (proj2 (Z.leb_le _ _)), (proj2 (Z.ltb_lt _ _)) by lia.
Qed.

Lemma get_bit_true bits pos :
  get_bit bits pos = Some true ↔
  0 ≤ pos < Z.of_nat (length bits) ∧ bits !! Z.to_nat pos = Some true.
Proof.
  unfold get_bit. destruct (0 <=? pos) eqn:E1, (pos <? _) eqn:E2; cbn.
  - apply Z.leb_le in E1. apply Z.ltb_lt in E2. naive_solver.
  - apply Z.ltb_ge in E2. split; [done|]. lia.
  - apply Z.leb_gt in E1. split; [done|]. lia.
  - apply Z.leb_gt in E1. split; [done|]. lia.
Qed.

(** All the positions of [d] for the hash functions [i .. i + n - 1] are set. *)
Definition marked (sz : Z) (bits : list bool) (d : list Z) (i n : nat) : Prop :=
  ∀ j, (i ≤ j < i + n)%nat →
    ∃ h pos, position sz j d = Some (h, pos) ∧ get_bit bits pos = Some true.

Lemma set_bit_keeps bits pos bits' q :
  set_bit bits pos = Some bits' → get_bit bits q = Some true → get_bit bits' q = Some true.
Proof.
  intros [Hr ->]%set_bit_Some. rewrite !get_bit_true, length_insert.
  intros [Hq Hb]. split; [done|].
  destruct (decide (Z.to_nat pos = Z.to_nat q)) as [->|Hne].
  - apply list_lookup_insert_eq. lia.
  - by rewrite list_lookup_insert_ne.
Qed.

Lemma Add_loop_spec sz d hs : ∀ i done bits bits' hs',
  Add_loop sz d i hs done bits = Some (bits', hs') →
  length bits' = length bits ∧
  length hs' = (length done + length hs)%nat ∧
  (∀ q, get_bit bits q = Some true → get_bit bits' q = Some true) ∧
  marked sz bits' d i (length hs).
Proof.
  induction hs as [|h0 hs IH]; intros i done bits bits' hs' H; cbn in H.
  - simplify_eq. split_and!; [done|cbn; lia|done|]. intros j Hj. cbn in Hj. lia.
  - destruct (position sz i d) as [[h pos]|] eqn:Hpos; [|done].
    destruct (set_bit bits pos) as [bits1|] eqn:Hset; [|done].
    destruct (IH _ _ _ _ _ H) as (Hlen & Hhs & Hkeep & Hm).
    pose proof (set_bit_Some _ _ _ Hset) as [Hr ->].
    rewrite length_insert in Hlen. rewrite length_app in Hhs. cbn in *.
    split_and!; [done|lia| |].
    + intros q Hq. apply Hkeep. by eapply set_bit_keeps.
    + intros j Hj. destruct (decide (j = i)) as [->|Hne].
      * exists h, pos. split; [done|]. apply Hkeep.
        rewrite get_bit_true, length_insert. split; [done|].
        apply list_lookup_insert_eq. lia.
      * apply Hm. lia.
Qed.

Lemma Add_loop_total sz d hs : ∀ i done bits,
  0 < sz < 2 ^ 63 → Z.of_nat (length bits) = sz →
  is_Some (Add_loop sz d i hs done bits).
Proof.
  induction hs as [|h0 hs IH]; intros i done bits Hsz Hlen; cbn; [eauto|].
  destruct (position_total sz i d Hsz) as [[h pos] Hpos]. rewrite Hpos.
  pose proof (position_range sz i d h pos ltac:(lia) Hpos) as Hr.
  unfold set_bit. rewrite (proj2 (Z.leb_le _ _)), (proj2 (Z.ltb_lt _ _)) by lia. cbn.
  apply IH; [done|]. by rewrite length_insert.
Qed.

Lemma Contains_loop_marked sz d bits hs : ∀ i done,
  marked sz bits d i (length hs) →
  ∃ hs', Contains_loop sz d i hs done bits = Some (true, hs') ∧
         length hs' = (length done + length hs)%nat.
Proof.
  induction hs as [|h0 hs IH]; intros i done Hm; cbn.
  - exists done. split; [done|lia].
  - destruct (Hm i) as (h & pos & Hpos & Hget); [cbn; lia|].
    rewrite Hpos, Hget.
    destruct (IH (S i) (done ++ [h])) as (hs' & -> & Hlen).
    { intros j Hj. apply Hm. cbn. lia. }
    exists hs'. split; [done|]. rewrite length_app in Hlen. cbn in *. lia.
Qed.

Lemma Contains_loop_total sz d bits hs : ∀ i done,
  0 < sz < 2 ^ 63 → Z.of_nat (length bits) = sz →
  ∃ b hs', Contains_loop sz d i hs done bits = Some (b, hs') ∧
           length hs' = (length done + length hs)%nat.
Proof.
  induction hs as [|h0 hs IH]; intros i done Hsz Hlen; cbn.
  - exists true, done. split; [done|lia].
  - destruct (position_total sz i d Hsz) as [[h pos] Hpos]. rewrite Hpos.
    pose proof (position_range sz i d h pos ltac:(lia) Hpos) as Hr.
    rewrite get_bit_in by lia.
    destruct (lookup_lt_is_Some_2 bits (Z.to_nat pos) ltac:(lia)) as [[|] Hb]; rewrite Hb.
    + destruct (IH (S i) (done ++ [h]) Hsz Hlen) as (b & hs' & -> & Hl).
      exists b, hs'. split; [done|]. rewrite length_app in Hl. cbn in *. lia.
    + exists false, (done ++ h :: hs). split; [done|]. rewrite length_app. cbn. lia.
Qed.

(** What every operation keeps: the shape of the filter, the number of
    hash functions, and the marks of the elements added since the last
    [Clear]. *)
Definition keeps (k : nat) (acc : list (list Z)) (bf : BloomFilter) : Prop :=
  wf bf ∧ length (hashFuncs bf) = k ∧
  ∀ d, d ∈ acc → marked (size bf) (bitSet bf) d 0 k.

Lemma keeps_Add k acc d bf bf' :
  keeps k acc bf → Add d bf = Some bf' → keeps k (d :: acc) bf'.
Proof.
  intros ([Hsz Hlen] & Hk & Hacc). unfold Add.
  destruct (Add_loop _ _ _ _ _ _) as [[bits hs]|] eqn:E; [|done]. intros [= <-].
  destruct (Add_loop_spec _ _ _ _ _ _ _ _ E) as (Hl & Hhs & Hkeep & Hm).
  split; [|split]; cbn.
  - split; cbn; [done|by rewrite Hl].
  - cbn in Hhs. lia.
  - intros d' [->|Hd]%elem_of_cons.
    + by rewrite <-Hk.
    + intros j Hj. destruct (Hacc d' Hd j Hj) as (h & pos & Hp & Hg). eauto.
Qed.

Lemma keeps_Contains k acc d bf b bf' :
  keeps k acc bf → Contains d bf = Some (b, bf') → keeps k acc bf'.
Proof.
  intros ([Hsz Hlen] & Hk & Hacc). unfold Contains.
  destruct (Contains_loop _ _ _ _ _ _) as [[b0 hs]|] eqn:E; [|done]. intros [= <- <-].
  split; [done|split]; cbn; [|done].
  destruct (decide (size bf = 0)) as [Hz|Hnz].
  - destruct (hashFuncs bf) as [|h0 hs0] eqn:Ehs; cbn in E; [by simplify_eq|].
    unfold position in E. rewrite Hz in E. done.
  - destruct (Contains_loop_total (size bf) d (bitSet bf) (hashFuncs bf) 0 [])
      as (b1 & hs1 & E1 & Hl1); [lia|done|].
    rewrite E in E1. simplify_eq. cbn in Hl1. lia.
Qed.

Lemma keeps_Clear k acc bf : keeps k acc bf → keeps k [] (Clear bf).
Proof.
  intros ([Hsz Hlen] & Hk & _). split; [|split]; cbn; [|done|].
  - split; cbn; [done|by rewrite length_map].
  - intros d Hd. by apply elem_of_nil in Hd.
Qed.

Lemma keeps_run ops : ∀ k acc bf bf',
  keeps k acc bf → run_ops ops bf = Some bf' → keeps k (added acc ops) bf'.
Proof.
  induction ops as [|o ops IH]; intros k acc bf bf' Hk H; cbn in *; [by simplify_eq|].
  destruct (apply_op o bf) as [bf1|] eqn:E; [|done].
  destruct o as [d|d|]; cbn in E.
  - eapply IH; [|exact H]. by eapply keeps_Add.
  - destruct (Contains d bf) as [[b bf2]|] eqn:Ec; [|done]. cbn in E. simplify_eq.
    eapply IH; [|exact H]. by eapply keeps_Contains.
  - simplify_eq. eapply IH; [|exact H]. by eapply keeps_Clear.
Qed.

Lemma run_total ops : ∀ k acc bf,
  keeps k acc bf → 0 < size bf → is_Some (run_ops ops bf).
Proof.
  induction ops as [|o ops IH]; intros k acc bf Hk Hpos; cbn; [eauto|].
  pose proof Hk as ([Hsz Hlen] & _).
  destruct o as [d|d|]; cbn.
  - destruct (Add_loop_total (size bf) d (hashFuncs bf) 0 [] (bitSet bf))
      as [[bits hs] E]; [lia|done|].
    unfold Add. rewrite E.
    eapply (IH k (d :: acc)); [|done]. eapply keeps_Add; [done|]. unfold Add. by rewrite E.
  - destruct (Contains_loop_total (size bf) d (bitSet bf) (hashFuncs bf) 0 [])
      as (b & hs & E & _); [lia|done|].
    unfold Contains. rewrite E. cbn.
    eapply (IH k acc); [|done]. eapply keeps_Contains; [done|]. unfold Contains. by rewrite E.
  - eapply (IH k []); [|done]. by eapply keeps_Clear.
Qed.

Lemma keeps_New {float64} (optimalSize : Z → float64 → Z) (optimalHashCount : Z → Z → Z)
    n p bf :
  NewBloomFilter optimalSize optimalHashCount n p = Some bf →
  keeps (length (hashFuncs bf)) [] bf.
Proof.
  unfold NewBloomFilter, make.
  set (m := int_of (optimalSize n p)).
  destruct (m <? 0) eqn:Em; [done|]. apply Z.ltb_ge in Em.
  destruct (int_of _ <? 0); [done|]. intros [= <-]. cbn.
  assert (m < 2 ^ 63).
  { unfold m, int_of. pose proof (Z.mod_pos_bound (optimalSize n p + 2 ^ 63) (2 ^ 64)). lia. }
  split; [|split]; cbn; [|done|].
  - split; cbn; [lia|]. rewrite repeat_length. lia.
  - intros d Hd. by apply elem_of_nil in Hd.
Qed.

(** C10: after any sequence of [Add], [Contains] and [Clear] on a filter
    built by [NewBloomFilter], [Contains] returns [true] for every element
    passed to [Add] since the construction or the most recent [Clear]; and
    on a filter of positive size no operation panics. *)
Theorem no_false_negative {float64} (optimalSize : Z → float64 → Z)
    (optimalHashCount : Z → Z → Z) (n : Z) (p : float64)
    (bf bf' : BloomFilter) (ops : list op) (d : list Z) :
  NewBloomFilter optimalSize optimalHashCount n p = Some bf →
  run_ops ops bf = Some bf' →
  d ∈ added [] ops →
  (∃ bf'', Contains d bf' = Some (true, bf'')) ∧
  (0 < size bf → ∀ ops', is_Some (run_ops ops' bf)).
Proof.
  intros Hnew Hrun Hd. pose proof (keeps_New _ _ _ _ _ Hnew) as Hk0.
  split.
  - destruct (keeps_run ops _ _ _ _ Hk0 Hrun) as (_ & Hk & Hacc).
    destruct (Contains_loop_marked (size bf') d (bitSet bf') (hashFuncs bf') 0 [])
      as (hs' & E & _).
    { rewrite Hk. by apply Hacc. }
    unfold Contains. rewrite E. eauto.
  - intros Hpos ops'. by eapply run_total.
Qed.

Lemma no_false_negative_witness :
  let bf := mkBloom (repeat false 16) 16 (repeat offset64 3) in
  let ops := [OAdd [104; 105]; OContains [1]; OClear; OAdd [1; 2; 3]; OAdd [7]] in
  ∃ bf', run_ops ops bf = Some bf' ∧
    (∃ bf'', Contains [1; 2; 3] bf' = Some (true, bf'')) ∧
    (0 < size bf → ∀ ops', is_Some (run_ops ops' bf)).
Proof.
  eexists. split; [vm_compute; reflexivity|].
  apply (no_false_negative (float64:=unit) (λ _ _, 16) (λ _ _, 3) 100 tt
           (mkBloom (repeat false 16) 16 (repeat offset64 3)) _
           [OAdd [104; 105]; OContains [1]; OClear; OAdd [1; 2; 3]; OAdd [7]] [1; 2; 3]).
  - vm_compute. reflexivity.
  - vm_compute. reflexivity.
  - cbn. apply elem_of_cons. right. apply elem_of_cons. by left.
Defined.

(** ** The accessors, and what the bit set holds exactly *)

(** [func (bf *BloomFilter) Size() int] *)
Definition Size (bf : BloomFilter) : Z := size bf.

(** [func (bf *BloomFilter) HashCount() int] *)
Definition HashCount (bf : BloomFilter) : Z := Z.of_nat (length (hashFuncs bf)).

(** Position [q] is the position of one of the elements [acc] for one of
    the [k] hash functions. *)
Definition covered (sz : Z) (k : nat) (acc : list (list Z)) (q : Z) : Prop :=
  ∃ d j h, d ∈ acc ∧ (j < k)%nat ∧ position sz j d = Some (h, q).

(** Only covered positions are set. *)
Definition exact (k : nat) (acc : list (list Z)) (bf : BloomFilter) : Prop :=
  ∀ q, get_bit (bitSet bf) q = Some true → covered (size bf) k acc q.

Fixpoint no_Clear (ops : list op) : bool :=
  match ops with
  | [] => true
  | OClear :: _ => false
  | _ :: ops => no_Clear ops
  end.

Lemma covered_mono sz k acc acc' q :
  (∀ d, d ∈ acc → d ∈ acc') → covered sz k acc q → covered sz k acc' q.
Proof. intros H (d & j & h & Hd & Hj & Hp). exists d, j, h. auto. Qed.

Lemma Add_loop_only sz d hs : ∀ i done bits bits' hs' q,
  Add_loop sz d i hs done bits = Some (bits', hs') →
  get_bit bits' q = Some true →
  get_bit bits q = Some true ∨
  ∃ j h, (i ≤ j < i + length hs)%nat ∧ position sz j d = Some (h, q).
Proof.
  induction hs as [|h0 hs IH]; intros i done bits bits' hs' q H Hq; cbn in H.
  - simplify_eq. by left.
  - destruct (position sz i d) as [[h pos]|] eqn:Hpos; [|done].
    destruct (set_bit bits pos) as [bits1|] eqn:Hset; [|done].
    destruct (IH _ _ _ _ _ q H Hq) as [Hb|(j & h' & Hj & Hp)].
    + pose proof (set_bit_Some _ _ _ Hset) as [Hr ->].
      apply get_bit_true in Hb as [Hq1 Hb]. rewrite length_insert in Hq1.
      destruct (decide (Z.to_nat pos = Z.to_nat q)) as [Heq|Hne].
      * right. exists i, h. split; [cbn; lia|].
        assert (pos = q) as <- by lia. done.
      * left. apply get_bit_true. split; [done|].
        by rewrite list_lookup_insert_ne in Hb.
    + right. exists j, h'. split; [cbn; lia|done].
Qed.

Lemma Contains_loop_true sz d bits hs : ∀ i done hs',
  Contains_loop sz d i hs done bits = Some (true, hs') →
  marked sz bits d i (length hs).
Proof.
  induction hs as [|h0 hs IH]; intros i done hs' H j Hj; cbn in *; [lia|].
  destruct (position sz i d) as [[h pos]|] eqn:Hpos; [|done].
  destruct (get_bit bits pos) as [[|]|] eqn:Hget; try done.
  destruct (decide (j = i)) as [->|Hne]; [eauto|].
  eapply IH; [exact H|lia].
Qed.

Lemma Contains_loop_length sz d bits hs : ∀ i done b hs',
  Contains_loop sz d i hs done bits = Some (b, hs') →
  length hs' = (length done + length hs)%nat.
Proof.
  induction hs as [|h0 hs IH]; intros i done b hs' H; cbn in *.
  - simplify_eq. lia.
  - destruct (position sz i d) as [[h pos]|] eqn:Hpos; [|done].
    destruct (get_bit bits pos) as [[|]|] eqn:Hget; try done.
    + apply IH in H. rewrite length_app in H. cbn in H. lia.
    + simplify_eq. rewrite length_app. cbn. lia.
Qed.

Lemma apply_op_shape o bf bf' :
  apply_op o bf = Some bf' →
  size bf' = size bf ∧ length (hashFuncs bf') = length (hashFuncs bf) ∧
  length (bitSet bf') = length (bitSet bf).
Proof.
  destruct o as [d|d|]; cbn.
  - unfold Add. destruct (Add_loop _ _ _ _ _ _) as [[bits hs]|] eqn:E; [|done].
    intros [= <-]. cbn. destruct (Add_loop_spec _ _ _ _ _ _ _ _ E) as (Hl & Hhs & _). done.
  - unfold Contains. destruct (Contains_loop _ _ _ _ _ _) as [[b hs]|] eqn:E; [|done].
    cbn. intros [= <-]. cbn. by apply Contains_loop_length in E.
  - intros [= <-]. cbn. by rewrite length_map.
Qed.

Lemma run_ops_shape ops : ∀ bf bf',
  run_ops ops bf = Some bf' →
  size bf' = size bf ∧ length (hashFuncs bf') = length (hashFuncs bf) ∧
  length (bitSet bf') = length (bitSet bf).
Proof.
  induction ops as [|o ops IH]; intros bf bf' H; cbn in H; [by simplify_eq|].
  destruct (apply_op o bf) as [bf1|] eqn:E; [|done].
  destruct (IH _ _ H) as (-> & -> & ->). exact (apply_op_shape _ _ _ E).
Qed.

Lemma exact_Add k acc d bf bf' :
  length (hashFuncs bf) = k → exact k acc bf → Add d bf = Some bf' → exact k (d :: acc) bf'.
Proof.
  intros Hk He. unfold Add.
  destruct (Add_loop _ _ _ _ _ _) as [[bits hs]|] eqn:E; [|done]. intros [= <-].
  intros q Hq. cbn in *.
  destruct (Add_loop_only _ _ _ _ _ _ _ _ q E Hq) as [Hb|(j & h & Hj & Hp)].
  - eapply covered_mono; [|by apply He]. intros d' Hd'. by apply elem_of_cons; right.
  - exists d, j, h. split; [by apply elem_of_cons; left|]. split; [lia|done].
Qed.

Lemma exact_Clear k acc bf : exact k acc (Clear bf).
Proof.
  intros q Hq. apply get_bit_true in Hq as [_ Hq]. cbn in Hq.
  rewrite list_lookup_fmap in Hq. by destruct (bitSet bf !! Z.to_nat q).
Qed.

Lemma exact_run ops : ∀ k acc bf bf',
  keeps k acc bf → exact k acc bf → run_ops ops bf = Some bf' →
  exact k (added acc ops) bf'.
Proof.
  induction ops as [|o ops IH]; intros k acc bf bf' Hk He H; cbn in *; [by simplify_eq|].
  destruct (apply_op o bf) as [bf1|] eqn:E; [|done].
  destruct o as [d|d|]; cbn in E.
  - eapply IH; [by eapply keeps_Add| |exact H].
    eapply exact_Add; [|done|done]. by destruct Hk as (_ & ? & _).
  - destruct (Contains d bf) as [[b bf2]|] eqn:Ec; [|done]. cbn in E. simplify_eq.
    eapply IH; [by eapply keeps_Contains| |exact H].
    unfold Contains in Ec. destruct (Contains_loop _ _ _ _ _ _) as [[b0 hs]|]; [|done].
    by simplify_eq.
  - simplify_eq. eapply IH; [by eapply keeps_Clear| |exact H]. apply exact_Clear.
Qed.

Lemma exact_New {float64} (optimalSize : Z → float64 → Z) (optimalHashCount : Z → Z → Z)
    n p bf k acc :
  NewBloomFilter optimalSize optimalHashCount n p = Some bf → exact k acc bf.
Proof.
  unfold NewBloomFilter, make.
  destruct (int_of (optimalSize n p) <? 0); [done|].
  destruct (int_of _ <? 0); [done|]. intros [= <-] q Hq.
  apply get_bit_true in Hq as [_ Hq]. cbn in Hq.
  apply list_elem_of_lookup_2, list_elem_of_In, repeat_spec in Hq. done.
Qed.

(** In a filter reached from [NewBloomFilter], the bits set are exactly
    the covered positions. *)
Lemma bit_covered {float64} (optimalSize : Z → float64 → Z)
    (optimalHashCount : Z → Z → Z) (n : Z) (p : float64)
    (bf bf' : BloomFilter) (ops : list op) (q : Z) :
  NewBloomFilter optimalSize optimalHashCount n p = Some bf →
  run_ops ops bf = Some bf' →
  get_bit (bitSet bf') q = Some true ↔
  covered (size bf) (length (hashFuncs bf)) (added [] ops) q.
Proof.
  intros Hnew Hrun. pose proof (keeps_New _ _ _ _ _ Hnew) as Hk0.
  pose proof (keeps_run ops _ _ _ _ Hk0 Hrun) as (_ & Hlen & Hacc).
  pose proof (exact_run ops _ _ _ _ Hk0 (exact_New _ _ _ _ _ _ _ Hnew) Hrun) as He1.
  pose proof (run_ops_shape _ _ _ Hrun) as (Hsz & _ & _).
  rewrite <-Hsz. split; [apply He1|].
  intros (d & j & h & Hd & Hj & Hp).
  destruct (Hacc d Hd j) as (h2 & q2 & Hp2 & Hq2); [lia|]. congruence.
Qed.

(** Two filters reached from the same new filter agree on every bit when
    the same elements were added to them. *)
Lemma bits_determined {float64} (optimalSize : Z → float64 → Z)
    (optimalHashCount : Z → Z → Z) (n : Z) (p : float64)
    (bf bf1 bf2 : BloomFilter) (ops1 ops2 : list op) (i : nat) (x y : bool) :
  NewBloomFilter optimalSize optimalHashCount n p = Some bf →
  run_ops ops1 bf = Some bf1 →
  run_ops ops2 bf = Some bf2 →
  (∀ d, d ∈ added [] ops1 ↔ d ∈ added [] ops2) →
  bitSet bf1 !! i = Some x → bitSet bf2 !! i = Some y → x = y.
Proof.
  intros Hnew H1 H2 Hset Hx Hy.
  assert (Hb : ∀ bf' ops b, run_ops ops bf = Some bf' → bitSet bf' !! i = Some b →
            b = true ↔ covered (size bf) (length (hashFuncs bf)) (added [] ops) (Z.of_nat i)).
  { intros bf' ops b Hrun Hb.
    rewrite <-(bit_covered _ _ _ _ _ _ _ _ Hnew Hrun), get_bit_true, Nat2Z.id, Hb.
    apply lookup_lt_Some in Hb. split; [intros ->; split; [lia|done]|by intros [_ [= ->]]]. }
  pose proof (Hb _ _ _ H1 Hx) as Bx. pose proof (Hb _ _ _ H2 Hy) as By.
  assert (Hcov : covered (size bf) (length (hashFuncs bf)) (added [] ops1) (Z.of_nat i) ↔
                 covered (size bf) (length (hashFuncs bf)) (added [] ops2) (Z.of_nat i)).
  { split; apply covered_mono; intros d; apply Hset. }
  destruct x, y; try done.
  - by pose proof (proj2 By (proj1 Hcov (proj1 Bx eq_refl))).
  - by pose proof (proj2 Bx (proj2 Hcov (proj1 By eq_refl))).
Qed.

Lemma hashFuncs_nil_run ops : ∀ bf,
  hashFuncs bf = [] → (∀ q, get_bit (bitSet bf) q ≠ Some true) →
  ∃ bf', run_ops ops bf = Some bf' ∧ hashFuncs bf' = [] ∧
         ∀ q, get_bit (bitSet bf') q ≠ Some true.
Proof.
  induction ops as [|o ops IH]; intros bf Hh Hb; cbn; [eauto|].
  destruct o as [d|d|]; cbn.
  - unfold Add. rewrite Hh. cbn. apply IH; done.
  - unfold Contains. rewrite Hh. cbn. apply IH; done.
  - apply IH; [done|]. intros q Hq. apply get_bit_true in Hq as [_ Hq]. cbn in Hq.
    rewrite list_lookup_fmap in Hq. by destruct (bitSet bf !! Z.to_nat q).
Qed.

Lemma apply_op_keeps_bits o bf bf' q :
  apply_op o bf = Some bf' → o ≠ OClear →
  get_bit (bitSet bf) q = Some true → get_bit (bitSet bf') q = Some true.
Proof.
  destruct o as [d|d|]; cbn; [| |done].
  - unfold Add. destruct (Add_loop _ _ _ _ _ _) as [[bits hs]|] eqn:E; [|done].
    intros [= <-] _. cbn. destruct (Add_loop_spec _ _ _ _ _ _ _ _ E) as (_ & _ & Hkeep & _).
    apply Hkeep.
  - unfold Contains. destruct (Contains_loop _ _ _ _ _ _) as [[b hs]|] eqn:E; [|done].
    cbn. by intros [= <-] _.
Qed.

(** X1: [Contains] answers [true] exactly when every position of [d] is
    the position of some element added since the construction or the last
    [Clear]: a false positive is a collision on every hash function. *)
Theorem Contains_iff_positions_covered {float64} (optimalSize : Z → float64 → Z)
    (optimalHashCount : Z → Z → Z) (n : Z) (p : float64)
    (bf bf' bf'' : BloomFilter) (ops : list op) (d : list Z) (b : bool) :
  NewBloomFilter optimalSize optimalHashCount n p = Some bf →
  run_ops ops bf = Some bf' →
  Contains d bf' = Some (b, bf'') →
  (b = true ↔
   ∀ j, (j < length (hashFuncs bf))%nat →
     ∃ h q, position (size bf) j d = Some (h, q) ∧
            covered (size bf) (length (hashFuncs bf)) (added [] ops) q).
Proof.
  intros Hnew Hrun Hc. pose proof (keeps_New _ _ _ _ _ Hnew) as Hk0.
  pose proof (keeps_run ops _ _ _ _ Hk0 Hrun) as Hk1.
  pose proof (exact_run ops _ _ _ _ Hk0 (exact_New _ _ _ _ _ _ _ Hnew) Hrun) as He1.
  pose proof (run_ops_shape _ _ _ Hrun) as (Hsz & _ & _).
  destruct Hk1 as (Hwf & Hlen & Hacc). rewrite <-Hsz.
  unfold Contains in Hc.
  destruct (Contains_loop _ _ _ _ _ _) as [[b0 hs]|] eqn:E; [|done]. simplify_eq.
  split.
  - intros ->. intros j Hj.
    destruct (Contains_loop_true _ _ _ _ _ _ _ E j) as (h & q & Hp & Hq); [lia|].
    exists h, q. split; [done|]. by apply He1.
  - intros Hall.
    destruct (Contains_loop_marked (size bf') d (bitSet bf') (hashFuncs bf') 0 [])
      as (hs' & E' & _); [|congruence].
    intros j Hj. destruct (Hall j) as (h & q & Hp & d' & j' & h' & Hd' & Hj' & Hp'); [lia|].
    exists h, q. split; [done|].
    destruct (Hacc d' Hd' j') as (h2 & q2 & Hp2 & Hq2); [lia|]. congruence.
Qed.

Lemma Contains_iff_positions_covered_witness :
  let bf := mkBloom (repeat false 16) 16 (repeat offset64 3) in
  let ops := [OAdd [104; 105]; OAdd [1; 2; 3]] in
  true = true ↔
  ∀ j, (j < length (hashFuncs bf))%nat →
    ∃ h q, position (size bf) j [6] = Some (h, q) ∧
           covered (size bf) (length (hashFuncs bf)) (added [] ops) q.
Proof.
  eapply (Contains_iff_positions_covered (float64:=unit) (λ _ _, 16) (λ _ _, 3) 100 tt
           (mkBloom (repeat false 16) 16 (repeat offset64 3)) _ _
           [OAdd [104; 105]; OAdd [1; 2; 3]] [6] true).
  - vm_compute. reflexivity.
  - vm_compute. reflexivity.
  - vm_compute. reflexivity.
Defined.

(** X2: a filter to which nothing was added since its construction or its
    last [Clear] reports no element at all, provided it has at least one bit
    and one hash function. *)
Theorem Contains_nothing_added {float64} (optimalSize : Z → float64 → Z)
    (optimalHashCount : Z → Z → Z) (n : Z) (p : float64)
    (bf bf' : BloomFilter) (ops : list op) (d : list Z) :
  NewBloomFilter optimalSize optimalHashCount n p = Some bf →
  run_ops ops bf = Some bf' →
  added [] ops = [] →
  0 < Size bf → 0 < HashCount bf →
  ∃ bf'', Contains d bf' = Some (false, bf'').
Proof.
  intros Hnew Hrun Hadd Hsz Hk. unfold Size, HashCount in *.
  pose proof (keeps_New _ _ _ _ _ Hnew) as Hk0.
  pose proof (keeps_run ops _ _ _ _ Hk0 Hrun) as ([Hr Hlen] & Hk1 & _).
  pose proof (run_ops_shape _ _ _ Hrun) as (Hs & _ & _).
  destruct (Contains_loop_total (size bf') d (bitSet bf') (hashFuncs bf') 0 [])
    as (b & hs & E & _); [lia|done|].
  assert (Hc : Contains d bf' = Some (b, mkBloom (bitSet bf') (size bf') hs)).
  { unfold Contains. by rewrite E. }
  destruct b; [|eauto]. exfalso.
  destruct (hashFuncs bf') as [|h0 hs0] eqn:Eh; [cbn in Hk1; lia|].
  destruct (Contains_loop_true _ _ _ _ _ _ _ E 0%nat) as (h & q & _ & Hq); [cbn; lia|].
  apply (bit_covered _ _ _ _ _ _ _ _ Hnew Hrun) in Hq as (d' & j' & h' & Hd' & _).
  rewrite Hadd in Hd'. by apply elem_of_nil in Hd'.
Qed.

Lemma Contains_nothing_added_witness :
  let bf := mkBloom (repeat false 16) 16 (repeat offset64 3) in
  ∃ bf', run_ops [OAdd [1; 2; 3]; OClear; OContains [7]] bf = Some bf' ∧
         ∃ bf'', Contains [1; 2; 3] bf' = Some (false, bf'').
Proof.
  eexists. split; [vm_compute; reflexivity|].
  apply (Contains_nothing_added (float64:=unit) (λ _ _, 16) (λ _ _, 3) 100 tt
           (mkBloom (repeat false 16) 16 (repeat offset64 3)) _
           [OAdd [1; 2; 3]; OClear; OContains [7]] [1; 2; 3]).
  - vm_compute. reflexivity.
  - vm_compute. reflexivity.
  - reflexivity.
  - reflexivity.
  - reflexivity.
Defined.

(** X3: a filter built with no hash function ([optimalHashCount] gave 0)
    never sets a bit and never panics, whatever its size, and [Contains]
    answers [true] for every element although nothing was ever added. *)
Theorem no_hash_function_reports_everything {float64} (optimalSize : Z → float64 → Z)
    (optimalHashCount : Z → Z → Z) (n : Z) (p : float64)
    (bf : BloomFilter) (ops : list op) (d : list Z) :
  NewBloomFilter optimalSize optimalHashCount n p = Some bf →
  HashCount bf = 0 →
  ∃ bf', run_ops ops bf = Some bf' ∧
         (∀ q, get_bit (bitSet bf') q ≠ Some true) ∧
         ∃ bf'', Contains d bf' = Some (true, bf'').
Proof.
  intros Hnew Hk. unfold HashCount in Hk.
  assert (Hh : hashFuncs bf = []) by (destruct (hashFuncs bf); [done|cbn in Hk; lia]).
  destruct (hashFuncs_nil_run ops bf Hh) as (bf' & Hrun & Hh' & Hb').
  { intros q Hq. by destruct (exact_New _ _ _ _ _ 0%nat [] Hnew q Hq) as (? & ? & ? & ?%elem_of_nil & _). }
  exists bf'. split_and!; [done|done|]. unfold Contains. rewrite Hh'. cbn. eauto.
Qed.

Lemma no_hash_function_reports_everything_witness :
  ∃ bf', run_ops [OAdd [1]; OContains [2]; OClear] (mkBloom [] 0 []) = Some bf' ∧
         (∀ q, get_bit (bitSet bf') q ≠ Some true) ∧
         ∃ bf'', Contains [42] bf' = Some (true, bf'').
Proof.
  apply (no_hash_function_reports_everything (float64:=unit) (λ _ _, 0) (λ _ _, 0) 100 tt
           (mkBloom [] 0 []) [OAdd [1]; OContains [2]; OClear] [42]).
  - vm_compute. reflexivity.
  - reflexivity.
Defined.

(** X4: on a filter of size 0 that has a hash function, [Add] and
    [Contains] panic (integer division by zero at [hashValue % uint64(bf.size)]). *)
Theorem size_zero_panics {float64} (optimalSize : Z → float64 → Z)
    (optimalHashCount : Z → Z → Z) (n : Z) (p : float64)
    (bf bf' : BloomFilter) (ops : list op) (d : list Z) :
  NewBloomFilter optimalSize optimalHashCount n p = Some bf →
  run_ops ops bf = Some bf' →
  Size bf = 0 → 0 < HashCount bf →
  Add d bf' = None ∧ Contains d bf' = None.
Proof.
  intros Hnew Hrun Hsz Hk. unfold Size, HashCount in *.
  pose proof (run_ops_shape _ _ _ Hrun) as (Hs & Hl & _).
  unfold Add, Contains. rewrite Hs, Hsz.
  destruct (hashFuncs bf') as [|h hs]; [cbn in Hl; lia|]. done.
Qed.

Lemma size_zero_panics_witness :
  Add [1; 2] (mkBloom [] 0 [offset64]) = None ∧
  Contains [1; 2] (mkBloom [] 0 [offset64]) = None.
Proof.
  eapply (size_zero_panics (float64:=unit) (λ _ _, 0) (λ _ _, 1) 0 tt
           (mkBloom [] 0 [offset64]) _ [OClear] [1; 2]).
  - vm_compute. reflexivity.
  - vm_compute. reflexivity.
  - reflexivity.
  - reflexivity.
Defined.

(** X5: [Size] and [HashCount] are fixed at construction: after any
    sequence of [Add], [Contains] and [Clear] they still return the [m] and
    [k] computed by [NewBloomFilter], both non-negative, and the bit set has
    [Size] bits. *)
Theorem Size_HashCount_stable {float64} (optimalSize : Z → float64 → Z)
    (optimalHashCount : Z → Z → Z) (n : Z) (p : float64)
    (bf bf' : BloomFilter) (ops : list op) :
  NewBloomFilter optimalSize optimalHashCount n p = Some bf →
  run_ops ops bf = Some bf' →
  Size bf' = int_of (optimalSize n p) ∧
  HashCount bf' = int_of (optimalHashCount n (Size bf')) ∧
  Z.of_nat (length (bitSet bf')) = Size bf' ∧
  0 ≤ Size bf' ∧ 0 ≤ HashCount bf'.
Proof.
  intros Hnew Hrun. unfold Size, HashCount.
  pose proof (run_ops_shape _ _ _ Hrun) as (-> & -> & ->).
  revert Hnew. unfold NewBloomFilter, make.
  destruct (int_of (optimalSize n p) <? 0) eqn:Em; [done|]. apply Z.ltb_ge in Em.
  destruct (int_of (optimalHashCount n _) <? 0) eqn:Ek; [done|]. apply Z.ltb_ge in Ek.
  intros [= <-]. cbn. rewrite !repeat_length. lia.
Qed.

Lemma Size_HashCount_stable_witness :
  ∃ bf', run_ops [OAdd [1]; OContains [2]; OClear; OAdd [3]]
           (mkBloom (repeat false 16) 16 (repeat offset64 3)) = Some bf' ∧
         Size bf' = int_of 16 ∧ HashCount bf' = int_of 3 ∧
         Z.of_nat (length (bitSet bf')) = Size bf' ∧ 0 ≤ Size bf' ∧ 0 ≤ HashCount bf'.
Proof.
  eexists. split; [vm_compute; reflexivity|].
  apply (Size_HashCount_stable (float64:=unit) (λ _ _, 16) (λ _ _, 3) 100 tt
           (mkBloom (repeat false 16) 16 (repeat offset64 3)) _
           [OAdd [1]; OContains [2]; OClear; OAdd [3]]).
  - vm_compute. reflexivity.
  - vm_compute. reflexivity.
Defined.

(** X6: the bit set depends only on the set of elements added since the
    last [Clear], not on the order of the [Add]s, on repetitions, or on the
    [Contains] calls in between. *)
Theorem bitSet_order_independent {float64} (optimalSize : Z → float64 → Z)
    (optimalHashCount : Z → Z → Z) (n : Z) (p : float64)
    (bf bf1 bf2 : BloomFilter) (ops1 ops2 : list op) :
  NewBloomFilter optimalSize optimalHashCount n p = Some bf →
  run_ops ops1 bf = Some bf1 →
  run_ops ops2 bf = Some bf2 →
  (∀ d, d ∈ added [] ops1 ↔ d ∈ added [] ops2) →
  bitSet bf1 = bitSet bf2.
Proof.
  intros Hnew H1 H2 Hset.
  pose proof (run_ops_shape _ _ _ H1) as (_ & _ & Hl1).
  pose proof (run_ops_shape _ _ _ H2) as (_ & _ & Hl2).
  apply list_eq_same_length with (length (bitSet bf)); [done|done|].
  intros i x y _ Hx Hy. by eapply (bits_determined _ _ _ _ _ _ _ _ _ _ _ _ Hnew H1 H2).
Qed.

Lemma bitSet_order_independent_witness :
  let bf := mkBloom (repeat false 16) 16 (repeat offset64 3) in
  ∃ bf1 bf2,
    run_ops [OAdd [1]; OAdd [2; 3]; OContains [9]; OAdd [1]] bf = Some bf1 ∧
    run_ops [OAdd [7]; OClear; OAdd [2; 3]; OAdd [1]] bf = Some bf2 ∧
    bitSet bf1 = bitSet bf2.
Proof.
  eexists _, _. split; [vm_compute; reflexivity|]. split; [vm_compute; reflexivity|].
  apply (bitSet_order_independent (float64:=unit) (λ _ _, 16) (λ _ _, 3) 100 tt
           (mkBloom (repeat false 16) 16 (repeat offset64 3)) _ _
           [OAdd [1]; OAdd [2; 3]; OContains [9]; OAdd [1]]
           [OAdd [7]; OClear; OAdd [2; 3]; OAdd [1]]).
  - vm_compute. reflexivity.
  - vm_compute. reflexivity.
  - vm_compute. reflexivity.
  - intros d. cbn. rewrite !elem_of_cons, !elem_of_nil. tauto.
Defined.

(** X7: until the next [Clear], an answer [true] of [Contains] is never
    taken back: [Add] only sets bits, so an element reported present (added
    or false positive) stays reported present. *)
Theorem Contains_stays_true (bf bf1 bf' : BloomFilter) (ops : list op) (d : list Z) :
  Contains d bf = Some (true, bf1) →
  run_ops ops bf = Some bf' →
  no_Clear ops = true →
  ∃ bf'', Contains d bf' = Some (true, bf'').
Proof.
  intros Hc Hrun Hnc.
  assert (Hm : marked (size bf) (bitSet bf) d 0 (length (hashFuncs bf))).
  { unfold Contains in Hc.
    destruct (Contains_loop _ _ _ _ _ _) as [[b hs]|] eqn:E; [|done]. simplify_eq.
    by eapply Contains_loop_true. }
  clear Hc.
  assert (Hm' : marked (size bf') (bitSet bf') d 0 (length (hashFuncs bf'))).
  { revert bf Hrun Hm Hnc. induction ops as [|o ops IH]; intros bf Hrun Hm Hnc; cbn in Hrun.
    - by simplify_eq.
    - destruct (apply_op o bf) as [bf2|] eqn:E; [|done].
      assert (o ≠ OClear ∧ no_Clear ops = true) as [Ho Hnc'] by (by destruct o).
      apply (IH bf2 Hrun); [|done].
      destruct (apply_op_shape _ _ _ E) as (-> & -> & _).
      intros j Hj. destruct (Hm j Hj) as (h & q & Hp & Hq).
      exists h, q. split; [done|]. by eapply apply_op_keeps_bits. }
  destruct (Contains_loop_marked (size bf') d (bitSet bf') (hashFuncs bf') 0 [] Hm')
    as (hs' & E & _).
  unfold Contains. rewrite E. eauto.
Qed.

Lemma Contains_stays_true_witness :
  let bf := mkBloom [false; true; false; false; false; false; false; false; true; false;
                     false; true; false; false; true; false] 16 (repeat offset64 3) in
  ∃ bf', run_ops [OAdd [5]; OContains [4]; OAdd [8; 8]] bf = Some bf' ∧
         ∃ bf'', Contains [6] bf' = Some (true, bf'').
Proof.
  eexists. split; [vm_compute; reflexivity|].
  eapply (Contains_stays_true
            (mkBloom [false; true; false; false; false; false; false; false; true; false;
                      false; true; false; false; true; false] 16 (repeat offset64 3)) _ _
            [OAdd [5]; OContains [4]; OAdd [8; 8]] [6]).
  - vm_compute. reflexivity.
  - vm_compute. reflexivity.
  - reflexivity.
Defined.

End BloomFilter.

Module CachePenetration.
Import BloomFilter.

(** ** The cache in front of the database, guarded by a bloom filter *)

(** [[]byte(key)] *)
Definition bytes (key : string) : list Z :=
  (λ a, Z.of_nat (Ascii.nat_of_ascii a)) <$> String.list_ascii_of_string key.

(** [type MockRedis struct { cache map[string]string }] *)
Record MockRedis : Type := mkRedis { cache : gmap string string }.

(** [func NewMockRedis() *MockRedis] *)
Definition NewMockRedis : MockRedis := mkRedis ∅.

(** [func (r *MockRedis) Get(key string) (string, bool)]: a missing key
    reads as the empty string and [false]. *)
Definition MockRedis_Get (r : MockRedis) (key : string) : string * bool :=
  match cache r !! key with
  | Some val => (val, true)
  | None => (String.EmptyString, false)
  end.

(** [func (r *MockRedis) Set(key, value string)] *)
Definition MockRedis_Set (key value : string) (r : MockRedis) : MockRedis :=
  mkRedis (<[key:=value]> (cache r)).

(** [type MockDatabase struct { data map[string]string }] *)
Record MockDatabase : Type := mkDatabase { data : gmap string string }.

(** [fmt.Sprintf("user:%d", i)] and [fmt.Sprintf("user_data_%d", i)] *)
Definition user_key (i : nat) : string := "user:" +:+ pretty i.
Definition user_data (i : nat) : string := "user_data_" +:+ pretty i.

(** [for i := 0; i < 100; i++ { data[key] = ... }] from [i] on, with [n]
    iterations to go. *)
Fixpoint fill (n i : nat) (data : gmap string string) : gmap string string :=
  match n with
  | O => data
  | S n => fill n (S i) (<[user_key i:=user_data i]> data)
  end.

(** [func NewMockDatabase() *MockDatabase] *)
Definition NewMockDatabase : MockDatabase := mkDatabase (fill 100 0 ∅).

(** [func (d *MockDatabase) Query(key string) (string, bool)]; the delay of
    [time.Sleep] is the [DbQuery] event its caller records. *)
Definition MockDatabase_Query (d : MockDatabase) (key : string) : string * bool :=
  match data d !! key with
  | Some val => (val, true)
  | None => (String.EmptyString, false)
  end.

(** [type CacheWithBloomFilter struct { bloomFilter; redis; database }] *)
Record CacheWithBloomFilter : Type := mkCache {
  bloomFilter : BloomFilter;
  redis : MockRedis;
  database : MockDatabase
}.

(** What a call of [GetData] does besides returning: the lines it prints
    and the database query it makes. *)
Inductive event : Type :=
| RedisHit (key : string)    (* line 82: the Redis hit is printed *)
| DbQuery (key : string)     (* line 87: [c.database.Query(key)] *)
| DbCached (key : string).   (* line 90: the write to Redis is printed *)

#[global] Instance event_eq_dec : EqDecision event.
Proof. solve_decision. Defined.

(** [fmt.Errorf("key not found in bloom filter: %s", key)] and
    [fmt.Errorf("key not found: %s", key)] *)
Definition err_filter (key : string) : string := "key not found in bloom filter: " +:+ key.
Definition err_missing (key : string) : string := "key not found: " +:+ key.

(** The outcome of [GetData]: the value, the error ([None] is [nil]), the
    cache afterwards and the events of the call. *)
Record outcome : Type := mkOutcome {
  value : string;
  error : option string;
  after : CacheWithBloomFilter;
  events : list event
}.

(** [func (c *CacheWithBloomFilter) GetData(key string) (string, error)];
    [None] is a panic of [Contains]. *)
Definition GetData (key : string) (c : CacheWithBloomFilter) : option outcome :=
  match Contains (bytes key) (bloomFilter c) with
  | None => None
  | Some (false, bf) =>
      Some (mkOutcome String.EmptyString (Some (err_filter key))
              (mkCache bf (redis c) (database c)) [])
  | Some (true, bf) =>
      match MockRedis_Get (redis c) key with
      | (val, true) =>
          Some (mkOutcome val None (mkCache bf (redis c) (database c)) [RedisHit key])
      | (_, false) =>
          match MockDatabase_Query (database c) key with
          | (val, true) =>
              Some (mkOutcome val None
                      (mkCache bf (MockRedis_Set key val (redis c)) (database c))
                      [DbQuery key; DbCached key])
          | (_, false) =>
              Some (mkOutcome String.EmptyString (Some (err_missing key))
                      (mkCache bf (redis c) (database c)) [DbQuery key])
          end
      end
  end.

(** [for key := range db.data { bf.Add([]byte(key)) }], the keys in the
    order the iteration delivers them. *)
Fixpoint warm (keys : list string) (bf : BloomFilter) : option BloomFilter :=
  match keys with
  | [] => Some bf
  | key :: keys =>
      match Add (bytes key) bf with
      | None => None
      | Some bf => warm keys bf
      end
  end.

Section Constructor.
Context {float64 : Type}.
Variable optimalSize : Z → float64 → Z.
Variable optimalHashCount : Z → Z → Z.
(** the literal [0.01] *)
Variable p001 : float64.

(** [func NewCacheWithBloomFilter(redis *MockRedis, db *MockDatabase,
    expectedElements int) *CacheWithBloomFilter].  Go leaves the order of a
    map iteration open: [order] lists the keys of [db.data] as the loop of
    line 61 visits them. *)
Definition NewCacheWithBloomFilter (order : list string) (redis : MockRedis)
    (db : MockDatabase) (expectedElements : Z) : option CacheWithBloomFilter :=
  match NewBloomFilter optimalSize optimalHashCount expectedElements p001 with
  | None => None
  | Some bf =>
      match warm order bf with
      | None => None
      | Some bf => Some (mkCache bf redis db)
      end
  end.
End Constructor.


(** A sequence of [GetData] calls: the outcomes in order and the cache
    afterwards, [None] when one of the calls panics. *)
Fixpoint GetData_all (keys : list string) (c : CacheWithBloomFilter)
  : option (list outcome * CacheWithBloomFilter) :=
  match keys with
  | [] => Some ([], c)
  | key :: keys =>
      match GetData key c with
      | None => None
      | Some o =>
          match GetData_all keys (after o) with
          | None => None
          | Some (os, c') => Some (o :: os, c')
          end
      end
  end.


(** ** What [GetData] keeps *)

(** The answer of [Contains] depends on the bit set, the size and the
    number of hash functions only: every function is reset before use. *)
Definition same_filter (bf bf' : BloomFilter) : Prop :=
  bitSet bf' = bitSet bf ∧ size bf' = size bf ∧
  length (hashFuncs bf') = length (hashFuncs bf).

Lemma Contains_loop_ext sz d bits hs1 : ∀ hs2 i done1 done2,
  length hs1 = length hs2 →
  fst <$> Contains_loop sz d i hs1 done1 bits = fst <$> Contains_loop sz d i hs2 done2 bits.
Proof.
  induction hs1 as [|h1 hs1 IH]; intros [|h2 hs2] i done1 done2 Hl; try done; cbn in *.
  destruct (position sz i d) as [[h pos]|]; [|done].
  destruct (get_bit bits pos) as [[|]|]; try done.
  apply IH. lia.
Qed.

Lemma Contains_same bf bf' d :
  same_filter bf bf' → fst <$> Contains d bf' = fst <$> Contains d bf.
Proof.
  intros (Hb & Hs & Hl). unfold Contains. rewrite Hb, Hs.
  pose proof (Contains_loop_ext (size bf) d (bitSet bf) (hashFuncs bf') (hashFuncs bf)
                0 [] [] Hl) as H.
  destruct (Contains_loop _ _ _ (hashFuncs bf') _ _) as [[b1 hs1]|],
           (Contains_loop _ _ _ (hashFuncs bf) _ _) as [[b2 hs2]|]; cbn in *; congruence.
Qed.

Lemma Contains_after d bf b bf' : Contains d bf = Some (b, bf') → same_filter bf bf'.
Proof.
  unfold Contains. destruct (Contains_loop _ _ _ _ _ _) as [[b0 hs]|] eqn:E; [|done].
  intros [= <- <-]. split_and!; try done. cbn. by apply Contains_loop_length in E.
Qed.

Lemma same_filter_trans bf1 bf2 bf3 :
  same_filter bf1 bf2 → same_filter bf2 bf3 → same_filter bf1 bf3.
Proof. intros (?&?&?) (?&?&?). split_and!; congruence. Qed.

Lemma Contains_verdict d bf bf' b bf1 :
  same_filter bf bf' → Contains d bf = Some (b, bf1) →
  ∃ bf2, Contains d bf' = Some (b, bf2).
Proof.
  intros Hs Hc. pose proof (Contains_same bf bf' d Hs) as H. rewrite Hc in H. cbn in H.
  destruct (Contains d bf') as [[b' bf2]|]; cbn in H; [|done]. simplify_eq. eauto.
Qed.

(** The four ways through [GetData]. *)
Lemma GetData_cases key c o :
  GetData key c = Some o →
  ∃ b bf, Contains (bytes key) (bloomFilter c) = Some (b, bf) ∧
    bloomFilter (after o) = bf ∧ database (after o) = database c ∧
    match b, cache (redis c) !! key, data (database c) !! key with
    | false, _, _ =>
        value o = String.EmptyString ∧ error o = Some (err_filter key) ∧
        events o = [] ∧ redis (after o) = redis c
    | true, Some v, _ =>
        value o = v ∧ error o = None ∧ events o = [RedisHit key] ∧
        redis (after o) = redis c
    | true, None, Some v =>
        value o = v ∧ error o = None ∧ events o = [DbQuery key; DbCached key] ∧
        redis (after o) = MockRedis_Set key v (redis c)
    | true, None, None =>
        value o = String.EmptyString ∧ error o = Some (err_missing key) ∧
        events o = [DbQuery key] ∧ redis (after o) = redis c
    end.
Proof.
  unfold GetData, MockRedis_Get, MockDatabase_Query.
  destruct (Contains _ _) as [[[|] bf]|]; [| |done].
  - destruct (cache (redis c) !! key) as [v|].
    + intros [= <-]. by exists true, bf.
    + destruct (data (database c) !! key) as [v|]; intros [= <-]; by exists true, bf.
  - intros [= <-]. by exists false, bf.
Qed.

(** What a sequence of calls keeps: the filter and the database; Redis
    keeps its entries and gains only entries of the database. *)
Definition evolves (c c' : CacheWithBloomFilter) : Prop :=
  same_filter (bloomFilter c) (bloomFilter c') ∧ database c' = database c ∧
  (∀ k v, cache (redis c) !! k = Some v → cache (redis c') !! k = Some v) ∧
  (∀ k v, cache (redis c') !! k = Some v →
     cache (redis c) !! k = Some v ∨ data (database c) !! k = Some v).

Lemma GetData_evolves key c o : GetData key c = Some o → evolves c (after o).
Proof.
  intros (b & bf & Hc & Hbf & Hdb & H)%GetData_cases.
  split_and!; [rewrite Hbf; by eapply Contains_after|done| |].
  all: destruct b, (cache (redis c) !! key) as [v0|] eqn:Er,
         (data (database c) !! key) as [v1|] eqn:Ed; destruct H as (_ & _ & _ & ->);
         try (intros k v; by auto).
  - intros k v Hk. cbn. destruct (decide (k = key)) as [->|Hne]; [congruence|].
    by rewrite lookup_insert_ne.
  - intros k v. cbn. destruct (decide (k = key)) as [->|Hne].
    + rewrite lookup_insert_eq. intros [= <-]. by right.
    + rewrite lookup_insert_ne by done. auto.
Qed.

Lemma evolves_refl c : evolves c c.
Proof. split_and!; try done. auto. Qed.

Lemma evolves_trans c1 c2 c3 : evolves c1 c2 → evolves c2 c3 → evolves c1 c3.
Proof.
  intros (F1 & D1 & K1 & G1) (F2 & D2 & K2 & G2).
  split_and!; [by eapply same_filter_trans|congruence|by auto|].
  intros k v Hk. destruct (G2 k v Hk) as [H|H]; [by apply G1|]. rewrite D1 in H. by right.
Qed.

Lemma GetData_all_evolves keys : ∀ c os c',
  GetData_all keys c = Some (os, c') → evolves c c'.
Proof.
  induction keys as [|key keys IH]; intros c os c' H; cbn in H.
  - simplify_eq. apply evolves_refl.
  - destruct (GetData key c) as [o|] eqn:E; [|done].
    destruct (GetData_all keys (after o)) as [[os' c'']|] eqn:E'; [|done]. simplify_eq.
    eapply evolves_trans; [by eapply GetData_evolves|by eapply IH].
Qed.

(** A call on a key that the filter accepts and Redis holds. *)
Lemma GetData_hit key c v bf :
  Contains (bytes key) (bloomFilter c) = Some (true, bf) →
  cache (redis c) !! key = Some v →
  ∃ o, GetData key c = Some o ∧ value o = v ∧ error o = None ∧
       events o = [RedisHit key] ∧ redis (after o) = redis c.
Proof.
  intros Hc Hr. unfold GetData, MockRedis_Get. rewrite Hc, Hr. eexists. by split_and!.
Qed.

(** ** The warm-up *)

Lemma warm_run_ops keys : ∀ bf, warm keys bf = run_ops (OAdd ∘ bytes <$> keys) bf.
Proof.
  induction keys as [|key keys IH]; intros bf; cbn; [done|].
  destruct (Add (bytes key) bf); [apply IH|done].
Qed.

Lemma added_Adds keys : ∀ acc d,
  d ∈ added acc (OAdd ∘ bytes <$> keys) ↔ d ∈ acc ∨ d ∈ bytes <$> keys.
Proof.
  induction keys as [|key keys IH]; intros acc d; cbn.
  - rewrite elem_of_nil. tauto.
  - rewrite IH, !elem_of_cons. tauto.
Qed.



(** ** The mock database *)

Lemma user_key_inj i j : user_key i = user_key j → i = j.
Proof.
  unfold user_key. cbn [String.append]. intros H. simplify_eq. by apply (inj pretty).
Qed.

Lemma fill_other n : ∀ i d k,
  (∀ j, i ≤ j < i + n → k ≠ user_key j)%nat → fill n i d !! k = d !! k.
Proof.
  induction n as [|n IH]; intros i d k Hk; cbn; [done|].
  rewrite IH by (intros j Hj; apply Hk; lia).
  apply lookup_insert_ne. intros Heq. by apply (Hk i); [lia|].
Qed.

Lemma fill_user n : ∀ i d j,
  (i ≤ j < i + n)%nat → fill n i d !! user_key j = Some (user_data j).
Proof.
  induction n as [|n IH]; intros i d j Hj; cbn; [lia|].
  destruct (decide (j = i)) as [->|Hne]; [|apply IH; lia].
  rewrite fill_other; [apply lookup_insert_eq|].
  intros j Hj' Heq%user_key_inj. lia.
Qed.

(** X8: the database of [NewMockDatabase] holds exactly the hundred users
    [user:0] .. [user:99], each with its [user_data_i]; [Query] finds those
    and nothing else. *)
Theorem NewMockDatabase_holds_users :
  (∀ i, (i < 100)%nat →
     MockDatabase_Query NewMockDatabase (user_key i) = (user_data i, true)) ∧
  (∀ key, (∀ i, (i < 100)%nat → key ≠ user_key i) →
     MockDatabase_Query NewMockDatabase key = (String.EmptyString, false)).
Proof.
  unfold MockDatabase_Query, NewMockDatabase. cbn [data]. split.
  - intros i Hi. rewrite fill_user by lia. done.
  - intros key Hk. rewrite fill_other; [by rewrite lookup_empty|].
    intros j Hj. apply Hk. lia.
Qed.

(** ** Properties of [GetData] *)



(** X10: [GetData] never touches the bit set, so the verdict of the filter
    on a key is the same for the lifetime of the cache; and a key the filter
    rejects gets the filter's error without any access to Redis or to the
    database, whatever they hold. *)
Theorem GetData_filter_verdict_final (c0 c : CacheWithBloomFilter)
    (keys : list string) (os : list outcome) (key : string) (b : bool)
    (bf1 : BloomFilter) :
  Contains (bytes key) (bloomFilter c0) = Some (b, bf1) →
  GetData_all keys c0 = Some (os, c) →
  ∃ bf2 o, Contains (bytes key) (bloomFilter c) = Some (b, bf2) ∧
    GetData key c = Some o ∧
    (b = false →
       value o = String.EmptyString ∧ error o = Some (err_filter key) ∧
       events o = [] ∧ redis (after o) = redis c ∧ database (after o) = database c).
Proof.
  intros Hc Hall.
  destruct (GetData_all_evolves _ _ _ _ Hall) as (Hf & _).
  destruct (Contains_verdict _ _ _ _ _ Hf Hc) as (bf2 & Hc2).
  assert (is_Some (GetData key c)) as [o Ho].
  { unfold GetData, MockRedis_Get, MockDatabase_Query. rewrite Hc2.
    destruct b; [|eauto].
    destruct (cache (redis c) !! key); [eauto|]. destruct (data (database c) !! key); eauto. }
  exists bf2, o. split_and!; [done..|]. intros ->.
  apply GetData_cases in Ho as (b' & bf' & Hc' & _ & Hdb & H).
  rewrite Hc2 in Hc'. simplify_eq. by destruct H as (? & ? & ? & ?).
Qed.

Lemma GetData_filter_verdict_final_witness :
  let c0 := mkCache (mkBloom [false; false; false; false; true; false; false; true] 8
                       [offset64; offset64])
              (mkRedis {[ "k" := "cached" ]}) (mkDatabase {[ "k" := "stored" ]}) in
  ∃ os c, GetData_all ["a"; "k"; "zz"] c0 = Some (os, c) ∧
    ∃ bf2 o, Contains (bytes "k") (bloomFilter c) = Some (false, bf2) ∧
      GetData "k" c = Some o ∧
      (false = false →
         value o = String.EmptyString ∧ error o = Some (err_filter "k") ∧
         events o = [] ∧ redis (after o) = redis c ∧ database (after o) = database c).
Proof.
  eexists _, _. split; [vm_compute; reflexivity|].
  eapply (GetData_filter_verdict_final
            (mkCache (mkBloom [false; false; false; false; true; false; false; true] 8
                        [offset64; offset64])
               (mkRedis {[ "k" := "cached" ]}) (mkDatabase {[ "k" := "stored" ]}))
            _ ["a"; "k"; "zz"] _ "k" false).
  - vm_compute. reflexivity.
  - vm_compute. reflexivity.
Defined.

(** The entry Redis holds for a key is never overwritten, and no call
    queries the database for it. *)
Lemma GetData_all_cached keys : ∀ c os c' key v,
  cache (redis c) !! key = Some v →
  GetData_all keys c = Some (os, c') →
  cache (redis c') !! key = Some v ∧ Forall (λ o, DbQuery key ∉ events o) os.
Proof.
  induction keys as [|k keys IH]; intros c os c' key v Hr H; cbn in H.
  - simplify_eq. by split.
  - destruct (GetData k c) as [o|] eqn:E; [|done].
    destruct (GetData_all keys (after o)) as [[os' c'']|] eqn:E'; [|done]. simplify_eq.
    pose proof (GetData_evolves _ _ _ E) as (_ & _ & Hkeep & _).
    destruct (IH _ _ _ key v (Hkeep _ _ Hr) E') as [Hr' Hos]. split; [done|].
    constructor; [|done].
    apply GetData_cases in E as (b & bf & _ & _ & _ & H).
    destruct b, (cache (redis c) !! k) as [v0|] eqn:Er,
      (data (database c) !! k) as [v1|] eqn:Ed; destruct H as (_ & _ & -> & _);
      rewrite ?elem_of_cons, ?elem_of_nil; intros Hin; destruct_or?; simplify_eq.
Qed.

(** X11: the database is asked at most once for a key it holds: once
    [GetData] has returned a value for a key, every later call for that key
    returns the same value from Redis, and no call in between or after
    queries the database for it. *)
Theorem GetData_queries_database_once (c c' : CacheWithBloomFilter) (key : string)
    (o : outcome) (keys : list string) (os : list outcome) :
  GetData key c = Some o →
  error o = None →
  GetData_all keys (after o) = Some (os, c') →
  Forall (λ o', DbQuery key ∉ events o') os ∧
  ∃ o', GetData key c' = Some o' ∧ value o' = value o ∧ error o' = None ∧
        events o' = [RedisHit key].
Proof.
  intros Ho Herr Hall.
  pose proof (GetData_cases _ _ _ Ho) as (b & bf & Hc & Hbf & Hdb & H).
  assert (b = true ∧ cache (redis (after o)) !! key = Some (value o)) as [-> Hr].
  { destruct b, (cache (redis c) !! key) as [v0|] eqn:Er,
      (data (database c) !! key) as [v1|] eqn:Ed; destruct H as (Hv & He & _ & Hre);
      try congruence; rewrite Hre, Hv; split; try done.
    cbn. apply lookup_insert_eq. }
  destruct (GetData_all_cached _ _ _ _ _ _ Hr Hall) as [Hr' Hos]. split; [done|].
  destruct (GetData_all_evolves _ _ _ _ Hall) as (Hf & _).
  pose proof (Contains_after _ _ _ _ Hc) as Hf0. rewrite <-Hbf in Hf0.
  destruct (Contains_verdict _ _ _ _ _ (same_filter_trans _ _ _ Hf0 Hf) Hc) as (bf2 & Hc2).
  destruct (GetData_hit key c' (value o) bf2 Hc2 Hr') as (o' & Ho' & ? & ? & ? & _). eauto 10.
Qed.

Lemma GetData_queries_database_once_witness :
  let c := mkCache (mkBloom [false; false; false; false; true; false; false; true] 8
                      [offset64; offset64])
             NewMockRedis (mkDatabase {[ "a" := "1"; "b" := "2" ]}) in
  ∃ o os c', GetData "a" c = Some o ∧ GetData_all ["b"; "a"; "zz"] (after o) = Some (os, c') ∧
    Forall (λ o', DbQuery "a" ∉ events o') os ∧
    ∃ o', GetData "a" c' = Some o' ∧ value o' = value o ∧ error o' = None ∧
          events o' = [RedisHit "a"].
Proof.
  eexists _, _, _. split; [vm_compute; reflexivity|]. split; [vm_compute; reflexivity|].
  eapply (GetData_queries_database_once
            (mkCache (mkBloom [false; false; false; false; true; false; false; true] 8
                        [offset64; offset64])
               NewMockRedis (mkDatabase {[ "a" := "1"; "b" := "2" ]}))
            _ "a" _ ["b"; "a"; "zz"]).
  - vm_compute. reflexivity.
  - reflexivity.
  - vm_compute. reflexivity.
Defined.

(** X12: a miss is not cached: a key that passes the filter but is
    neither in Redis nor in the database reaches the database on every call,
    whatever was asked in between, and gets the error of line 95. *)
Theorem GetData_false_positive_queries_always (c c' : CacheWithBloomFilter)
    (key : string) (bf1 : BloomFilter) (keys : list string) (os : list outcome) :
  Contains (bytes key) (bloomFilter c) = Some (true, bf1) →
  cache (redis c) !! key = None →
  data (database c) !! key = None →
  GetData_all keys c = Some (os, c') →
  ∃ o, GetData key c' = Some o ∧ value o = String.EmptyString ∧
       error o = Some (err_missing key) ∧ events o = [DbQuery key] ∧
       redis (after o) = redis c'.
Proof.
  intros Hc Hr Hd Hall.
  destruct (GetData_all_evolves _ _ _ _ Hall) as (Hf & Hdb & _ & Hgain).
  destruct (Contains_verdict _ _ _ _ _ Hf Hc) as (bf2 & Hc2).
  assert (Hr' : cache (redis c') !! key = None).
  { destruct (cache (redis c') !! key) as [v|] eqn:E; [|done].
    destruct (Hgain key v E); congruence. }
  unfold GetData, MockRedis_Get, MockDatabase_Query. rewrite Hc2, Hr', Hdb, Hd.
  eexists. by split_and!.
Qed.

Lemma GetData_false_positive_queries_always_witness :
  let c := mkCache (mkBloom [false; false; false; false; true; false; false; true] 8
                      [offset64; offset64])
             NewMockRedis (mkDatabase {[ "a" := "1"; "b" := "2" ]}) in
  ∃ os c', GetData_all ["zz"; "a"; "zz"] c = Some (os, c') ∧
    ∃ o, GetData "zz" c' = Some o ∧ value o = String.EmptyString ∧
         error o = Some (err_missing "zz") ∧ events o = [DbQuery "zz"] ∧
         redis (after o) = redis c'.
Proof.
  eexists _, _. split; [vm_compute; reflexivity|].
  eapply (GetData_false_positive_queries_always
            (mkCache (mkBloom [false; false; false; false; true; false; false; true] 8
                        [offset64; offset64])
               NewMockRedis (mkDatabase {[ "a" := "1"; "b" := "2" ]}))
            _ "zz" _ ["zz"; "a"; "zz"]).
  - vm_compute. reflexivity.
  - vm_compute. reflexivity.
  - vm_compute. reflexivity.
  - vm_compute. reflexivity.
Defined.

(** X13: the order in which the loop of line 61 visits the keys of the
    database does not matter: if the construction succeeds for one order it
    succeeds for every other, with the same bit set, and the two caches give
    the same verdict on every key. *)
Theorem NewCacheWithBloomFilter_order_irrelevant {float64} (optimalSize : Z → float64 → Z)
    (optimalHashCount : Z → Z → Z) (p001 : float64)
    (order1 order2 : list string) (redis0 : MockRedis) (db : MockDatabase) (n : Z)
    (c1 : CacheWithBloomFilter) :
  NewCacheWithBloomFilter optimalSize optimalHashCount p001 order1 redis0 db n = Some c1 →
  order1 ≡ₚ order2 →
  ∃ c2, NewCacheWithBloomFilter optimalSize optimalHashCount p001 order2 redis0 db n
          = Some c2 ∧
    bitSet (bloomFilter c2) = bitSet (bloomFilter c1) ∧
    ∀ key, fst <$> Contains (bytes key) (bloomFilter c2)
           = fst <$> Contains (bytes key) (bloomFilter c1).
Proof.
  intros Hnew Hperm. unfold NewCacheWithBloomFilter in *.
  destruct (NewBloomFilter _ _ _ _) as [bf|] eqn:Hbf; [|done].
  destruct (warm order1 bf) as [bf1|] eqn:Hw1; [|done]. simplify_eq. cbn.
  rewrite warm_run_ops in Hw1.
  pose proof (keeps_New _ _ _ _ _ Hbf) as Hk0.
  assert (is_Some (warm order2 bf)) as [bf2 Hw2].
  { rewrite warm_run_ops. pose proof Hk0 as ([[Hs0 _] _] & _).
    destruct (decide (0 < size bf)) as [Hpos|Hz]; [by eapply run_total|].
    destruct (hashFuncs bf) as [|h0 hs0] eqn:Eh.
    - destruct (hashFuncs_nil_run (OAdd ∘ bytes <$> order2) bf Eh) as (bf2 & H2 & _); [|eauto].
      intros q Hq.
      by destruct (exact_New _ _ _ _ _ 0%nat [] Hbf q Hq) as (? & ? & ? & ?%elem_of_nil & _).
    - destruct order1 as [|k1 order1].
      + apply Permutation_nil in Hperm. subst order2. cbn. eauto.
      + cbn in Hw1. unfold Add in Hw1. rewrite Eh in Hw1. cbn in Hw1.
        unfold position in Hw1. replace (size bf) with 0 in Hw1 by lia. done. }
  rewrite Hw2. eexists. split; [done|]. cbn. rewrite warm_run_ops in Hw2.
  assert (Hbits : bitSet bf2 = bitSet bf1).
  { pose proof (run_ops_shape _ _ _ Hw1) as (_ & _ & Hl1).
    pose proof (run_ops_shape _ _ _ Hw2) as (_ & _ & Hl2).
    apply list_eq_same_length with (length (bitSet bf)); [done|done|].
    intros i x y _ Hx Hy.
    eapply (bits_determined _ _ _ _ _ _ _ _ _ _ _ _ Hbf Hw2 Hw1); [|done|done].
    intros d. rewrite !added_Adds, !list_elem_of_fmap.
    split; (intros [H|(k & -> & Hk)]; [by left|right; exists k; split; [done|]]).
    - by rewrite Hperm.
    - by rewrite <-Hperm. }
  split; [done|]. intros key. apply Contains_same.
  pose proof (run_ops_shape _ _ _ Hw1) as (Hs1 & Hh1 & _).
  pose proof (run_ops_shape _ _ _ Hw2) as (Hs2 & Hh2 & _).
  split_and!; congruence.
Qed.

Lemma NewCacheWithBloomFilter_order_irrelevant_witness :
  let db := mkDatabase {[ "a" := "1"; "b" := "2"; "c" := "3" ]} in
  ∃ c1 c2,
    NewCacheWithBloomFilter (float64:=unit) (λ _ _, 8) (λ _ _, 2) tt
      ["a"; "b"; "c"] NewMockRedis db 3 = Some c1 ∧
    NewCacheWithBloomFilter (float64:=unit) (λ _ _, 8) (λ _ _, 2) tt
      ["c"; "a"; "b"] NewMockRedis db 3 = Some c2 ∧
    bitSet (bloomFilter c2) = bitSet (bloomFilter c1) ∧
    ∀ key, fst <$> Contains (bytes key) (bloomFilter c2)
           = fst <$> Contains (bytes key) (bloomFilter c1).
Proof.
  eexists _. 
  destruct (NewCacheWithBloomFilter_order_irrelevant (float64:=unit) (λ _ _, 8) (λ _ _, 2) tt
              ["a"; "b"; "c"] ["c"; "a"; "b"] NewMockRedis
              (mkDatabase {[ "a" := "1"; "b" := "2"; "c" := "3" ]}) 3
              _ ltac:(vm_compute; reflexivity)
              ltac:(by rewrite (Permutation_app_comm ["a"; "b"] ["c"]))) as (c2 & H2 & H).
  exists c2. split; [vm_compute; reflexivity|]. split; [exact H2|exact H].
Defined.


End CachePenetration.

Module TokenBucket.
Open Scope Z_scope.

(** ** The token bucket *)

(** Go's [int] arithmetic wraps around on 64 bits. *)
Definition wrap (z : Z) : Z := (z + 2 ^ 63) mod 2 ^ 64 - 2 ^ 63.

Definition is_int (z : Z) : Prop := - 2 ^ 63 ≤ z < 2 ^ 63.

Section Clock.
(** Readings of [time.Now()], and
    [int(now.Sub(last).Seconds() * float64(rate))], which is computed in
    [float64]: both are taken as given, the latter being a Go [int]. *)
Context {Time : Type}.
Variable newTokensAt : Time → Time → Z → Z.

(** [type TokenBucket struct { capacity, tokens, rate int; lastRefill time.Time;
    mu sync.Mutex }].  Every method holds [mu] from its first statement to
    its return, so a method runs as one step. *)
Record TokenBucket : Type := mkBucket {
  capacity : Z;
  tokens : Z;
  rate : Z;
  lastRefill : Time
}.

(** [func NewTokenBucket(capacity, rate int) *TokenBucket]; [now] is the
    reading of [time.Now()]. *)
Definition NewTokenBucket (capacity rate : Z) (now : Time) : TokenBucket :=
  mkBucket capacity capacity rate now.

(** [func (tb *TokenBucket) refill()] *)
Definition refill (now : Time) (tb : TokenBucket) : TokenBucket :=
  let newTokens := newTokensAt now (lastRefill tb) (rate tb) in
  if 0 <? newTokens then
    let tokens := wrap (tokens tb + newTokens) in
    let tokens := if capacity tb <? tokens then capacity tb else tokens in
    mkBucket (capacity tb) tokens (rate tb) now
  else tb.

(** [func (tb *TokenBucket) TryConsume(count int) bool] *)
Definition TryConsume (count : Z) (now : Time) (tb : TokenBucket) : bool * TokenBucket :=
  let tb := refill now tb in
  if count <=? tokens tb
  then (true, mkBucket (capacity tb) (wrap (tokens tb - count)) (rate tb) (lastRefill tb))
  else (false, tb).

(** [func (tb *TokenBucket) GetTokens() int] *)
Definition GetTokens (now : Time) (tb : TokenBucket) : Z * TokenBucket :=
  let tb := refill now tb in (tokens tb, tb).

(** [func (tb *TokenBucket) Info() string] *)
Definition Info (now : Time) (tb : TokenBucket) : string * TokenBucket :=
  let tb := refill now tb in
  ("Capacity: " +:+ pretty (capacity tb) +:+ ", Rate: " +:+ pretty (rate tb)
     +:+ "/s, Tokens: " +:+ pretty (tokens tb), tb).

(** A history of calls on one bucket, each with the clock reading of its
    [refill]. *)
Inductive call : Type :=
| CTryConsume (count : Z) (now : Time)
| CGetTokens (now : Time)
| CInfo (now : Time).

Definition apply_call (c : call) (tb : TokenBucket) : TokenBucket :=
  match c with
  | CTryConsume count now => (TryConsume count now tb).2
  | CGetTokens now => (GetTokens now tb).2
  | CInfo now => (Info now tb).2
  end.

Definition run_calls (cs : list call) (tb : TokenBucket) : TokenBucket :=
  foldl (λ tb c, apply_call c tb) tb cs.

Definition now_of (c : call) : Time :=
  match c with
  | CTryConsume _ now | CGetTokens now | CInfo now => now
  end.

(** The tokens handed out by the calls [cs] made on [tb]. *)
Fixpoint granted (cs : list call) (tb : TokenBucket) : Z :=
  match cs with
  | [] => 0
  | c :: cs =>
      match c with
      | CTryConsume count now =>
          if (TryConsume count now tb).1 then count else 0
      | _ => 0
      end + granted cs (apply_call c tb)
  end.

(** The tokens the refills of the calls [cs] computed. *)
Fixpoint credited (cs : list call) (tb : TokenBucket) : Z :=
  match cs with
  | [] => 0
  | c :: cs =>
      Z.max 0 (newTokensAt (now_of c) (lastRefill tb) (rate tb))
      + credited cs (apply_call c tb)
  end.

(** No call asks for a negative number of tokens. *)
Definition counts_nonneg (cs : list call) : Prop :=
  Forall (λ c, match c with CTryConsume count _ => 0 ≤ count | _ => True end) cs.

(** No refill overflows: what it computes fits above a full bucket. *)
Fixpoint no_overflow (cs : list call) (tb : TokenBucket) : Prop :=
  match cs with
  | [] => True
  | c :: cs =>
      capacity tb + newTokensAt (now_of c) (lastRefill tb) (rate tb) < 2 ^ 63 ∧
      no_overflow cs (apply_call c tb)
  end.

Lemma wrap_small z : is_int z → wrap z = z.
Proof. unfold wrap, is_int. intros H. rewrite Z.mod_small; lia. Qed.

Lemma wrap_is_int z : is_int (wrap z).
Proof.
  unfold wrap, is_int. pose proof (Z.mod_pos_bound (z + 2 ^ 63) (2 ^ 64)). lia.
Qed.

Lemma refill_frame now tb :
  capacity (refill now tb) = capacity tb ∧ rate (refill now tb) = rate tb.
Proof. unfold refill. by destruct (0 <? _). Qed.

Lemma refill_le now tb :
  tokens tb ≤ capacity tb → tokens (refill now tb) ≤ capacity tb.
Proof.
  intros H. unfold refill. destruct (0 <? _); [|done]. cbn.
  destruct (capacity tb <? wrap _) eqn:E; [lia|]. by apply Z.ltb_ge in E.
Qed.

Lemma apply_call_frame c tb :
  capacity (apply_call c tb) = capacity tb ∧ rate (apply_call c tb) = rate tb.
Proof.
  destruct c as [count now|now|now]; cbn; unfold TryConsume;
    try destruct (count <=? _); cbn; apply refill_frame.
Qed.

Lemma run_calls_cons c cs tb : run_calls (c :: cs) tb = run_calls cs (apply_call c tb).
Proof. reflexivity. Qed.

Lemma run_calls_frame cs : ∀ tb,
  capacity (run_calls cs tb) = capacity tb ∧ rate (run_calls cs tb) = rate tb.
Proof.
  induction cs as [|c cs IH]; intros tb; [done|]. rewrite run_calls_cons.
  destruct (IH (apply_call c tb)) as [-> ->]. apply apply_call_frame.
Qed.

(** What the calls keep when no count is negative. *)
Lemma apply_call_le c tb :
  match c with CTryConsume count _ => 0 ≤ count | _ => True end →
  is_int (capacity tb) → is_int (tokens tb) →
  tokens tb ≤ capacity tb →
  is_int (tokens (apply_call c tb)) ∧ tokens (apply_call c tb) ≤ capacity tb.
Proof.
  intros Hc Hcap Hint Hle.
  assert (Hr : is_int (tokens (refill (now_of c) tb)) ∧
               tokens (refill (now_of c) tb) ≤ capacity tb).
  { split; [|by apply refill_le]. unfold refill. destruct (0 <? _); [|done]. cbn.
    destruct (capacity tb <? wrap _); [done|apply wrap_is_int]. }
  destruct Hr as [Hri Hrl].
  destruct c as [count now|now|now]; cbn in *; [|done..].
  unfold TryConsume. destruct (count <=? _) eqn:E; cbn; [|done].
  apply Z.leb_le in E. split; [apply wrap_is_int|].
  rewrite wrap_small; [lia|]. unfold is_int in *. lia.
Qed.

Lemma run_calls_le cs : ∀ tb,
  counts_nonneg cs → is_int (capacity tb) → is_int (tokens tb) →
  tokens tb ≤ capacity tb →
  is_int (tokens (run_calls cs tb)) ∧ tokens (run_calls cs tb) ≤ capacity tb.
Proof.
  induction cs as [|c cs IH]; intros tb Hcs Hcap Hint Hle; [done|]. rewrite run_calls_cons.
  apply Forall_cons in Hcs as [Hc Hcs].
  destruct (apply_call_le c tb Hc Hcap Hint Hle) as [Hi' Hl'].
  destruct (apply_call_frame c tb) as [Hcf _].
  rewrite <-Hcf. apply IH; [done| | |]; by rewrite ?Hcf.
Qed.

Lemma refill_credit now tb :
  0 ≤ tokens tb ≤ capacity tb →
  capacity tb + newTokensAt now (lastRefill tb) (rate tb) < 2 ^ 63 →
  0 ≤ tokens (refill now tb) ≤ capacity tb ∧
  tokens (refill now tb) ≤ tokens tb + Z.max 0 (newTokensAt now (lastRefill tb) (rate tb)).
Proof.
  intros Ht Hno. unfold refill.
  destruct (0 <? _) eqn:E; [apply Z.ltb_lt in E|apply Z.ltb_ge in E]; cbn; [|lia].
  rewrite wrap_small by (unfold is_int; lia).
  destruct (capacity tb <? _) eqn:E2; [apply Z.ltb_lt in E2|apply Z.ltb_ge in E2]; lia.
Qed.

(** One call hands out no more than the bucket held and its refill
    computed. *)
Lemma apply_call_account c tb :
  match c with CTryConsume count _ => 0 ≤ count | _ => True end →
  0 ≤ tokens tb ≤ capacity tb → capacity tb < 2 ^ 63 →
  capacity tb + newTokensAt (now_of c) (lastRefill tb) (rate tb) < 2 ^ 63 →
  0 ≤ tokens (apply_call c tb) ≤ capacity tb ∧
  granted [c] tb + tokens (apply_call c tb)
  ≤ tokens tb + Z.max 0 (newTokensAt (now_of c) (lastRefill tb) (rate tb)).
Proof.
  intros Hc Ht Hcap Hno. pose proof (refill_credit (now_of c) tb Ht Hno) as [Hr Hcr].
  destruct c as [count now|now|now];
    unfold apply_call, granted, GetTokens, Info, now_of in *; cbn [fst snd] in *; [|lia..].
  unfold TryConsume. destruct (count <=? _) eqn:E; cbn [fst snd tokens]; [|lia].
  apply Z.leb_le in E. rewrite wrap_small by (unfold is_int; lia). lia.
Qed.

Lemma granted_cons c cs tb :
  granted (c :: cs) tb = granted [c] tb + granted cs (apply_call c tb).
Proof. cbn. lia. Qed.

Lemma run_calls_account cs : ∀ tb,
  counts_nonneg cs → no_overflow cs tb →
  0 ≤ tokens tb ≤ capacity tb → capacity tb < 2 ^ 63 →
  0 ≤ tokens (run_calls cs tb) ≤ capacity tb ∧
  granted cs tb + tokens (run_calls cs tb) ≤ tokens tb + credited cs tb.
Proof.
  induction cs as [|c cs IH]; intros tb Hcs Hno Ht Hcap; [cbn; lia|].
  apply Forall_cons in Hcs as [Hc Hcs]. destruct Hno as [Hno1 Hno].
  destruct (apply_call_account c tb Hc Ht Hcap Hno1) as [Ht1 Hacc].
  destruct (apply_call_frame c tb) as [Hcf _].
  destruct (IH (apply_call c tb) Hcs Hno) as [Ht2 Hacc2]; [lia|lia|].
  rewrite run_calls_cons, granted_cons. cbn [credited]. split; lia.
Qed.

(** X15: as long as no call asks for a negative count, the bucket never
    holds more than its capacity; and it never holds less than zero when,
    moreover, no refill overflows. *)
Theorem tokens_within_capacity (capacity0 rate0 : Z) (t0 : Time) (cs : list call) :
  is_int capacity0 →
  counts_nonneg cs →
  tokens (run_calls cs (NewTokenBucket capacity0 rate0 t0)) ≤ capacity0 ∧
  (0 ≤ capacity0 → no_overflow cs (NewTokenBucket capacity0 rate0 t0) →
   0 ≤ tokens (run_calls cs (NewTokenBucket capacity0 rate0 t0))).
Proof.
  intros Hcap Hcs. split.
  - by apply (run_calls_le cs (NewTokenBucket capacity0 rate0 t0)).
  - intros H0 Hno. unfold is_int in Hcap.
    destruct (run_calls_account cs (NewTokenBucket capacity0 rate0 t0) Hcs Hno); cbn; lia.
Qed.


(** X17: a request for more tokens than the capacity is refused, however
    long the bucket was left to refill. *)
Theorem TryConsume_above_capacity_refused (capacity0 rate0 : Z) (t0 now : Time)
    (cs : list call) (count : Z) :
  is_int capacity0 →
  counts_nonneg cs →
  capacity0 < count →
  (TryConsume count now (run_calls cs (NewTokenBucket capacity0 rate0 t0))).1 = false.
Proof.
  intros Hcap Hcs Hgt.
  destruct (run_calls_le cs (NewTokenBucket capacity0 rate0 t0) Hcs Hcap Hcap) as [_ Hle];
    [done|].
  destruct (run_calls_frame cs (NewTokenBucket capacity0 rate0 t0)) as [Hc _].
  cbn in Hle, Hc. set (tb := run_calls cs (NewTokenBucket capacity0 rate0 t0)) in *.
  assert (Hle' : tokens tb ≤ capacity tb) by (by rewrite Hc).
  pose proof (refill_le now tb Hle') as Hr.
  unfold TryConsume. destruct (count <=? _) eqn:E; [|done].
  apply Z.leb_le in E. lia.
Qed.

End Clock.

Lemma tokens_within_capacity_witness :
  let f := λ now last rate0 : Z, (now - last) * rate0 in
  let cs := [CTryConsume 3 0; CTryConsume 5 1; CGetTokens 2; CTryConsume 4 2; CInfo 9] in
  tokens (run_calls f cs (NewTokenBucket 10 5 0)) ≤ 10 ∧
  (0 ≤ 10 → no_overflow f cs (NewTokenBucket 10 5 0) →
   0 ≤ tokens (run_calls f cs (NewTokenBucket 10 5 0))).
Proof.
  apply (tokens_within_capacity (λ now last rate0 : Z, (now - last) * rate0) 10 5 0
           [CTryConsume 3 0; CTryConsume 5 1; CGetTokens 2; CTryConsume 4 2; CInfo 9]).
  - unfold is_int. lia.
  - repeat constructor; lia.
Defined.


Lemma TryConsume_above_capacity_refused_witness :
  let f := λ now last rate0 : Z, (now - last) * rate0 in
  (TryConsume f 11 1000 (run_calls f [CTryConsume 3 0; CGetTokens 500]
                           (NewTokenBucket 10 5 0))).1 = false.
Proof.
  apply (TryConsume_above_capacity_refused (λ now last rate0 : Z, (now - last) * rate0)
           10 5 0 1000 [CTryConsume 3 0; CGetTokens 500] 11).
  - unfold is_int. lia.
  - repeat constructor; lia.
  - lia.
Defined.


End TokenBucket.

